(** * Subtitle batch-translation pipeline (Workflow/example.py)

    A shallow embedding of the subtitle parser, the batch payload codec,
    the batch scheduler, the translation store, the form handlers and the
    exports of [src/Workflow/example.py], together with the properties
    stated for them.

    Conventions of the embedding.
    - A Python [str] is the list of its code points.  Code points are
      taken below 256 (type [ascii]); on that range [str.isspace] and the
      regular-expression classes [\s] and [\d] are the predicates
      [isspace] and [isdigit] below.  Message literals that contain
      characters outside that range are written with their UTF-8 bytes;
      no function analysed here inspects them.
    - A Python [int] that is produced by [int] on a [\d+] match, by
      [len] or by a counter is a natural number ([N]); the two integers
      read from the configuration fields are [Z].
    - A [dict] keyed by unit index is a [gmap N _]. *)

From Stdlib Require Import ZArith NArith List Ascii String Lia.
From Stdlib Require Import Sorted Permutation.
From stdpp Require Import gmap list.
Import ListNotations.

Local Open Scope N_scope.
Local Open Scope list_scope.

(** ** Python strings *)

Definition str := list ascii.

Definition LF : ascii := "010"%char.
Definition CR : ascii := "013"%char.
Definition TAB : ascii := "009"%char.
Definition SP : ascii := " "%char.
Definition COLON : ascii := ":"%char.
Definition COMMA : ascii := ","%char.

(** String literals of the source. *)
Definition lit (s : string) : str := list_ascii_of_string s.

Definition ascii_eqb (a b : ascii) : bool := Ascii.eqb a b.
Arguments ascii_eqb : simpl never.

(** [str.isspace] on one code point: U+0009..U+000D, U+001C..U+0020,
    U+0085 and U+00A0. *)
Definition isspace (c : ascii) : bool :=
  let n := N_of_ascii c in
  ((9 <=? n) && (n <=? 13)) || ((28 <=? n) && (n <=? 32))
  || (n =? 133) || (n =? 160).

(** The class [\d] on one code point: the decimal digits. *)
Definition isdigit (c : ascii) : bool :=
  let n := N_of_ascii c in (48 <=? n) && (n <=? 57).

Fixpoint dropwhile (p : ascii -> bool) (s : str) : str :=
  match s with
  | [] => []
  | c :: r => if p c then dropwhile p r else s
  end.

Fixpoint takewhile (p : ascii -> bool) (s : str) : str :=
  match s with
  | [] => []
  | c :: r => if p c then c :: takewhile p r else []
  end.

(** [s.lstrip()], [s.rstrip()], [s.strip()]. *)
Definition lstrip (s : str) : str := dropwhile isspace s.
Definition rstrip (s : str) : str := rev (dropwhile isspace (rev s)).
Definition strip (s : str) : str := rstrip (lstrip s).

(** [s.strip(chars)] for a one-character [chars]. *)
Definition strip_char (ch : ascii) (s : str) : str :=
  rev (dropwhile (ascii_eqb ch) (rev (dropwhile (ascii_eqb ch) s))).

Definition is_empty (s : str) : bool :=
  match s with [] => true | _ => false end.

Definition cons_head (c : ascii) (l : list str) : list str :=
  match l with
  | [] => [[c]]
  | h :: t => (c :: h) :: t
  end.

(** [s.split(sep)] for a one-character separator. *)
Fixpoint split (sep : ascii) (s : str) : list str :=
  match s with
  | [] => [[]]
  | c :: r => if ascii_eqb c sep then [] :: split sep r
              else cons_head c (split sep r)
  end.

(** [sep in s] for a one-character [sep]. *)
Definition has_char (ch : ascii) (s : str) : bool := existsb (ascii_eqb ch) s.

(** [s.split(sep, 1)] for a one-character separator: the text before the
    first separator and the text after it, or the whole string. *)
Fixpoint split1 (sep : ascii) (s : str) : list str :=
  match s with
  | [] => [[]]
  | c :: r =>
      if ascii_eqb c sep then [[]; r]
      else match split1 sep r with
           | [l; rt] => [c :: l; rt]
           | _ => [s]
           end
  end.

(** [sep.join(parts)]. *)
Fixpoint join (sep : str) (parts : list str) : str :=
  match parts with
  | [] => []
  | [p] => p
  | p :: rest => p ++ sep ++ join sep rest
  end.

Fixpoint starts_with (pre s : str) : bool :=
  match pre, s with
  | [], _ => true
  | _ :: _, [] => false
  | a :: pre', b :: s' => ascii_eqb a b && starts_with pre' s'
  end.

(** [sub in s]. *)
Fixpoint contains (sub s : str) : bool :=
  starts_with sub s ||
  match s with
  | [] => false
  | _ :: r => contains sub r
  end.

(** [s.replace(old, new)] for a non-empty [old]: occurrences are replaced
    from the left and do not overlap.  [skip] counts the characters of an
    occurrence that are still to be passed over. *)
Fixpoint replace_aux (old new : str) (skip : nat) (s : str) : str :=
  match s with
  | [] => []
  | c :: r =>
      match skip with
      | S k => replace_aux old new k r
      | O => if starts_with old s
             then new ++ replace_aux old new (Nat.pred (length old)) r
             else c :: replace_aux old new 0 r
      end
  end.

Definition replace (old new s : str) : str := replace_aux old new 0 s.

(** [s.lower()] on one code point: A..Z and the Latin-1 capitals. *)
Definition lower_char (c : ascii) : ascii :=
  let n := N_of_ascii c in
  if ((65 <=? n) && (n <=? 90))
     || ((192 <=? n) && (n <=? 222) && negb (n =? 215))
  then ascii_of_N (n + 32) else c.

Definition lower (s : str) : str := map lower_char s.

(** ** Integers and their decimal text *)

Definition digit_char (d : N) : ascii := ascii_of_N (48 + d).
Definition digit_val (c : ascii) : N := N_of_ascii c - 48.

Fixpoint str_of_N_fuel (fuel : nat) (n : N) (acc : str) : str :=
  match fuel with
  | O => acc
  | S f =>
      let acc' := digit_char (n mod 10) :: acc in
      if n <? 10 then acc' else str_of_N_fuel f (n / 10) acc'
  end.

(** [str(n)] and the f-string field [{n}] for a natural number:
    decimal, no leading zeros.  A number has no more decimal digits
    than binary ones, which bounds the loop. *)
Definition str_of_N (n : N) : str :=
  str_of_N_fuel (S (N.to_nat (N.log2 n))) n [].

(** [str(z)] for an integer. *)
Definition str_of_Z (z : Z) : str :=
  match z with
  | Zneg p => "-"%char :: str_of_N (Npos p)
  | _ => str_of_N (Z.to_N z)
  end.

(** [int(s)] for a string of decimal digits with optional surrounding
    white space, the only strings it is applied to (each is guarded by a
    [\d+] match). *)
Definition int_of_digits (s : str) : N :=
  fold_left (fun acc c => acc * 10 + digit_val c) s 0.

Definition py_int (s : str) : N := int_of_digits (strip s).

(** ** The regular expressions of the source *)

(** [re.match] with the pattern [^\d+$]: one or more digits up to the
    end of the string; [$] also matches just before a final newline. *)
Definition dollar (rest : str) : bool :=
  match rest with
  | [] => true
  | [c] => ascii_eqb c LF
  | _ => false
  end.

Definition re_numeric (s : str) : bool :=
  negb (is_empty (takewhile isdigit s)) && dollar (dropwhile isdigit s).

(** [re.match] with the reply-line pattern of [parse_model_output]
    (group 1 [\d+], then [\s*], a colon, [\s*], then group 2, any
    characters up to [$]): the two groups.  Every
    quantifier is greedy and none of them can give a character back to
    its successor: a digit is neither white space nor a colon, white
    space is not a colon, and [.] stops at the first newline whatever the
    preceding [\s*] has taken. *)
Definition re_reply_line (ln : str) : option (str * str) :=
  let g1 := takewhile isdigit ln in
  if is_empty g1 then None
  else
    match dropwhile isspace (dropwhile isdigit ln) with
    | c :: rest =>
        if ascii_eqb c COLON then
          let rest' := dropwhile isspace rest in
          let g2 := takewhile (fun c => negb (ascii_eqb c LF)) rest' in
          if dollar (dropwhile (fun c => negb (ascii_eqb c LF)) rest')
          then Some (g1, g2) else None
        else None
    | [] => None
    end.

(** Length of the part of [w] that ends with its last newline, if any. *)
Fixpoint upto_last_LF (w : str) : option nat :=
  match w with
  | [] => None
  | c :: r =>
      match upto_last_LF r with
      | Some n => Some (S n)
      | None => if ascii_eqb c LF then Some 1%nat else None
      end
  end.

(** [re.split] with the pattern [\n\s*\n].  A separator starts at a
    newline whose following run of white space contains another newline
    and, [\s*]
    being greedy, ends with the last newline of that run.  [skip] counts
    the characters of the current separator still to be passed over. *)
Fixpoint re_split_blank_aux (skip : nat) (s : str) : list str :=
  match s with
  | [] => [[]]
  | c :: r =>
      match skip with
      | S k => re_split_blank_aux k r
      | O =>
          if ascii_eqb c LF then
            match upto_last_LF (takewhile isspace r) with
            | Some n => [] :: re_split_blank_aux n r
            | None => cons_head c (re_split_blank_aux 0 r)
            end
          else cons_head c (re_split_blank_aux 0 r)
      end
  end.

Definition re_split_blank (s : str) : list str := re_split_blank_aux 0 s.

(** ** Translation units *)

(** One entry of [self.items]: the dict with keys [index], [time],
    [src] and [tr]. *)
Record item := mk_item { index : N; time : str; src : str; tr : str }.

(** ** Subtitle parser *)

(** The arrow of an SRT time range. *)
Definition ARROW : str := lit "-->".

(** [range(a, b)]. *)
Definition py_range (a b : nat) : list nat := seq a (b - a).

(** The lines of one block: the pieces of [b.split(LF)] that are not
    empty once newlines are stripped from them. *)
Definition srt_block_lines (b : str) : list str :=
  map (strip_char LF)
      (List.filter (fun ln => negb (is_empty (strip_char LF ln))) (split LF b)).

(** The loop that looks for the time line: the first [i] of the range
    whose line contains the arrow gives the stripped line and [i + 1]. *)
Fixpoint srt_time_scan (lines : list str) (range : list nat)
  : option (str * nat) :=
  match range with
  | [] => None
  | i :: rest =>
      if contains ARROW (nth i lines [])
      then Some (strip (nth i lines []), S i)
      else srt_time_scan lines rest
  end.

(** The optional leading index line: [idx] and [start_at]. *)
Definition srt_index_line (lines : list str) : option N * nat :=
  if re_numeric (strip (nth 0 lines []))
  then (Some (py_int (strip (nth 0 lines []))), 1%nat)
  else (None, 0%nat).

(** One iteration of the loop over the blocks in [parse_srt]. *)
Definition srt_block (items : list item) (b : str) : list item :=
  let lines := srt_block_lines b in
  if (length lines <? 2)%nat then items
  else
    let '(idx, start_at) := srt_index_line lines in
    match srt_time_scan lines
            (py_range start_at (Nat.min (start_at + 2) (length lines))) with
    | None => items
    | Some (time_line, start_at') =>
        let src_lines := skipn start_at' lines in
        let src := strip (join [SP] (map strip src_lines)) in
        let idx' := match idx with
                    | Some i => i
                    | None => N.of_nat (length items) + 1
                    end in
        items ++ [mk_item idx' time_line src []]
    end.

(** Newline normalisation followed by [strip()], shared by the parsers
    and the decoder. *)
Definition normalize (text : str) : str :=
  strip (replace [CR] [LF] (replace [CR; LF] [LF] text)).

Definition srt_blocks (text : str) : list str :=
  re_split_blank (normalize text).

Definition parse_srt (text : str) : list item :=
  let text := normalize text in
  if is_empty text then []
  else fold_left srt_block (re_split_blank text) [].

(** One iteration of the loop over the lines in [parse_tsv_like]; the
    state is [items] and [auto_index]. *)
Definition tsv_line (st : list item * N) (ln : str) : list item * N :=
  let '(items, auto_index) := st in
  let parts :=
    if has_char TAB ln then split1 TAB ln
    else if has_char COMMA ln then split1 COMMA ln
    else [ln] in
  let '(idx, s) :=
    if (length parts =? 1)%nat then (auto_index, strip (nth 0 parts []))
    else
      let left := strip (nth 0 parts []) in
      let right := strip (nth 1 parts []) in
      if re_numeric left then (py_int left, right)
      else (auto_index, strip ln) in
  (items ++ [mk_item idx [] s []], auto_index + 1).

Definition tsv_lines (text : str) : list str :=
  List.filter (fun ln => negb (is_empty (strip ln))) (split LF text).

Definition parse_tsv_like (text : str) : list item :=
  let text := normalize text in
  if is_empty text then []
  else fst (fold_left tsv_line (tsv_lines text) ([], 1)).

Inductive format_tag := Fsrt | Ftsv.

Definition detect_and_parse_subtitles (text : str) : list item * format_tag :=
  if contains ARROW text then
    match parse_srt text with
    | [] => (parse_tsv_like text, Ftsv)
    | parsed => (parsed, Fsrt)
    end
  else (parse_tsv_like text, Ftsv).

(** ** Batch payload codec *)

(** The flattened source of a unit, as [build_user_payload] sends it. *)
Definition flatten (s : str) : str := strip (replace [LF] [SP] s).

Definition payload_line (it : item) : str :=
  str_of_N (index it) ++ [TAB] ++ flatten (src it).

Definition payload_header : str :=
  lit "Hãy dịch các dòng phụ đề sau theo hướng dẫn." ++ [LF]
  ++ lit "NHẮC LẠI format bắt buộc: index: nội dung dịch" ++ [LF; LF]
  ++ lit "DANH SÁCH CẦN DỊCH:" ++ [LF].

Definition build_user_payload (batch_items : list item) (guide_prompt : str)
  : str :=
  payload_header ++ join [LF] (map payload_line batch_items).

(** One iteration of the loop over the reply lines. *)
Definition reply_line (mapping : gmap N str) (ln : str) : gmap N str :=
  let ln := strip ln in
  if is_empty ln then mapping
  else
    match re_reply_line ln with
    | Some (g1, g2) => <[py_int g1 := strip g2]> mapping
    | None => mapping
    end.

Definition parse_model_output (output : str) : gmap N str :=
  fold_left reply_line (split LF (normalize output)) ∅.

(** ** Translation store and display state *)

(** One row of the table: the values [Index], [Source], [Translation]. *)
Record row := mk_row { row_index : N; row_src : str; row_tr : str }.

(** The events put on [work_q]. *)
Inductive event :=
| Status (msg : str)
| Log (msg : str)
| UpdateTranslations (mapping : gmap N str)
| Done
| Error (msg : str).

(** The part of [SubtitleTranslatorApp] that the worker and the queue
    poller read and write.  [worker_thread] is [true] while the attribute
    holds a thread; [dialogs] collects the texts shown by
    [messagebox.showerror]. *)
Record app := mk_app {
  items : list item;
  input_format : option format_tag;
  tree : list row;
  status_var : str;
  log_text : list str;
  dialogs : list str;
  worker_thread : bool;
  stop_flag : bool
}.

Definition set_tr (t : str) (it : item) : item :=
  mk_item (index it) (time it) (src it) t.

(** [sorted(l, key=index)] and [l.sort(key=index)]: the stable sort, here
    by insertion.  An item is inserted in front of the items of the sorted
    tail that have the same index, as it came before them. *)
Fixpoint insert_by_index (it : item) (l : list item) : list item :=
  match l with
  | [] => [it]
  | x :: r => if index x <? index it then x :: insert_by_index it r
              else it :: l
  end.

Definition sort_by_index (l : list item) : list item :=
  fold_right insert_by_index [] l.

(** The dict [idx_to_item]: each index is bound to the item object that
    carries it, the last one in [self.items] if several do.  The object
    is identified by its position in [self.items]. *)
Definition idx_to_item (its : list item) : gmap N nat :=
  fold_left (fun m p => <[index (snd p) := fst p]> m)
            (imap (fun pos it => (pos, it)) its) ∅.

(** The first loop of [_apply_translation_mapping]: the assignment goes
    through the reference held by [idx_to_item]. *)
Definition apply_to_items (mapping : gmap N str) (its : list item)
  : list item :=
  let refs := idx_to_item its in
  map_fold (fun idx t acc =>
              match refs !! idx with
              | Some pos => alter (set_tr t) pos acc
              | None => acc
              end) its mapping.

(** The second loop: every row whose index is a key of the mapping. *)
Definition apply_to_rows (mapping : gmap N str) (rows : list row) : list row :=
  map (fun r => match mapping !! row_index r with
                | Some t => mk_row (row_index r) (row_src r) t
                | None => r
                end) rows.

Definition _apply_translation_mapping (mapping : gmap N str) (a : app) : app :=
  mk_app (apply_to_items mapping (items a)) (input_format a)
         (apply_to_rows mapping (tree a))
         (status_var a) (log_text a) (dialogs a) (worker_thread a)
         (stop_flag a).

Definition set_status (msg : str) (a : app) : app :=
  mk_app (items a) (input_format a) (tree a) msg (log_text a) (dialogs a)
         (worker_thread a) (stop_flag a).

Definition log (msg : str) (a : app) : app :=
  mk_app (items a) (input_format a) (tree a) (status_var a)
         (log_text a ++ [msg]) (dialogs a)
         (worker_thread a) (stop_flag a).

Definition showerror (msg : str) (a : app) : app :=
  mk_app (items a) (input_format a) (tree a) (status_var a) (log_text a)
         (dialogs a ++ [msg])
         (worker_thread a) (stop_flag a).

(** [self.worker_thread = None; self.stop_flag.clear()]. *)
Definition release (a : app) : app :=
  mk_app (items a) (input_format a) (tree a) (status_var a) (log_text a)
         (dialogs a) false false.

(** [_refresh_table]. *)
Definition _refresh_table (a : app) : app :=
  mk_app (items a) (input_format a)
         (map (fun it => mk_row (index it) (src it) (tr it)) (items a))
         (status_var a) (log_text a) (dialogs a) (worker_thread a)
         (stop_flag a).



(** The handling of one queue item in [_poll_queue]. *)
Definition poll_event (a : app) (e : event) : app :=
  match e with
  | Status msg => set_status msg a
  | Log msg => log msg a
  | UpdateTranslations mapping => _apply_translation_mapping mapping a
  | Done => release (log (lit "Hoàn tất dịch.") (set_status (lit "Done.") a))
  | Error msg =>
      release (showerror msg (log (lit "Lỗi: " ++ msg)
                                  (set_status (lit "Error.") a)))
  end.

(** [_poll_queue] draining the queue [q]. *)
Definition _poll_queue (q : list event) (a : app) : app :=
  fold_left poll_event q a.

(** ** Batch scheduler *)

(** The arguments of [_translate_worker]. *)
Record config := mk_config {
  base_url : str;
  api_key : str;
  model_id : str;
  guide_prompt : str;
  batch_size : Z;
  concurrency : Z
}.

(** What the remote service does with one call: it answers with a
    message content (possibly [None]) or the call raises an exception
    whose text is [msg]. *)
Inductive answer :=
| Content (out : option str)
| Raises (msg : str).

(** What happens outside the driver during one run.  (Building the
    client object makes no call and is taken to succeed.)
    - [stop_at_pickup i]: the value of [stop_flag] when a pool worker
      starts on batch [i];
    - [service i]: the outcome of the remote call for batch [i];
    - [completion]: the batch positions in the order in which
      [as_completed] yields their futures;
    - [stop_in_loop k]: the value of [stop_flag] at iteration [k] of the
      loop over the completed futures;
    - [stop_at_end]: its value after the pool has shut down. *)
Record env := mk_env {
  stop_at_pickup : nat -> bool;
  service : nat -> answer;
  completion : list nat;
  stop_in_loop : nat -> bool;
  stop_at_end : bool
}.

(** The dict returned by [translate_one_batch]. *)
Record batch_result := mk_result {
  res_mapping : gmap N str;
  res_range : option (N * N);
  res_raw : option str;
  res_skipped : bool
}.

(** One remote call: the system and the user message. *)
Record call := mk_call { call_system : str; call_user : str }.

(** [translate_one_batch]: the remote calls it makes, and the exception
    text ([inl]) or the returned dict ([inr]). *)
Definition translate_one_batch (guide : str) (stop : bool) (ans : answer)
    (batch_items : list item) : list call * (str + batch_result) :=
  if stop then ([], inr (mk_result ∅ None None true))
  else
    match batch_items with
    | [] => ([], inl (lit "list index out of range"))
    | first :: _ =>
        let batch_idx_first := index first in
        let batch_idx_last := index (List.last batch_items first) in
        let user_payload := build_user_payload batch_items guide in
        let calls := [mk_call guide user_payload] in
        match ans with
        | Raises msg => (calls, inl msg)
        | Content c =>
            let out := default [] c in
            (calls,
             inr (mk_result (parse_model_output out)
                            (Some (batch_idx_first, batch_idx_last))
                            (Some out) false))
        end
    end.

(** [range(0, n, step)]: [None] stands for the [ValueError] of a zero
    step; a negative step gives the empty range. *)
Definition py_range_step (n : nat) (step : Z) : option (list nat) :=
  match step with
  | Z0 => None
  | Zneg _ => Some []
  | Zpos p =>
      let st := Pos.to_nat p in
      Some (map (fun k => (k * st)%nat) (seq 0 ((n + st - 1) / st)%nat))
  end.

(** The slice [l[start:start + size]]. *)
Definition slice (l : list item) (start size : nat) : list item :=
  firstn size (skipn start l).

(** The list [batches] built from the sorted [pending]. *)
Definition make_batches (pending : list item) (size : Z)
  : option (list (list item)) :=
  match py_range_step (length pending) size with
  | None => None
  | Some starts =>
      Some (map (fun start => slice pending start (Z.to_nat size)) starts)
  end.

(** [pending]: the units whose translation is empty once stripped. *)
Definition select_pending (its : list item) : list item :=
  List.filter (fun it => is_empty (strip (tr it))) its.

(** What the driver thread does, in order: it hands a batch to the pool
    or puts an event on the queue. *)
Inductive action :=
| Submit (batch : list item)
| Put (e : event).

Definition repr_range (rng : option (N * N)) : str :=
  match rng with
  | Some (a, b) => lit "(" ++ str_of_N a ++ lit ", " ++ str_of_N b ++ lit ")"
  | None => lit "None"
  end.

Definition msg_image : str :=
  lit "Cảnh báo: bạn đang chọn model Image. Dịch phụ đề thường nên dùng model text.".
Definition msg_nothing : str :=
  lit "Không có dòng nào cần dịch (Translation đã có).".
Definition msg_stopping : str :=
  lit "Đang dừng... (chờ các batch đang chạy kết thúc)".
Definition msg_unparsable : str :=
  lit "Model output không parse được. Hãy siết prompt hoặc giảm batch size hoặc giảm song song.".
Definition msg_stopped_log : str :=
  lit "Dừng theo yêu cầu. Các batch đã hoàn thành được giữ lại.".
Definition msg_stopped_status : str := lit "Đã dừng.".

Definition msg_start (c : config) (total : nat) : str :=
  lit "Bắt đầu dịch " ++ str_of_N (N.of_nat total) ++ lit " dòng, batch="
  ++ str_of_Z (batch_size c) ++ lit ", song song=" ++ str_of_Z (concurrency c)
  ++ lit ", model=" ++ model_id c ++ lit "...".

Definition msg_model (c : config) (total : nat) : str :=
  lit "Model: " ++ model_id c ++ lit ", total: " ++ str_of_N (N.of_nat total)
  ++ lit ", batch: " ++ str_of_Z (batch_size c) ++ lit ", concurrency: "
  ++ str_of_Z (concurrency c).

Definition msg_total_batches (total_batches : nat) : str :=
  lit "Tổng batch cần dịch: " ++ str_of_N (N.of_nat total_batches).

Definition msg_bad_format (rng : option (N * N)) : str :=
  lit "Batch " ++ repr_range rng ++ lit " trả về không đúng format. Raw output:".

Definition msg_batch_ok (a b : N) (parsed completed total_batches : nat)
  : str :=
  lit "Batch OK " ++ str_of_N a ++ lit ".." ++ str_of_N b ++ lit " (parsed "
  ++ str_of_N (N.of_nat parsed) ++ lit " lines) ["
  ++ str_of_N (N.of_nat completed) ++ lit "/"
  ++ str_of_N (N.of_nat total_batches) ++ lit "]".

Definition msg_progress (c : config) (completed total_batches : nat) : str :=
  lit "Tiến độ: " ++ str_of_N (N.of_nat completed) ++ lit "/"
  ++ str_of_N (N.of_nat total_batches) ++ lit " batch xong (song song="
  ++ str_of_Z (concurrency c) ++ lit ")".

(** The events of one successfully decoded batch. *)
Definition merged_actions (c : config) (total_batches completed : nat)
    (res : batch_result) : list action :=
  [Put (UpdateTranslations (res_mapping res))]
  ++ match res_range res with
     | Some (a, b) =>
         [Put (Log (msg_batch_ok a b (size (res_mapping res)) completed
                                 total_batches))]
     | None => []
     end
  ++ [Put (Status (msg_progress c completed total_batches))].

Arguments merged_actions : simpl never.
Arguments msg_bad_format : simpl never.
Arguments msg_batch_ok : simpl never.
Arguments msg_progress : simpl never.

(** The loop over [as_completed]; [futs] are the outcomes of the futures
    in completion order, [k] is the iteration number and [completed] the
    counter.  The result is the actions of the loop and the text of the
    exception that left it, if one did. *)
Fixpoint consume (c : config) (e : env) (total_batches : nat)
    (k completed : nat) (futs : list (str + batch_result))
  : list action * option str :=
  match futs with
  | [] => ([], None)
  | fut :: rest =>
      let seen :=
        if stop_in_loop e k then [Put (Status msg_stopping)] else [] in
      match fut with
      | inl exc => (seen, Some (lit "Lỗi batch: " ++ exc))
      | inr res =>
          if res_skipped res then
            let '(acts, exc) :=
              consume c e total_batches (S k) completed rest in
            (seen ++ acts, exc)
          else if bool_decide (res_mapping res = ∅) then
            (seen ++ [Put (Log (msg_bad_format (res_range res)));
                      Put (Log (default [] (res_raw res)))],
             Some msg_unparsable)
          else
            let '(acts, exc) :=
              consume c e total_batches (S k) (S completed) rest in
            (seen ++ merged_actions c total_batches (S completed) res ++ acts,
             exc)
      end
  end.

(** The outcome of every future, by batch position, with the remote
    calls its worker made. *)
Definition run_batches (c : config) (e : env) (batches : list (list item))
  : list (list call * (str + batch_result)) :=
  imap (fun i b => translate_one_batch (guide_prompt c) (stop_at_pickup e i)
                                       (service e i) b) batches.

(** What one run of [_translate_worker] leaves behind: the actions of
    the driver thread in order, and the remote calls of the pool, by
    batch position. *)
Record run := mk_run { trace : list action; calls : list call }.

Definition raise (acts : list action) (cs : list call) (msg : str) : run :=
  mk_run (acts ++ [Put (Error msg)]) cs.

(** The futures in the order in which [as_completed] yields them. *)
Definition completed_futures (c : config) (e : env) (batches : list (list item))
  : list (str + batch_result) :=
  omap (fun i => snd <$> run_batches c e batches !! i) (completion e).

(** The events put before [pending] is computed. *)
Definition intro_actions (c : config) (its : list item) : list action :=
  (if contains (lit "image") (lower (model_id c))
   then [Put (Log msg_image)] else [])
  ++ [Put (Status (msg_start c (length its)));
      Put (Log (msg_model c (length its)))].

(** The events put after the pool has shut down normally. *)
Definition closing_actions (e : env) : list action :=
  (if stop_at_end e
   then [Put (Log msg_stopped_log); Put (Status msg_stopped_status)]
   else [])
  ++ [Put Done].

Arguments intro_actions : simpl never.
Arguments closing_actions : simpl never.

Definition _translate_worker (c : config) (e : env) (its : list item) : run :=
  let intro := intro_actions c its in
  match select_pending its with
  | [] => mk_run (intro ++ [Put (Log msg_nothing); Put Done]) []
  | pending =>
      match make_batches (sort_by_index pending) (batch_size c) with
      | None => raise intro [] (lit "range() arg 3 must not be zero")
      | Some batches =>
          let total_batches := length batches in
          let intro :=
            intro ++ [Put (Log (msg_total_batches total_batches))] in
          if (concurrency c <=? 0)%Z then
            raise intro [] (lit "max_workers must be greater than 0")
          else
            let cs := concat (map fst (run_batches c e batches)) in
            let submitted := map Submit batches in
            match consume c e total_batches 0 0
                          (completed_futures c e batches) with
            | (acts, Some msg) => raise (intro ++ submitted ++ acts) cs msg
            | (acts, None) =>
                mk_run (intro ++ submitted ++ acts ++ closing_actions e) cs
            end
      end
  end.

(** The queue as the poller sees it. *)
Definition queue (t : list action) : list event :=
  omap (fun a => match a with Put e => Some e | Submit _ => None end) t.

Definition is_terminal (e : event) : bool :=
  match e with Done | Error _ => true | _ => false end.

(** ** Table synchronisation and cell editing *)

(** [a == b] on strings. *)
Fixpoint str_eqb (a b : str) : bool :=
  match a, b with
  | [], [] => true
  | x :: a', y :: b' => ascii_eqb x y && str_eqb a' b'
  | _, _ => false
  end.

(** [self.tree.set(row_id, "Translation", value)]; a row is identified by
    its position among the children of the table. *)
Definition tree_set_translation (pos : nat) (value : str) (rows : list row)
  : list row :=
  alter (fun r => mk_row (row_index r) (row_src r) value) pos rows.

(** One iteration of the loop of [_sync_table_to_items]: the translation
    shown in the row goes to the item that [idx_to_item] holds for the
    index of the row, if there is one. *)
Definition sync_row (refs : gmap N nat) (its : list item) (r : row)
  : list item :=
  match refs !! row_index r with
  | Some pos => alter (set_tr (row_tr r)) pos its
  | None => its
  end.

(** [_sync_table_to_items].  The table is taken to give back the values
    its rows were given, an index, a source and a translation, so that
    [int(vals[0])] is the index and [vals[2]] the translation shown. *)
Definition _sync_table_to_items (a : app) : app :=
  mk_app (fold_left (sync_row (idx_to_item (items a))) (tree a) (items a))
         (input_format a) (tree a) (status_var a) (log_text a) (dialogs a)
         (worker_thread a) (stop_flag a).

(** A double click as [_on_double_click] sees it: the answers of
    [identify] for the region, the row and the column under the pointer
    (no row is the empty answer), and whether [bbox] finds the cell. *)
Record click := mk_click {
  region : str;
  row_id : option nat;
  col_id : str;
  bbox : bool
}.

(** The entry placed over a cell: the row it edits and the text it
    holds. *)
Record entry := mk_entry { entry_row : nat; entry_text : str }.

(** [TreeviewCellEditor._on_double_click]: the entry it opens, if any. *)
Definition _on_double_click (ev : click) (rows : list row) : option entry :=
  if negb (str_eqb (region ev) (lit "cell")) then None
  else
    match row_id ev with
    | None => None
    | Some pos =>
        if is_empty (col_id ev) then None
        else if negb (str_eqb (col_id ev) (lit "#3")) then None
        else if negb (bbox ev) then None
        else Some (mk_entry pos (default [] (row_tr <$> rows !! pos)))
    end.

(** [save_edit]: the text of the entry becomes the translation of the
    row; [cancel_edit] leaves the table as it is. *)
Definition save_edit (en : entry) (rows : list row) : list row :=
  tree_set_translation (entry_row en) (entry_text en) rows.

Definition cancel_edit (en : entry) (rows : list row) : list row := rows.

(** ** Form handlers *)

Definition MODEL_OPTIONS : list (str * str) :=
  [ (lit "Gemini 3 Flash", lit "gemini-3-flash");
    (lit "Gemini 3 Pro High", lit "gemini-3-pro-high");
    (lit "Gemini 3 Pro Low", lit "gemini-3-pro-low");
    (lit "Gemini 3 Pro (Image)", lit "gemini-3-pro-image");
    (lit "Gemini 2.5 Flash", lit "gemini-2.5-flash");
    (lit "Gemini 2.5 Flash Lite", lit "gemini-2.5-flash-lite");
    (lit "Gemini 2.5 Pro", lit "gemini-2.5-pro");
    (lit "Gemini 2.5 Flash (Thinking)", lit "gemini-2.5-flash-thinking");
    (lit "Claude 4.5 Sonnet", lit "claude-sonnet-4-5") ].

(** [_get_model_id] for the text [model_var] of the model box. *)
Definition _get_model_id (model_var : str) : str :=
  let name := strip model_var in
  match List.find (fun p => str_eqb (fst p) name) MODEL_OPTIONS with
  | Some (_, mid) => mid
  | None => default [] (snd <$> head MODEL_OPTIONS)
  end.

(** The white space that [int] skips at both ends of its argument. *)
Definition int_space (c : ascii) : bool :=
  let n := N_of_ascii c in
  ((9 <=? n) && (n <=? 13)) || (n =? 32) || (n =? 133) || (n =? 160).

(** The digits of an [int] literal in base ten: decimal digits, single
    underscores between them.  The result is the value and the number of
    digits. *)
Fixpoint int_digits (s : str) (after_digit : bool) (acc : N) (digits : nat)
  : option (N * nat) :=
  match s with
  | [] => if after_digit then Some (acc, digits) else None
  | c :: r =>
      if isdigit c then int_digits r true (acc * 10 + digit_val c) (S digits)
      else if ascii_eqb c "_" then
        if after_digit then int_digits r false acc digits else None
      else None
  end.

(** [int(s)] for an arbitrary string; [None] stands for [ValueError].
    [max_str_digits] is the interpreter's limit on the number of digits
    ([sys.get_int_max_str_digits()]; zero for no limit), which is looked
    at for more than 640 digits only. *)
Definition int_of_str (max_str_digits : nat) (s : str) : option Z :=
  let s := rev (dropwhile int_space (rev (dropwhile int_space s))) in
  let '(negative, body) :=
    match s with
    | c :: r => if ascii_eqb c "-" then (true, r)
                else if ascii_eqb c "+" then (false, r)
                else (false, s)
    | [] => (false, [])
    end in
  match int_digits body false 0 0 with
  | None => None
  | Some (n, digits) =>
      if (640 <? digits)%nat && (0 <? max_str_digits)%nat
         && (max_str_digits <? digits)%nat
      then None
      else Some (if negative then (- Z.of_N n)%Z else Z.of_N n)
  end.

(** The two numeric fields of the form: [int(field.strip())] followed by
    the test that raises [ValueError] for a value that is not positive. *)
Definition positive_field (max_str_digits : nat) (field : str) : option Z :=
  match int_of_str max_str_digits (strip field) with
  | Some z => if (z <=? 0)%Z then None else Some z
  | None => None
  end.

(** The fields of the form that [on_translate] reads. *)
Record form := mk_form {
  base_url_var : str;
  api_key_var : str;
  model_var : str;
  guide_text : str;
  batch_size_var : str;
  concurrency_var : str
}.

(** The message boxes other than [showerror]. *)
Inductive box :=
| showwarning (title message : str)
| showinfo (title message : str).

(** What [on_translate] ends with: a message box, or the start of a
    worker thread with these arguments. *)
Inductive started :=
| Refused (b : box)
| Started (c : config).

(** [on_translate]; [alive] is the answer of [is_alive] for the thread
    that [worker_thread] holds. *)
Definition on_translate (max_str_digits : nat) (f : form) (alive : bool)
    (a : app) : app * started :=
  if bool_decide (items a = []) then
    (a, Refused (showwarning (lit "Chưa có dữ liệu")
                             (lit "Bạn cần Parse phụ đề -> Bảng trước.")))
  else if worker_thread a && alive then
    (a, Refused (showinfo (lit "Đang chạy")
                          (lit "Đang dịch rồi. Nếu muốn dừng, bấm Stop.")))
  else
    let a := _sync_table_to_items a in
    match positive_field max_str_digits (batch_size_var f) with
    | None =>
        (a, Refused (showwarning (lit "Sai batch")
                       (lit "Số dòng/batch phải là số nguyên > 0.")))
    | Some batch_size =>
        match positive_field max_str_digits (concurrency_var f) with
        | None =>
            (a, Refused (showwarning (lit "Sai song song")
                  (lit "Song song phải là số nguyên > 0 (mặc định 3).")))
        | Some concurrency =>
            let base_url := strip (base_url_var f) in
            let api_key := strip (api_key_var f) in
            let model_id := _get_model_id (model_var f) in
            let guide := strip (guide_text f) in
            if is_empty base_url || is_empty api_key then
              (a, Refused (showwarning (lit "Thiếu thông tin")
                             (lit "Bạn cần nhập Base URL và API Key.")))
            else if is_empty guide then
              (a, Refused (showwarning (lit "Thiếu prompt")
                             (lit "Bạn cần nhập Prompt hướng dẫn dịch.")))
            else
              (mk_app (items a) (input_format a) (tree a) (status_var a)
                      (log_text a) (dialogs a) true false,
               Started (mk_config base_url api_key model_id guide
                                  batch_size concurrency))
        end
    end.

(** [on_stop]. *)
Definition on_stop (alive : bool) (a : app) : app :=
  if worker_thread a && alive then
    log (lit "Đã gửi tín hiệu dừng. Sẽ dừng sau batch hiện tại.")
        (set_status (lit "Đang dừng...")
           (mk_app (items a) (input_format a) (tree a) (status_var a)
                   (log_text a) (dialogs a) (worker_thread a) true))
  else set_status (lit "Ready.") a.

(** [on_clear_all]. *)
Definition on_clear_all (a : app) : app :=
  log (lit "Đã clear.")
      (set_status (lit "Ready.")
         (mk_app [] None [] (status_var a) (log_text a) (dialogs a)
                 (worker_thread a) (stop_flag a))).

(** ** Export *)

Definition DUMMY_TIME : str := lit "00:00:00,000 --> 00:00:00,000".

(** The time line and the text that [on_export_srt] writes for a unit:
    the time range if there is one, and the translation, or the source
    when the translation is blank. *)
Definition export_time (it : item) : str :=
  if is_empty (time it) then DUMMY_TIME else time it.

Definition export_text (it : item) : str :=
  if is_empty (strip (tr it)) then strip (src it) else strip (tr it).

(** The list [lines] of [on_export_srt] and the text written to the
    file. *)
Definition export_srt_lines (its : list item) : list str :=
  concat (map (fun it => [str_of_N (index it); export_time it;
                          export_text it; []])
              (sort_by_index its)).

Definition export_srt_content (its : list item) : str :=
  strip (join [LF] (export_srt_lines its)) ++ [LF].

(** A cell of the sheet. *)
Inductive cell :=
| CInt (n : N)
| CStr (s : str).

(** The rows appended to the sheet by [on_export_xlsx]. *)
Definition export_xlsx_rows (its : list item) : list (list cell) :=
  [CStr (lit "Index"); CStr (lit "Source"); CStr (lit "Translation");
   CStr (lit "Time")]
  :: map (fun it => [CInt (index it); CStr (src it); CStr (tr it);
                     CStr (time it)])
         (sort_by_index its).

(** What an export ends with. *)
Inductive exported (A : Type) :=
| ExportRefused (b : box)
| ExportCancelled
| ExportWritten (path : str) (content : A)
| ExportFailed.

Arguments ExportRefused {A} b.
Arguments ExportCancelled {A}.
Arguments ExportWritten {A} path content.
Arguments ExportFailed {A}.


(** [on_export_xlsx], with the same [path] and [failure]. *)
Definition on_export_xlsx (path : str) (failure : option str) (a : app)
  : app * exported (list (list cell)) :=
  match items a with
  | [] => (a, ExportRefused (showwarning (lit "Chưa có dữ liệu")
                                         (lit "Không có dữ liệu để xuất.")))
  | _ =>
      let a := _sync_table_to_items a in
      if is_empty path then (a, ExportCancelled)
      else
        match failure with
        | Some msg => (showerror msg a, ExportFailed)
        | None =>
            (set_status (lit "Exported Excel: " ++ path)
               (log (lit "Đã xuất Excel: " ++ path) a),
             ExportWritten path (export_xlsx_rows (items a)))
        end
  end.

(** ** Notions used in the statements *)

(** A string made of white space only (the empty string included). *)
Definition whitespace_only (s : str) : bool := forallb isspace s.

(** Ascending order of the indices. *)
Definition index_le (a b : item) : Prop := index a <= index b.

(** A field made of decimal digits only, and at least one. *)
Definition purely_numeric (s : str) : bool :=
  negb (is_empty s) && forallb isdigit s.

(** The text before the first [sep] of [s] and the text after it. *)
Definition cut (sep : ascii) (s : str) : str * str :=
  (takewhile (fun c => negb (ascii_eqb c sep)) s,
   tail (dropwhile (fun c => negb (ascii_eqb c sep)) s)).

(** The two fields of a tabular line as the grammar describes them: cut
    at the first tab if there is one, else at the first comma, else no
    split. *)
Definition tsv_fields (ln : str) : option (str * str) :=
  if has_char TAB ln then Some (cut TAB ln)
  else if has_char COMMA ln then Some (cut COMMA ln)
  else None.

(** The unit of a tabular line as the grammar describes it, for a given
    value of the auto-counter. *)
Definition tsv_unit (counter : N) (ln : str) : item :=
  match tsv_fields ln with
  | Some (l, r) =>
      if purely_numeric (strip l)
      then mk_item (py_int (strip l)) [] (strip r) []
      else mk_item counter [] (strip ln) []
  | None => mk_item counter [] (strip ln) []
  end.




(** The lines of a reply, as the decoder walks through them. *)
Definition reply_lines (output : str) : list str := split LF (normalize output).

(** The index and the trimmed translation of a line that matches the
    reply grammar (an integer, a colon, the rest). *)
Definition reply_entry (ln : str) : option (N * str) :=
  match re_reply_line (strip ln) with
  | Some (g1, g2) => Some (py_int g1, strip g2)
  | None => None
  end.

(** Mappings whose key sets are pairwise disjoint. *)
Fixpoint pairwise_disjoint (ms : list (gmap N str)) : Prop :=
  match ms with
  | [] => True
  | m :: rest =>
      Forall (fun m' => dom m ## dom m') rest /\ pairwise_disjoint rest
  end.

(** The merges of several mappings, one after the other. *)
Definition merge_all (ms : list (gmap N str)) (a : app) : app :=
  fold_left (fun a m => _apply_translation_mapping m a) ms a.

(** What a merge does to the item at position [pos]: it takes the
    translation bound to its index if [refs] refers to that position. *)
Definition merged_item (refs : gmap N nat) (m : gmap N str) (pos : nat)
    (it : item) : item :=
  match m !! index it with
  | Some t => if decide (refs !! index it = Some pos) then set_tr t it else it
  | None => it
  end.

(** A future that the loop over the completed futures passes without
    leaving: its batch was skipped, or decoded into a non-empty mapping. *)
Definition future_ok (f : str + batch_result) : Prop :=
  match f with
  | inr res => res_skipped res = true \/ res_mapping res <> ∅
  | inl _ => False
  end.

(** The mappings of the futures that were not skipped. *)
Definition merged_mappings (futs : list (str + batch_result))
  : list (gmap N str) :=
  omap (fun f => match f with
                 | inr res => if res_skipped res then None
                              else Some (res_mapping res)
                 | inl _ => None
                 end) futs.

(** The mappings carried by the update events of a queue. *)
Definition updates (q : list event) : list (gmap N str) :=
  omap (fun ev => match ev with
                  | UpdateTranslations m => Some m
                  | _ => None
                  end) q.

(** An action that neither submits a batch nor ends the run. *)
Definition progress_action (a : action) : Prop :=
  exists ev, a = Put ev /\ is_terminal ev = false.

(** An action that does not end the run. *)
Definition open_action (a : action) : Prop :=
  match a with
  | Submit _ => True
  | Put ev => is_terminal ev = false
  end.

(** The reply line that echoes a unit, and the reply that echoes a
    batch: one line, index, colon, space, flattened source, per unit. *)
Definition echo_line (it : item) : str :=
  str_of_N (index it) ++ [COLON; SP] ++ flatten (src it).

Definition echo_reply (units : list item) : str :=
  join [LF] (map echo_line units).

(** What is left after the colon once an echo line is stripped. *)
Definition after_colon (f : str) : str :=
  match f with
  | [] => []
  | _ => SP :: f
  end.

(** The four lines of [payload_header]. *)
Definition payload_header_lines : list str :=
  [lit "Hãy dịch các dòng phụ đề sau theo hướng dẫn.";
   lit "NHẮC LẠI format bắt buộc: index: nội dung dịch";
   [];
   lit "DANH SÁCH CẦN DỊCH:"].

(** A string as the parsers and the decoder leave it: on one line,
    without carriage return and without white space around it. *)
Definition clean (s : str) : Prop :=
  strip s = s /\ has_char LF s = false /\ has_char CR s = false.

(** The row that [_refresh_table] inserts for a unit. *)
Definition row_of_item (it : item) : row :=
  mk_row (index it) (src it) (tr it).

(** The table shows the units as they are, row for row. *)
Definition in_sync (a : app) : Prop := tree a = map row_of_item (items a).


(** What a merge does to a unit when the indices are pairwise distinct. *)
Definition merge_unit (m : gmap N str) (it : item) : item :=
  match m !! index it with
  | Some t => set_tr t it
  | None => it
  end.

(** The mapping that the table shows: index to translation, where a
    lower row replaces a higher one with the same index. *)
Definition table_mapping (rows : list row) : gmap N str :=
  fold_left (fun m r => <[row_index r := row_tr r]> m) rows ∅.

(** The application with other rows in its table. *)
Definition with_tree (rows : list row) (a : app) : app :=
  mk_app (items a) (input_format a) rows (status_var a) (log_text a)
         (dialogs a) (worker_thread a) (stop_flag a).

(** What no event changes: the units up to their translations, the rows
    up to theirs, the detected format; and what only grows: the log and
    the list of error boxes. *)
Definition same_frame (a a' : app) : Prop :=
  map index (items a') = map index (items a)
  /\ map time (items a') = map time (items a)
  /\ map src (items a') = map src (items a)
  /\ map row_index (tree a') = map row_index (tree a)
  /\ map row_src (tree a') = map row_src (tree a)
  /\ input_format a' = input_format a
  /\ (exists l, log_text a' = log_text a ++ l)
  /\ (exists d, dialogs a' = dialogs a ++ d).

(** The state of a unit after several merges. *)
Definition merge_units (ms : list (gmap N str)) (it : item) : item :=
  fold_left (fun it m => merge_unit m it) ms it.

(** A service that answers every batch in the promised format: the
    reply to a batch is decoded into one translation, not blank, for
    each index of the batch and for no other index. *)
Definition answers_in_format (e : env) (batches : list (list item)) : Prop :=
  forall i b, batches !! i = Some b ->
    exists out, service e i = Content (Some out)
      /\ dom (parse_model_output out) = list_to_set (map index b)
      /\ map_Forall (fun _ t => whitespace_only t = false)
                    (parse_model_output out).

(** A mapping decoded from the reply to one of the batches. *)
Definition reply_mapping (e : env) (batches : list (list item))
    (m : gmap N str) : Prop :=
  exists i b out, batches !! i = Some b /\ service e i = Content (Some out)
                  /\ m = parse_model_output out.

(** A string put in front of the first piece of a split. *)
Definition prepend (p : str) (l : list str) : list str :=
  match l with
  | [] => [p]
  | h :: t => (p ++ h) :: t
  end.

(** A line of a block: not empty, without newline, and starting with a
    character other than white space. *)
Definition block_line (l : str) : Prop :=
  has_char LF l = false /\ exists c r, l = c :: r /\ isspace c = false.

(** A unit as [on_export_srt] writes it and as [parse_srt] reads it
    back. *)
Definition exported_unit (it : item) : item :=
  mk_item (index it) (export_time it) (export_text it) [].

(** The lines and the text of the block of a unit that has a time range,
    a source and no translation. *)
Definition block_lines_of (u : item) : list str :=
  str_of_N (index u) :: time u :: (if is_empty (src u) then [] else [src u]).

(** The text of the block of such a unit. *)
Definition block_of (u : item) : str := join [LF] (block_lines_of u).

(** The newlines that follow the block of a unit which is not the last
    one. *)
Definition gap_after (u : item) : str :=
  if is_empty (src u) then [LF; LF; LF] else [LF; LF].

(** The text of several blocks, one after the other, as the export
    writes them. *)
Fixpoint blocks_text (us : list item) : str :=
  match us with
  | [] => []
  | [u] => block_of u
  | u :: rest => block_of u ++ gap_after u ++ blocks_text rest
  end.

(** A unit that can be written as a block. *)
Definition block_unit (u : item) : Prop :=
  contains ARROW (time u) = true /\ clean (time u) /\ clean (src u)
  /\ tr u = [].

(** A string that starts and ends with a character other than white
    space. *)
Definition tight (x : str) : Prop :=
  (exists c r, x = c :: r /\ isspace c = false)
  /\ (exists y d, x = y ++ [d] /\ isspace d = false).

(** The four lines that [on_export_srt] appends for a unit, here for
    a unit as it is written. *)
Definition four_lines (u : item) : list str :=
  [str_of_N (index u); time u; src u; []].

(** A unit that [on_export_srt] can write so that [parse_srt] reads it
    back: its time range, if it has one, holds the arrow and is clean,
    and its exported text is on one line. *)
Definition exportable (it : item) : Prop :=
  (time it = [] \/ (contains ARROW (time it) = true /\ clean (time it)))
  /\ has_char LF (export_text it) = false
  /\ has_char CR (export_text it) = false.

(** What follows the block of the last unit in the joined lines. *)
Definition tail_after (u : item) : str :=
  if is_empty (src u) then [LF; LF] else [LF].


(** ** Sample inputs *)

(** Three blocks: the second has no arrow, the third no index line. *)
Definition srt_sample : str :=
  lit "1" ++ [CR; LF] ++ lit "00:00:01,000 --> 00:00:02,000" ++ [CR; LF]
  ++ lit "Hello" ++ [CR; LF] ++ lit "there" ++ [CR; LF; CR; LF]
  ++ lit "no arrow here" ++ [LF] ++ lit "at all" ++ [LF; SP; LF]
  ++ lit "00:00:03,000 --> 00:00:04,000" ++ [LF] ++ lit "World" ++ [LF].

Definition sample_pending : list item :=
  map (fun i => mk_item i [] [] [])
      [4; 2; 17; 1; 6; 3; 5; 12; 9; 8; 11; 10; 13; 16; 15; 14; 7].

Definition translated_items : list item :=
  [mk_item 1 [] (lit "Hello") (lit "Xin chao");
   mk_item 2 [] (lit "World") (lit "The gioi")].

Definition sample_config : config :=
  mk_config (lit "http://localhost/v1") (lit "key") (lit "gemini-3-flash")
            (lit "guide") 2 3.

(** No stop request, and a service that answers nothing. *)
Definition quiet_env : env :=
  mk_env (fun _ => false) (fun _ => Content None) [] (fun _ => false) false.





(** A table in which index 2 occurs twice, and three mappings with
    disjoint keys. *)
Definition sample_table : app :=
  _refresh_table
    (mk_app [mk_item 1 [] (lit "Hello") []; mk_item 2 [] (lit "World") [];
             mk_item 3 [] (lit "Again") []; mk_item 2 [] (lit "Twice") []]
            (Some Ftsv) [] [] [] [] false false).

Definition sample_mappings : list (gmap N str) :=
  [ {[ 1 := lit "Xin chao" ]};
    <[ 2 := lit "The gioi" ]> {[ 9 := lit "Khong" ]};
    {[ 3 := lit "Lai" ]} ].

(** Four units, one of them translated; with batches of two the pending
    ones make the batches (1, 3) and (5). *)
Definition sample_items : list item :=
  [mk_item 3 [] (lit "c") []; mk_item 1 [] (lit "a") [];
   mk_item 2 [] (lit "b") (lit "done"); mk_item 5 [] (lit "e") []].

Definition sample_batches : list (list item) :=
  [[mk_item 1 [] (lit "a") []; mk_item 3 [] (lit "c") []];
   [mk_item 5 [] (lit "e") []]].

Definition good_reply : str := lit "1: A" ++ [LF] ++ lit "3: C".

Definition sample_app : app :=
  _refresh_table (mk_app sample_items (Some Ftsv) [] [] [] [] true false).


Definition good_result : batch_result :=
  mk_result (parse_model_output good_reply) (Some (1, 3)) (Some good_reply)
            false.


(** The stop flag is set after the first batch has been picked up: the
    second batch is skipped. *)
Definition cancel_env : env :=
  mk_env (fun i => (1 <=? i)%nat)
         (fun _ => Content (Some good_reply))
         [0; 1]%nat (fun k => (1 <=? k)%nat) true.





(** A double click on the translation cell of the second row. *)
Definition sample_click : click :=
  mk_click (lit "cell") (Some 1%nat) (lit "#3") true.

(** The first batch is answered well, the call for the second one
    raises. *)
Definition raising_env : env :=
  mk_env (fun _ => false)
         (fun i => match i with
                   | O => Content (Some good_reply)
                   | _ => Raises (lit "timeout")
                   end)
         [0; 1]%nat (fun _ => false) false.

(** Both batches are answered in the promised format; the second one
    completes first. *)
Definition answering_env : env :=
  mk_env (fun _ => false)
         (fun i => match i with
                   | O => Content (Some good_reply)
                   | _ => Content (Some (lit "5: E"))
                   end)
         [1; 0]%nat (fun _ => false) false.

(** A form with white space around some of its fields. *)
Definition sample_form : form :=
  mk_form (lit " http://localhost/v1 ") (lit "key") (lit "Gemini 2.5 Pro")
          (lit "guide" ++ [LF]) (lit " 25 ") (lit "3").

(** Two units in descending order: one with time range and translation,
    one with neither. *)
Definition export_items : list item :=
  [mk_item 2 (lit "00:00:03,000 --> 00:00:04,000") (lit "World")
           (lit " The gioi ");
   mk_item 1 [] (lit "Hello") []].

(** * Properties *)

(** Closed equations between values of the embedding are settled by
    evaluation. *)
Ltac by_evaluation := vm_compute; reflexivity.

(** Closed decidable propositions, such as [NoDup] of a list of indices
    or the disjointness of two key sets, likewise. *)
Ltac by_decision := apply (bool_decide_unpack _); vm_compute; exact I.

(** ** Sanity checks of the embedding *)

Example split_demo :
  split LF (lit "a" ++ [LF] ++ lit "b" ++ [LF; LF] ++ lit "c")
  = [lit "a"; lit "b"; []; lit "c"].
Proof. reflexivity. Qed.

Example re_split_blank_demo :
  re_split_blank (lit "a" ++ [LF] ++ lit "b" ++ [LF; SP; LF; LF] ++ lit "  c"
                  ++ [LF; TAB; LF] ++ lit "d")
  = [lit "a" ++ [LF] ++ lit "b"; lit "  c"; lit "d"].
Proof. reflexivity. Qed.

Example replace_demo :
  replace [CR] [LF] (replace [CR; LF] [LF] [ "a"%char; CR; LF; CR; "b"%char ])
  = [ "a"%char; LF; LF; "b"%char ].
Proof. reflexivity. Qed.

Example str_of_N_demo : str_of_N 1203 = lit "1203" /\ str_of_N 0 = lit "0".
Proof. split; reflexivity. Qed.

Example py_int_demo : py_int (lit " 0042 ") = 42.
Proof. reflexivity. Qed.

Example parse_srt_demo :
  parse_srt srt_sample
  = [ mk_item 1 (lit "00:00:01,000 --> 00:00:02,000") (lit "Hello there") [];
      mk_item 2 (lit "00:00:03,000 --> 00:00:04,000") (lit "World") [] ].
Proof. by_evaluation. Qed.

Example parse_tsv_demo :
  parse_tsv_like (lit "7" ++ [TAB] ++ lit "seven" ++ [LF] ++ lit "plain" ++ [LF]
                  ++ lit "x, y" ++ [LF] ++ lit "12 , twelve")
  = [ mk_item 7 [] (lit "seven") []; mk_item 2 [] (lit "plain") [];
      mk_item 3 [] (lit "x, y") []; mk_item 12 [] (lit "twelve") [] ].
Proof. by_evaluation. Qed.

Example parse_model_output_demo :
  parse_model_output (lit "3: ba" ++ [CR; LF] ++ lit "garbage" ++ [LF]
                      ++ lit "4 :  bon " ++ [LF] ++ lit "03:three")
  = <[3 := lit "three"]> (<[4 := lit "bon"]> ∅).
Proof. by_evaluation. Qed.

Example sort_by_index_demo :
  sort_by_index [mk_item 2 [] (lit "a") []; mk_item 1 [] (lit "b") [];
                 mk_item 2 [] (lit "c") []]
  = [mk_item 1 [] (lit "b") []; mk_item 2 [] (lit "a") [];
     mk_item 2 [] (lit "c") []].
Proof. reflexivity. Qed.

(** ** Characters and runs of characters *)

Lemma ascii_eqb_eq a b : ascii_eqb a b = true <-> a = b.
Proof. apply Ascii.eqb_eq. Qed.

Lemma ascii_eqb_sym a b : ascii_eqb a b = ascii_eqb b a.
Proof. apply Ascii.eqb_sym. Qed.

Lemma isspace_LF : isspace LF = true.
Proof. reflexivity. Qed.

Lemma digit_not_space c : isdigit c = true -> isspace c = false.
Proof.
  unfold isdigit, isspace. intros [H1 H2]%andb_prop.
  apply N.leb_le in H1, H2.
  repeat (apply orb_false_intro); try (apply N.eqb_neq; lia);
    apply andb_false_iff; right; apply N.leb_gt; lia.
Qed.

Lemma dropwhile_all p s : forallb p s = true -> dropwhile p s = [].
Proof.
  induction s as [|c r IH]; simpl; [done|].
  intros [Hc Hr]%andb_prop. rewrite Hc. auto.
Qed.

Lemma dropwhile_head p s c r : dropwhile p s = c :: r -> p c = false.
Proof.
  induction s as [|d s IH]; simpl; [done|].
  destruct (p d) eqn:E; [auto|]. by intros [= <- _].
Qed.

Lemma dropwhile_keeps p a c r :
  p c = false -> dropwhile p (a ++ c :: r) <> [].
Proof.
  intros Hc. induction a as [|d a IH]; simpl.
  - by rewrite Hc.
  - destruct (p d); [exact IH | done].
Qed.

Lemma takewhile_dropwhile p s : takewhile p s ++ dropwhile p s = s.
Proof.
  induction s as [|c r IH]; simpl; [done|].
  destruct (p c); simpl; [by rewrite IH | done].
Qed.

Lemma takewhile_all p s : forallb p (takewhile p s) = true.
Proof.
  induction s as [|c r IH]; simpl; [done|].
  destruct (p c) eqn:E; simpl; [by rewrite E | done].
Qed.

Lemma dropwhile_none p s : dropwhile p s = [] -> forallb p s = true.
Proof.
  intros H. rewrite <- (takewhile_dropwhile p s), H, app_nil_r.
  apply takewhile_all.
Qed.

Lemma forallb_dropwhile_false p s c r :
  dropwhile p s = c :: r -> forallb p s = false.
Proof.
  intros H. pose proof (dropwhile_head _ _ _ _ H) as Hc.
  rewrite <- (takewhile_dropwhile p s), H, forallb_app. simpl.
  rewrite Hc. apply andb_false_r.
Qed.

Lemma dropwhile_app_keep p (l r : str) :
  dropwhile p l <> [] -> dropwhile p (l ++ r) = dropwhile p l ++ r.
Proof.
  induction l as [|c l IH]; simpl; [done|].
  destruct (p c); [exact IH | done].
Qed.

Lemma takewhile_app_stop p (a : str) c r :
  forallb p a = true -> p c = false ->
  takewhile p (a ++ c :: r) = a /\ dropwhile p (a ++ c :: r) = c :: r.
Proof.
  intros Ha Hc. induction a as [|d a IH]; simpl.
  - by rewrite Hc.
  - simpl in Ha. apply andb_prop in Ha as [Hd Ha]. rewrite Hd.
    destruct (IH Ha) as [-> ->]. done.
Qed.

Lemma takewhile_id p (s : str) :
  forallb p s = true -> takewhile p s = s /\ dropwhile p s = [].
Proof.
  intros H. split; [|by apply dropwhile_all].
  pose proof (takewhile_dropwhile p s) as E.
  by rewrite (dropwhile_all _ _ H), app_nil_r in E.
Qed.

Lemma forallb_rev p (s : str) : forallb p (rev s) = forallb p s.
Proof.
  induction s as [|c r IH]; simpl; [done|].
  rewrite forallb_app, IH. simpl. rewrite andb_true_r. apply andb_comm.
Qed.

(** ** Stripping *)

(** [strip] leaves nothing exactly when the string is white space. *)
Lemma strip_empty s : is_empty (strip s) = whitespace_only s.
Proof.
  unfold strip, rstrip, lstrip, whitespace_only.
  destruct (forallb isspace s) eqn:E.
  - by rewrite (dropwhile_all _ _ E).
  - destruct (dropwhile isspace s) as [|c r] eqn:D.
    + apply dropwhile_none in D. congruence.
    + apply dropwhile_head in D as Hc. simpl.
      pose proof (dropwhile_keeps isspace (rev r) c [] Hc) as Hk.
      destruct (dropwhile isspace (rev r ++ [c])) as [|x y] eqn:Q; [done|].
      simpl. by destruct (rev y).
Qed.

(** [strip] removes a run of white space at each end and nothing else. *)
Lemma strip_decomp s :
  exists a b, s = a ++ strip s ++ b
              /\ forallb isspace a = true /\ forallb isspace b = true.
Proof.
  exists (takewhile isspace s),
         (rev (takewhile isspace (rev (lstrip s)))).
  split; [|split].
  - unfold strip, rstrip. rewrite <- rev_app_distr, takewhile_dropwhile.
    rewrite rev_involutive. unfold lstrip. by rewrite takewhile_dropwhile.
  - apply takewhile_all.
  - rewrite forallb_rev. apply takewhile_all.
Qed.

Lemma rstrip_prefix y : exists w, y = rstrip y ++ w /\ forallb isspace w = true.
Proof.
  exists (rev (takewhile isspace (rev y))). unfold rstrip. split.
  - by rewrite <- rev_app_distr, takewhile_dropwhile, rev_involutive.
  - rewrite forallb_rev. apply takewhile_all.
Qed.

Lemma strip_first x c r : strip x = c :: r -> isspace c = false.
Proof.
  unfold strip. intros H.
  destruct (rstrip_prefix (lstrip x)) as (w & Hw & _). rewrite H in Hw.
  by apply dropwhile_head in Hw.
Qed.

Lemma strip_last x y c : strip x = y ++ [c] -> isspace c = false.
Proof.
  unfold strip, rstrip. intros H.
  apply (f_equal (@rev ascii)) in H. rewrite rev_involutive, rev_unit in H.
  by apply dropwhile_head in H.
Qed.

Lemma lstrip_fixed c r : isspace c = false -> lstrip (c :: r) = c :: r.
Proof. intros H. unfold lstrip. simpl. by rewrite H. Qed.

Lemma rstrip_fixed y c : isspace c = false -> rstrip (y ++ [c]) = y ++ [c].
Proof.
  intros H. unfold rstrip. rewrite rev_unit. simpl. rewrite H.
  change (c :: rev y) with ([c] ++ rev y).
  by rewrite rev_app_distr, rev_involutive.
Qed.

Lemma rstrip_space y c : isspace c = true -> rstrip (y ++ [c]) = rstrip y.
Proof. intros H. unfold rstrip. rewrite rev_unit. simpl. by rewrite H. Qed.

(** [strip] does nothing to a string that it has produced. *)
Lemma strip_strip x : strip (strip x) = strip x.
Proof.
  destruct (strip x) as [|c r] eqn:E; [done|].
  pose proof (strip_first _ _ _ E) as Hc.
  unfold strip at 1. rewrite (lstrip_fixed _ _ Hc).
  destruct (exists_last (l := c :: r) ltac:(done)) as (y & d & Hy).
  rewrite Hy in *. apply rstrip_fixed. by eapply strip_last.
Qed.

Lemma strip_space_cons c s : isspace c = true -> strip (c :: s) = strip s.
Proof. intros H. unfold strip, lstrip. simpl. by rewrite H. Qed.

Lemma strip_space_snoc c s : isspace c = true -> strip (s ++ [c]) = strip s.
Proof.
  intros H. unfold strip, lstrip.
  destruct (dropwhile isspace s) as [|d r] eqn:E.
  - apply dropwhile_none in E. rewrite dropwhile_all; [done|].
    rewrite forallb_app, E. simpl. by rewrite H.
  - rewrite dropwhile_app_keep by (by rewrite E). rewrite E.
    by apply rstrip_space.
Qed.

Lemma strip_digits s : forallb isdigit s = true -> strip s = s.
Proof.
  intros H. destruct s as [|c r]; [done|].
  assert (Hc : isspace c = false).
  { apply digit_not_space. simpl in H. by apply andb_prop in H as [? _]. }
  unfold strip. rewrite (lstrip_fixed _ _ Hc).
  destruct (exists_last (l := c :: r) ltac:(done)) as (y & d & Hy).
  rewrite Hy in *. apply rstrip_fixed, digit_not_space.
  rewrite forallb_app in H. apply andb_prop in H as [_ H]. simpl in H.
  by apply andb_prop in H as [? _].
Qed.

(** ** Occurrences of a character *)

Lemma has_char_app c a b : has_char c (a ++ b) = has_char c a || has_char c b.
Proof. apply existsb_app. Qed.



Lemma has_char_strip_false c s :
  has_char c s = false -> has_char c (strip s) = false.
Proof.
  intros H. destruct (strip_decomp s) as (a & b & Hs & _ & _).
  rewrite Hs, !has_char_app in H.
  apply orb_false_elim in H as [_ H]. by apply orb_false_elim in H as [H _].
Qed.


Lemma has_char_digits c s :
  isdigit c = false -> forallb isdigit s = true -> has_char c s = false.
Proof.
  intros Hc. induction s as [|d s IH]; simpl; [done|].
  intros [Hd Hs]%andb_prop. rewrite (IH Hs), orb_false_r.
  destruct (ascii_eqb c d) eqn:E; [|done].
  apply ascii_eqb_eq in E as ->. congruence.
Qed.

Lemma no_char_forallb c s :
  has_char c s = false -> forallb (fun d => negb (ascii_eqb d c)) s = true.
Proof.
  unfold has_char. induction s as [|d s IH]; simpl; [done|].
  intros [Hd Hs]%orb_false_elim. rewrite (ascii_eqb_sym d c), Hd. simpl. auto.
Qed.

Lemma has_char_join c sep (lines : list str) :
  ascii_eqb c sep = false ->
  Forall (fun ln => has_char c ln = false) lines ->
  has_char c (join [sep] lines) = false.
Proof.
  intros Hsep. induction 1 as [|p rest Hp Hrest IH]; [done|].
  destruct rest as [|q rest]; [done|].
  change (join [sep] (p :: q :: rest))
    with (p ++ sep :: join [sep] (q :: rest)).
  rewrite has_char_app, Hp.
  change (has_char c (sep :: join [sep] (q :: rest)))
    with (ascii_eqb c sep || has_char c (join [sep] (q :: rest))).
  by rewrite Hsep, IH.
Qed.



(** ** Splitting, joining and replacing *)

Lemma cons_head_nonempty c l : cons_head c l <> [].
Proof. by destruct l. Qed.

Lemma split_nonempty sep s : split sep s <> [].
Proof.
  destruct s as [|c r]; simpl; [done|].
  destruct (ascii_eqb c sep); [done | apply cons_head_nonempty].
Qed.

Lemma split_no_sep sep s : has_char sep s = false -> split sep s = [s].
Proof.
  unfold has_char. induction s as [|c r IH]; simpl; [done|].
  rewrite (ascii_eqb_sym sep c). intros [Hc Hr]%orb_false_elim.
  by rewrite Hc, (IH Hr).
Qed.

Lemma split_app_sep sep p s :
  has_char sep p = false -> split sep (p ++ sep :: s) = p :: split sep s.
Proof.
  unfold has_char. induction p as [|c r IH]; simpl.
  - intros _. by rewrite (proj2 (ascii_eqb_eq sep sep) eq_refl).
  - rewrite (ascii_eqb_sym sep c). intros [Hc Hr]%orb_false_elim.
    by rewrite Hc, (IH Hr).
Qed.

Lemma split_join sep (lines : list str) :
  lines <> [] -> Forall (fun ln => has_char sep ln = false) lines ->
  split sep (join [sep] lines) = lines.
Proof.
  induction lines as [|p rest IH]; [done|]. intros _ Hall.
  inversion Hall as [|? ? Hp Hrest]; subst.
  destruct rest as [|q rest]; [by apply split_no_sep|].
  change (join [sep] (p :: q :: rest))
    with (p ++ sep :: join [sep] (q :: rest)).
  rewrite split_app_sep by done. f_equal. by apply IH.
Qed.

Lemma split_snoc sep s c :
  exists pre lst,
    split sep s = pre ++ [lst]
    /\ split sep (s ++ [c])
       = if ascii_eqb c sep then pre ++ [lst; []] else pre ++ [lst ++ [c]].
Proof.
  induction s as [|d s (pre & lst & Hs & Hsc)]; simpl.
  - exists [], []. split; [done|]. by destruct (ascii_eqb c sep).
  - rewrite Hs, Hsc. destruct (ascii_eqb d sep).
    + exists ([] :: pre), lst. split; [done|]. by destruct (ascii_eqb c sep).
    + destruct pre as [|p ps]; simpl.
      * exists [], (d :: lst). split; [done|]. by destruct (ascii_eqb c sep).
      * exists ((d :: p) :: ps), lst. split; [done|].
        by destruct (ascii_eqb c sep).
Qed.

Lemma split1_cut sep s :
  has_char sep s = true -> split1 sep s = [fst (cut sep s); snd (cut sep s)].
Proof.
  unfold cut, has_char. induction s as [|c r IH]; simpl; [done|].
  rewrite (ascii_eqb_sym sep c).
  destruct (ascii_eqb c sep) eqn:E; simpl; [done|].
  intros H. by rewrite (IH H).
Qed.

Lemma cut_spec sep s :
  has_char sep s = true ->
  s = fst (cut sep s) ++ sep :: snd (cut sep s)
  /\ has_char sep (fst (cut sep s)) = false.
Proof.
  unfold cut, has_char. induction s as [|c r IH]; simpl; [done|].
  rewrite (ascii_eqb_sym sep c).
  destruct (ascii_eqb c sep) eqn:E; simpl.
  - apply ascii_eqb_eq in E as ->. done.
  - intros H. destruct (IH H) as [H1 H2].
    rewrite (ascii_eqb_sym sep c), E. simpl. split; [by f_equal | done].
Qed.

Lemma re_split_blank_nonempty s : forall k, re_split_blank_aux k s <> [].
Proof.
  induction s as [|c r IH]; intros k; simpl; [done|].
  destruct k; [|apply IH].
  destruct (ascii_eqb c LF); [|apply cons_head_nonempty].
  destruct (upto_last_LF _); [done | apply cons_head_nonempty].
Qed.

Lemma replace_absent c0 old new s :
  has_char c0 s = false -> replace (c0 :: old) new s = s.
Proof.
  unfold replace, has_char. induction s as [|c r IH]; [done|].
  simpl. intros [Hc Hr]%orb_false_elim. rewrite Hc. simpl.
  by rewrite (IH Hr).
Qed.

Lemma replace_LF_SP s :
  has_char LF (replace [LF] [SP] s) = false
  /\ (has_char CR s = false -> has_char CR (replace [LF] [SP] s) = false).
Proof.
  unfold replace, has_char. induction s as [|c r [IH1 IH2]]; [done|].
  simpl. destruct (ascii_eqb LF c) eqn:E; simpl.
  - split; [exact IH1|]. intros [_ Hr]%orb_false_elim. exact (IH2 Hr).
  - rewrite E. split; [exact IH1|]. intros [Hc Hr]%orb_false_elim.
    by rewrite Hc, (IH2 Hr).
Qed.

Lemma flatten_no_LF s : has_char LF (flatten s) = false.
Proof. apply has_char_strip_false, replace_LF_SP. Qed.

Lemma flatten_no_CR s :
  has_char CR s = false -> has_char CR (flatten s) = false.
Proof. intros H. by apply has_char_strip_false, replace_LF_SP. Qed.

(** ** Decimal text *)

Lemma digit_char_val d : d < 10 -> digit_val (digit_char d) = d.
Proof.
  intros H. unfold digit_val, digit_char.
  rewrite N_ascii_embedding by lia. lia.
Qed.

Lemma digit_char_isdigit d : d < 10 -> isdigit (digit_char d) = true.
Proof.
  intros H. unfold isdigit, digit_char.
  rewrite N_ascii_embedding by lia.
  apply andb_true_intro. split; apply N.leb_le; lia.
Qed.

Lemma str_of_N_fuel_digits f : forall n acc,
  exists pre, str_of_N_fuel f n acc = pre ++ acc
              /\ forallb isdigit pre = true
              /\ (f <> 0%nat -> pre <> []).
Proof.
  induction f as [|f IH]; intros n acc; simpl.
  - by exists [].
  - assert (Hd : isdigit (digit_char (n mod 10)) = true).
    { apply digit_char_isdigit. apply N.mod_lt. lia. }
    destruct (n <? 10).
    + exists [digit_char (n mod 10)]. simpl. by rewrite Hd.
    + destruct (IH (n / 10) (digit_char (n mod 10) :: acc))
        as (pre & -> & Hp & _).
      exists (pre ++ [digit_char (n mod 10)]). rewrite <- app_assoc.
      split; [done|]. split; [|by destruct pre].
      rewrite forallb_app, Hp. simpl. by rewrite Hd.
Qed.

Lemma str_of_N_digits n :
  forallb isdigit (str_of_N n) = true /\ str_of_N n <> [].
Proof.
  unfold str_of_N.
  destruct (str_of_N_fuel_digits (S (N.to_nat (N.log2 n))) n [])
    as (pre & -> & Hp & Hne).
  rewrite app_nil_r. split; [done | by apply Hne].
Qed.

Lemma str_of_N_fuel_value f : forall n acc,
  n < 2 ^ N.of_nat f ->
  fold_left (fun a c => a * 10 + digit_val c) (str_of_N_fuel f n acc) 0
  = fold_left (fun a c => a * 10 + digit_val c) acc n.
Proof.
  induction f as [|f IH]; intros n acc Hn.
  - simpl in *. by replace n with 0 by lia.
  - cbn [str_of_N_fuel].
    assert (Hm : n mod 10 < 10) by (apply N.mod_lt; lia).
    destruct (N.ltb_spec n 10) as [Hlt|Hge].
    + simpl. rewrite digit_char_val by done. by rewrite N.mod_small.
    + rewrite IH.
      * simpl. rewrite digit_char_val by done. f_equal.
        pose proof (N.div_mod n 10 ltac:(lia)). lia.
      * rewrite Nat2N.inj_succ, N.pow_succ_r' in Hn.
        apply N.Div0.div_lt_upper_bound. lia.
Qed.

(** [int(str(n))] is [n]. *)
Lemma int_of_digits_str_of_N n : int_of_digits (str_of_N n) = n.
Proof.
  unfold int_of_digits, str_of_N. rewrite str_of_N_fuel_value; [done|].
  rewrite Nat2N.inj_succ, N2Nat.id.
  destruct n as [|p]; [done|]. apply N.log2_spec. lia.
Qed.

Lemma py_int_str_of_N n : py_int (str_of_N n) = n.
Proof.
  unfold py_int. destruct (str_of_N_digits n) as [Hd _].
  rewrite (strip_digits _ Hd). apply int_of_digits_str_of_N.
Qed.

(** On a stripped string the pattern [^\d+$] accepts exactly the purely
    numeric strings. *)
Lemma re_numeric_strip x : re_numeric (strip x) = purely_numeric (strip x).
Proof.
  unfold re_numeric, purely_numeric.
  destruct (dropwhile isdigit (strip x)) as [|c r] eqn:D.
  - pose proof (takewhile_dropwhile isdigit (strip x)) as H.
    rewrite D, app_nil_r in H. rewrite H.
    apply dropwhile_none in D. by rewrite D.
  - rewrite (forallb_dropwhile_false _ _ _ _ D), andb_false_r.
    destruct r; simpl; [|apply andb_false_r].
    destruct (ascii_eqb c LF) eqn:E; [|apply andb_false_r].
    apply ascii_eqb_eq in E as ->.
    pose proof (takewhile_dropwhile isdigit (strip x)) as H. rewrite D in H.
    symmetry in H. apply strip_last in H. by rewrite isspace_LF in H.
Qed.

(** ** Tabular grammar *)

Lemma tsv_line_unit acc k ln :
  tsv_line (acc, k) ln = (acc ++ [tsv_unit k ln], k + 1).
Proof.
  unfold tsv_line, tsv_unit, tsv_fields.
  destruct (has_char TAB ln) eqn:Ht.
  - rewrite (split1_cut _ _ Ht). simpl. rewrite re_numeric_strip.
    by destruct (purely_numeric _).
  - destruct (has_char COMMA ln) eqn:Hc; [|done].
    rewrite (split1_cut _ _ Hc). simpl. rewrite re_numeric_strip.
    by destruct (purely_numeric _).
Qed.

Lemma tsv_loop lines : forall acc k,
  fold_left tsv_line lines (acc, k)
  = (acc ++ imap (fun i ln => tsv_unit (k + N.of_nat i) ln) lines,
     k + N.of_nat (length lines)).
Proof.
  induction lines as [|ln r IH]; intros acc k.
  - simpl. by rewrite app_nil_r, N.add_0_r.
  - change (fold_left tsv_line (ln :: r) (acc, k))
      with (fold_left tsv_line r (tsv_line (acc, k) ln)).
    rewrite tsv_line_unit, IH, <- app_assoc. simpl.
    rewrite N.add_0_r. f_equal; [|lia].
    do 2 f_equal. apply imap_ext. intros i x _. simpl. f_equal. lia.
Qed.


(** ** Sorting by index *)

Lemma insert_by_index_perm it l : Permutation (insert_by_index it l) (it :: l).
Proof.
  induction l as [|x r IH]; simpl; [reflexivity|].
  destruct (index x <? index it); [|reflexivity].
  rewrite IH. apply perm_swap.
Qed.

Lemma sort_by_index_perm l : Permutation (sort_by_index l) l.
Proof.
  induction l as [|x r IH]; simpl; [constructor|].
  rewrite insert_by_index_perm. by constructor.
Qed.

Lemma sort_by_index_length l : length (sort_by_index l) = length l.
Proof. apply Permutation_length, sort_by_index_perm. Qed.

Lemma insert_by_index_sorted it l :
  StronglySorted index_le l -> StronglySorted index_le (insert_by_index it l).
Proof.
  induction 1 as [|x r Hs IH Hall]; simpl.
  - repeat constructor.
  - destruct (N.ltb_spec (index x) (index it)) as [E|E].
    + constructor; [exact IH|].
      rewrite insert_by_index_perm. constructor; [|exact Hall].
      unfold index_le. lia.
    + constructor; [by constructor|].
      constructor; [unfold index_le; lia|].
      eapply Forall_impl; [exact Hall|].
      unfold index_le. intros; simpl in *. lia.
Qed.

Lemma sort_by_index_sorted l : StronglySorted index_le (sort_by_index l).
Proof.
  induction l; simpl; [constructor|]. by apply insert_by_index_sorted.
Qed.

Lemma insert_by_index_stable k it l :
  List.filter (fun x => index x =? k) (insert_by_index it l)
  = List.filter (fun x => index x =? k) (it :: l).
Proof.
  induction l as [|x r IH]; [done|]. cbn [insert_by_index].
  destruct (N.ltb_spec (index x) (index it)) as [E|E]; [|done].
  cbn [List.filter] in *. rewrite IH.
  destruct (N.eqb_spec (index x) k), (N.eqb_spec (index it) k); try done. lia.
Qed.

(** The sort is stable: units of equal index keep their order, as with
    [list.sort] and [sorted]. *)
Lemma sort_by_index_stable k l :
  List.filter (fun x => index x =? k) (sort_by_index l)
  = List.filter (fun x => index x =? k) l.
Proof.
  induction l as [|x r IH]; [done|].
  change (sort_by_index (x :: r)) with (insert_by_index x (sort_by_index r)).
  rewrite insert_by_index_stable. cbn [List.filter]. by rewrite IH.
Qed.

(** ** SRT grammar *)







Lemma parse_srt_loop text :
  parse_srt text = fold_left srt_block (srt_blocks text) [].
Proof.
  unfold parse_srt, srt_blocks. by destruct (normalize text).
Qed.







(** ** Reply decoding *)

Lemma reply_line_entry m ln :
  reply_line m ln = match reply_entry ln with
                    | Some (i, t) => <[i := t]> m
                    | None => m
                    end.
Proof.
  unfold reply_line, reply_entry.
  destruct (strip ln) as [|c r]; [done|]. simpl is_empty. cbv iota.
  destruct (re_reply_line (c :: r)) as [[g1 g2]|]; done.
Qed.





Lemma reply_line_strip m a b :
  strip a = strip b -> reply_line m a = reply_line m b.
Proof. intros H. unfold reply_line. by rewrite H. Qed.

Lemma reply_line_blank m ln : strip ln = [] -> reply_line m ln = m.
Proof. intros H. unfold reply_line. by rewrite H. Qed.

Lemma reply_loop_lstrip t : forall m,
  fold_left reply_line (split LF (lstrip t)) m
  = fold_left reply_line (split LF t) m.
Proof.
  unfold lstrip. induction t as [|c r IH]; intros m; [done|]. simpl.
  destruct (isspace c) eqn:Hc; [|done]. rewrite IH.
  destruct (ascii_eqb c LF); [done|].
  pose proof (split_nonempty LF r) as Hne.
  destruct (split LF r) as [|h tl]; [done|]. simpl.
  by rewrite (reply_line_strip m (c :: h) h (strip_space_cons _ _ Hc)).
Qed.

Lemma reply_loop_space_snoc x c m :
  isspace c = true ->
  fold_left reply_line (split LF (x ++ [c])) m
  = fold_left reply_line (split LF x) m.
Proof.
  intros Hc. destruct (split_snoc LF x c) as (pre & lst & -> & ->).
  destruct (ascii_eqb c LF); rewrite !fold_left_app; simpl.
  - by rewrite (reply_line_blank _ []).
  - by rewrite (reply_line_strip _ (lst ++ [c]) lst (strip_space_snoc _ _ Hc)).
Qed.

Lemma reply_loop_rstrip t m :
  fold_left reply_line (split LF (rstrip t)) m
  = fold_left reply_line (split LF t) m.
Proof.
  unfold rstrip. rewrite <- (rev_involutive t) at 2.
  induction (rev t) as [|c u IH]; [done|]. simpl.
  destruct (isspace c) eqn:Hc; [|done].
  by rewrite IH, reply_loop_space_snoc.
Qed.

(** Stripping the whole reply changes nothing for the loop over its
    lines, which strips each of them and passes the blank ones. *)
Lemma reply_loop_strip t m :
  fold_left reply_line (split LF (strip t)) m
  = fold_left reply_line (split LF t) m.
Proof. unfold strip. by rewrite reply_loop_rstrip, reply_loop_lstrip. Qed.

(** ** Codec round trip *)

(** The stripped echo line: the digits, the colon and, unless the
    flattened source is empty, a space and the flattened source. *)
Lemma strip_echo_line u :
  strip (echo_line u)
  = str_of_N (index u) ++ COLON :: after_colon (flatten (src u)).
Proof.
  unfold echo_line, after_colon.
  destruct (str_of_N_digits (index u)) as [Hd Hne].
  destruct (str_of_N (index u)) as [|d0 D] eqn:ED; [done|].
  assert (H0 : isspace d0 = false).
  { apply digit_not_space. simpl in Hd. by apply andb_prop in Hd as [? _]. }
  unfold strip. cbn [Datatypes.app]. rewrite (lstrip_fixed _ _ H0).
  destruct (flatten (src u)) as [|f0 F] eqn:EF.
  - replace (d0 :: D ++ [COLON; SP]) with (((d0 :: D) ++ [COLON]) ++ [SP])
      by (by rewrite <- app_assoc).
    rewrite rstrip_space by done. by rewrite rstrip_fixed.
  - destruct (exists_last (l := f0 :: F) ltac:(done)) as (y & c & Hy).
    assert (Hc : isspace c = false).
    { unfold flatten in EF. rewrite Hy in EF. by eapply strip_last. }
    rewrite Hy.
    replace (d0 :: D ++ COLON :: SP :: y ++ [c])
      with (((d0 :: D) ++ COLON :: SP :: y) ++ [c])
      by (by rewrite <- app_assoc).
    by rewrite rstrip_fixed.
Qed.

(** The decoder reads an echo line as the unit's index and flattened
    source. *)
Lemma echo_line_entry u :
  reply_entry (echo_line u) = Some (index u, flatten (src u)).
Proof.
  unfold reply_entry, re_reply_line. rewrite strip_echo_line.
  destruct (str_of_N_digits (index u)) as [Hd Hne].
  set (F := flatten (src u)).
  set (rest := after_colon F).
  destruct (takewhile_app_stop isdigit (str_of_N (index u)) COLON rest Hd
                               eq_refl) as [-> ->].
  assert (He : is_empty (str_of_N (index u)) = false)
    by (by destruct (str_of_N (index u))).
  rewrite He.
  change (dropwhile isspace (COLON :: rest)) with (COLON :: rest).
  change (ascii_eqb COLON COLON) with true. cbv iota.
  assert (Hrest : dropwhile isspace rest = F).
  { unfold rest, after_colon. destruct F as [|f0 F'] eqn:EF; [done|].
    assert (Hf : isspace f0 = false) by (by eapply strip_first).
    simpl. by rewrite Hf. }
  rewrite Hrest.
  destruct (takewhile_id _ F (no_char_forallb LF F (flatten_no_LF _)))
    as [-> ->].
  cbn [dollar]. change (ascii_eqb COLON COLON) with true. cbv iota.
  rewrite py_int_str_of_N.
  unfold F, flatten. by rewrite strip_strip.
Qed.

Lemma echo_line_chars c u :
  isdigit c = false -> ascii_eqb c COLON = false -> ascii_eqb c SP = false ->
  has_char c (flatten (src u)) = false ->
  has_char c (echo_line u) = false.
Proof.
  intros Hd Hcolon Hsp Hf. unfold echo_line.
  rewrite !has_char_app, Hf,
    (has_char_digits c _ Hd (proj1 (str_of_N_digits _))).
  simpl. by rewrite Hcolon, Hsp.
Qed.

Lemma payload_line_no_LF u : has_char LF (payload_line u) = false.
Proof.
  unfold payload_line.
  rewrite !has_char_app, flatten_no_LF,
    (has_char_digits LF _ eq_refl (proj1 (str_of_N_digits _))).
  done.
Qed.

Lemma split_payload_header rest :
  split LF (payload_header ++ rest) = payload_header_lines ++ split LF rest.
Proof. by_evaluation. Qed.

(** The decoder on the echo of a batch: the loop runs over the echo
    lines themselves. *)
Lemma parse_echo_reply units :
  Forall (fun u => has_char CR (src u) = false) units ->
  parse_model_output (echo_reply units)
  = fold_left reply_line (map echo_line units) ∅.
Proof.
  intros Hcr. unfold parse_model_output, normalize.
  assert (Hno : has_char CR (echo_reply units) = false).
  { apply has_char_join; [done|]. apply Forall_map.
    eapply Forall_impl; [exact Hcr|]. intros u Hu.
    apply echo_line_chars; try done. by apply flatten_no_CR. }
  rewrite (replace_absent CR [LF] [LF] _ Hno),
    (replace_absent CR [] [LF] _ Hno).
  rewrite reply_loop_strip. unfold echo_reply.
  destruct units as [|u units]; [done|].
  rewrite split_join; [done | done |].
  apply Forall_map, Forall_forall. intros u' _.
  apply echo_line_chars; try done. apply flatten_no_LF.
Qed.




(** ** Merging *)

Lemma idx_to_item_snoc l x :
  idx_to_item (l ++ [x]) = <[index x := length l]> (idx_to_item l).
Proof.
  unfold idx_to_item. rewrite imap_app, fold_left_app. simpl.
  by rewrite Nat.add_0_r.
Qed.

Lemma idx_to_item_some l : forall i pos,
  idx_to_item l !! i = Some pos ->
  exists it, l !! pos = Some it /\ index it = i.
Proof.
  induction l as [|x l IH] using rev_ind; intros i pos.
  - unfold idx_to_item. simpl. by rewrite lookup_empty.
  - rewrite idx_to_item_snoc.
    destruct (decide (index x = i)) as [<-|Hne].
    + rewrite lookup_insert_eq. intros [= <-]. exists x.
      by rewrite lookup_app_r, Nat.sub_diag.
    + rewrite lookup_insert_ne by done. intros (it & Hit & Hi)%IH.
      exists it. split; [|done]. by apply lookup_app_l_Some.
Qed.

Lemma idx_to_item_none l : forall i,
  idx_to_item l !! i = None ->
  forall pos it, l !! pos = Some it -> index it <> i.
Proof.
  induction l as [|x l IH] using rev_ind; intros i.
  - intros _ pos it H. by rewrite lookup_nil in H.
  - rewrite idx_to_item_snoc.
    destruct (decide (index x = i)) as [<-|Hne].
    + by rewrite lookup_insert_eq.
    + rewrite lookup_insert_ne by done. intros Hn pos it Hl.
      apply lookup_app_Some in Hl as [Hl|[_ Hl]]; [by eapply IH|].
      destruct (pos - length l)%nat; simpl in Hl;
        [|by rewrite lookup_nil in Hl].
      by inversion Hl; subst.
Qed.

Lemma idx_to_item_indices l1 : forall l2,
  map index l1 = map index l2 -> idx_to_item l1 = idx_to_item l2.
Proof.
  induction l1 as [|x l1 IH] using rev_ind; intros l2 H.
  - destruct l2; [done | discriminate].
  - destruct l2 as [|y l2 _] using rev_ind.
    { rewrite map_app in H. simpl in H. by destruct (map index l1). }
    rewrite !map_app in H. simpl in H. apply app_inj_tail in H as [Hl Hx].
    rewrite !idx_to_item_snoc, (IH _ Hl), Hx.
    by rewrite <- (length_map index l1), Hl, length_map.
Qed.

Lemma merged_item_index refs m pos it :
  index (merged_item refs m pos it) = index it.
Proof.
  unfold merged_item. destruct (m !! index it); [|done]. by case_decide.
Qed.

(** The first loop of [_apply_translation_mapping], item by item. *)
Lemma apply_to_items_spec (m : gmap N str) (its : list item) :
  apply_to_items m its = imap (merged_item (idx_to_item its) m) its.
Proof.
  unfold apply_to_items. set (refs := idx_to_item its).
  apply (map_fold_weak_ind (fun r m' => r = imap (merged_item refs m') its)).
  - apply list_eq. intros p. rewrite list_lookup_imap.
    destruct (its !! p); [|done]. simpl. unfold merged_item.
    by rewrite lookup_empty.
  - intros i x m' r Hi ->. destruct (refs !! i) as [pos|] eqn:Hr.
    + destruct (idx_to_item_some _ _ _ Hr) as (it0 & Hit0 & Hidx).
      apply list_eq. intros p. rewrite list_lookup_alter, !list_lookup_imap.
      destruct (decide (pos = p)) as [<-|Hp].
      * rewrite Hit0. simpl. f_equal. unfold merged_item.
        rewrite Hidx, Hi, lookup_insert_eq, Hr. by rewrite decide_True.
      * destruct (its !! p) as [it|]; [|done]. simpl. f_equal.
        unfold merged_item. destruct (decide (index it = i)) as [->|Hn].
        -- rewrite Hi, lookup_insert_eq, Hr. rewrite decide_False; [done|].
           by intros [= ?].
        -- by rewrite lookup_insert_ne.
    + apply imap_ext. intros p it Hit. unfold merged_item.
      rewrite lookup_insert_ne; [done|].
      intros E. exact (idx_to_item_none _ _ Hr p it Hit (eq_sym E)).
Qed.

Lemma apply_to_items_indices m its :
  map index (apply_to_items m its) = map index its.
Proof.
  rewrite apply_to_items_spec. apply list_eq. intros p.
  rewrite !list_lookup_fmap, list_lookup_imap.
  destruct (its !! p); [|done]. simpl. by rewrite merged_item_index.
Qed.

Lemma merged_item_comm refs (m1 m2 : gmap N str) pos it :
  dom m1 ## dom m2 ->
  merged_item refs m1 pos (merged_item refs m2 pos it)
  = merged_item refs m2 pos (merged_item refs m1 pos it).
Proof.
  intros Hd.
  destruct (m1 !! index it) as [t1|] eqn:E1,
           (m2 !! index it) as [t2|] eqn:E2.
  - exfalso. apply (Hd (index it)); apply elem_of_dom; eauto.
  - unfold merged_item. rewrite E1, E2.
    case_decide; simpl; by rewrite ?E1, ?E2.
  - unfold merged_item. rewrite E1, E2.
    case_decide; simpl; by rewrite ?E1, ?E2.
  - unfold merged_item. by rewrite E1, E2, E1.
Qed.

Lemma apply_to_items_comm (m1 m2 : gmap N str) its :
  dom m1 ## dom m2 ->
  apply_to_items m1 (apply_to_items m2 its)
  = apply_to_items m2 (apply_to_items m1 its).
Proof.
  intros Hd.
  rewrite (apply_to_items_spec m1 (apply_to_items m2 its)).
  rewrite (apply_to_items_spec m2 (apply_to_items m1 its)).
  rewrite (idx_to_item_indices (apply_to_items m2 its) its)
    by apply apply_to_items_indices.
  rewrite (idx_to_item_indices (apply_to_items m1 its) its)
    by apply apply_to_items_indices.
  rewrite !apply_to_items_spec.
  apply list_eq. intros p. rewrite !list_lookup_imap.
  destruct (its !! p); [|done]. simpl. f_equal. by apply merged_item_comm.
Qed.

Lemma apply_to_rows_comm (m1 m2 : gmap N str) rows :
  dom m1 ## dom m2 ->
  apply_to_rows m1 (apply_to_rows m2 rows)
  = apply_to_rows m2 (apply_to_rows m1 rows).
Proof.
  intros Hd. unfold apply_to_rows. rewrite !map_map. apply map_ext. intros r.
  destruct (m1 !! row_index r) as [t1|] eqn:E1,
           (m2 !! row_index r) as [t2|] eqn:E2;
    simpl; rewrite ?E1, ?E2; try done.
  exfalso. apply (Hd (row_index r)); apply elem_of_dom; eauto.
Qed.

Lemma apply_translation_mapping_comm (m1 m2 : gmap N str) a :
  dom m1 ## dom m2 ->
  _apply_translation_mapping m1 (_apply_translation_mapping m2 a)
  = _apply_translation_mapping m2 (_apply_translation_mapping m1 a).
Proof.
  intros Hd. unfold _apply_translation_mapping. simpl.
  by rewrite (apply_to_items_comm _ _ _ Hd), (apply_to_rows_comm _ _ _ Hd).
Qed.

Lemma pairwise_disjoint_perm ms ms' :
  Permutation ms ms' -> pairwise_disjoint ms -> pairwise_disjoint ms'.
Proof.
  induction 1 as [|m l l' Hp IH|x y l|l l' l'' _ IH1 _ IH2]; simpl.
  - done.
  - intros [Hm Hl]. split; [by rewrite <- Hp | auto].
  - intros [Hy [Hx Hl]]. inversion Hy as [|? ? Hyx Hyl]; subst.
    split; [|done]. constructor; [|done]. by symmetry.
  - auto.
Qed.

(** C7: merges of mappings with pairwise disjoint keys give the same
    table and the same items in whatever order they are applied. *)
Theorem C7_merge_commutes (ms ms' : list (gmap N str)) (a : app) :
  pairwise_disjoint ms -> Permutation ms ms' ->
  merge_all ms a = merge_all ms' a.
Proof.
  intros Hd Hp. revert a Hd. unfold merge_all.
  induction Hp as [|m l l' Hp IH|x y l|l l' l'' Hp1 IH1 Hp2 IH2];
    intros a Hd; simpl in *.
  - done.
  - apply IH, Hd.
  - destruct Hd as [Hy _]. inversion Hy as [|? ? Hyx _]; subst.
    by rewrite (apply_translation_mapping_comm x y).
  - rewrite IH1 by done. apply IH2. by eapply pairwise_disjoint_perm.
Qed.

(** An instance of C7: three mappings, applied in two orders to a table
    in which index 2 occurs twice. *)
Lemma C7_merge_commutes_witness :
  pairwise_disjoint sample_mappings
  /\ Permutation sample_mappings (rev sample_mappings)
  /\ merge_all sample_mappings sample_table
     = merge_all (rev sample_mappings) sample_table
  /\ map tr (items (merge_all sample_mappings sample_table))
     = [lit "Xin chao"; []; lit "Lai"; lit "The gioi"].
Proof.
  assert (Hd : pairwise_disjoint sample_mappings).
  { simpl.
    repeat match goal with
           | |- _ /\ _ => split
           | |- Forall _ (_ :: _) => constructor
           | |- Forall _ [] => constructor
           | |- True => exact I
           | |- _ => by_decision
           end. }
  assert (Hp : Permutation sample_mappings (rev sample_mappings))
    by apply Permutation_rev.
  split; [exact Hd|]. split; [exact Hp|].
  split; [exact (C7_merge_commutes _ _ sample_table Hd Hp)|].
  by_evaluation.
Defined.

(** ** Batch partitioning *)

Lemma chunks_concat (l : list item) (st m : nat) :
  concat (map (fun start => slice l start st)
              (map (fun k => (k * st)%nat) (seq 0 m)))
  = firstn (m * st) l.
Proof.
  induction m as [|m IH]; [done|].
  rewrite seq_S, !map_app, concat_app, IH. simpl. rewrite app_nil_r.
  unfold slice. rewrite take_take_drop. f_equal. lia.
Qed.

Lemma ceil_div_bounds (n st : nat) :
  (0 < st)%nat -> (0 < n)%nat ->
  let m := ((n + st - 1) / st)%nat in
  (n <= m * st /\ (m - 1) * st < n /\ 0 < m)%nat.
Proof.
  intros Hst Hn m.
  pose proof (Nat.div_mod (n + st - 1) st ltac:(lia)) as Hd.
  pose proof (Nat.mod_upper_bound (n + st - 1) st ltac:(lia)) as Hm.
  fold m in Hd. nia.
Qed.

Lemma slice_length (l : list item) start st :
  length (slice l start st) = Nat.min st (length l - start).
Proof. unfold slice. by rewrite length_take, length_drop. Qed.

Lemma make_batches_pos (l : list item) (p : positive) :
  make_batches l (Zpos p)
  = Some (map (fun k => slice l (k * Pos.to_nat p) (Pos.to_nat p))
              (seq 0 ((length l + Pos.to_nat p - 1) / Pos.to_nat p)%nat)).
Proof. unfold make_batches, py_range_step. by rewrite map_map. Qed.

Lemma batches_lengths (l : list item) (st m : nat) :
  map length (map (fun k => slice l (k * st) st) (seq 0 m))
  = map (fun k => Nat.min st (length l - k * st)) (seq 0 m).
Proof. rewrite map_map. apply map_ext. intros k. apply slice_length. Qed.

(** C6: the pending units are sorted ascending by index and cut into
    consecutive slices of [batch_size] units, the last one shorter but not
    empty; the slices in order make up the sorted list; 17 units in
    batches of 5 give the sizes 5, 5, 5, 2. *)
Theorem C6_batch_partition (pending : list item) (size : Z) :
  pending <> [] -> (0 < size)%Z ->
  let sorted := sort_by_index pending in
  exists batches,
    make_batches sorted size = Some batches
    /\ StronglySorted index_le sorted
    /\ Permutation sorted pending
    /\ (forall i b, batches !! i = Some b ->
          b = slice sorted (i * Z.to_nat size) (Z.to_nat size))
    /\ (forall i b, batches !! i = Some b -> (S i < length batches)%nat ->
          length b = Z.to_nat size)
    /\ (exists b, last batches = Some b
                  /\ (0 < length b <= Z.to_nat size)%nat)
    /\ concat batches = sorted
    /\ (length pending = 17%nat -> size = 5%Z ->
        map length batches = [5; 5; 5; 2]%nat).
Proof.
  intros Hne Hsize sorted.
  destruct size as [|p|p]; try lia.
  set (st := Pos.to_nat p). set (n := length sorted).
  assert (Hst : (0 < st)%nat) by (unfold st; lia).
  assert (Hn : (0 < n)%nat).
  { unfold n, sorted. rewrite sort_by_index_length.
    destruct pending; [done | simpl; lia]. }
  destruct (ceil_div_bounds n st Hst Hn) as (Hup & Hlow & Hm).
  set (m := ((n + st - 1) / st)%nat) in *.
  eexists. split; [apply make_batches_pos|].
  fold st n m. change (Z.to_nat (Z.pos p)) with st.
  split; [apply sort_by_index_sorted|].
  split; [apply sort_by_index_perm|].
  assert (Hlook : forall i b,
    map (fun k => slice sorted (k * st) st) (seq 0 m) !! i = Some b ->
    b = slice sorted (i * st) st /\ (i < m)%nat).
  { intros i b H. rewrite list_lookup_fmap in H.
    destruct (seq 0 m !! i) as [k|] eqn:Hk; [|done].
    apply lookup_seq in Hk as [-> Hi]. simpl in H. by inversion H. }
  split; [intros i b H; by apply Hlook in H as [? _]|].
  split.
  { intros i b H Hi. apply Hlook in H as [-> _].
    rewrite length_map, length_seq in Hi.
    rewrite slice_length. fold n. nia. }
  split.
  { exists (slice sorted ((m - 1) * st) st). split.
    - destruct m as [|m']; [lia|].
      rewrite seq_S, map_app. simpl. rewrite last_snoc.
      do 2 f_equal. lia.
    - rewrite slice_length. fold n. lia. }
  split.
  { rewrite <- (map_map (fun k => (k * st)%nat) (fun s => slice sorted s st)).
    rewrite chunks_concat. apply take_ge. fold n. lia. }
  intros H17 H5. inversion H5; subst p.
  rewrite batches_lengths. unfold m. fold n.
  assert (n = 17%nat) as ->
    by (unfold n, sorted; by rewrite sort_by_index_length).
  reflexivity.
Qed.

(** An instance of C6: seventeen units in batches of five. *)
Lemma C6_batch_partition_witness :
  sample_pending <> [] /\ (0 < 5)%Z /\
  exists batches,
    make_batches (sort_by_index sample_pending) 5 = Some batches
    /\ StronglySorted index_le (sort_by_index sample_pending)
    /\ Permutation (sort_by_index sample_pending) sample_pending
    /\ (forall i b, batches !! i = Some b ->
          b = slice (sort_by_index sample_pending) (i * Z.to_nat 5)
                    (Z.to_nat 5))
    /\ (forall i b, batches !! i = Some b -> (S i < length batches)%nat ->
          length b = Z.to_nat 5)
    /\ (exists b, last batches = Some b
                  /\ (0 < length b <= Z.to_nat 5)%nat)
    /\ concat batches = sort_by_index sample_pending
    /\ (length sample_pending = 17%nat -> 5%Z = 5%Z ->
        map length batches = [5; 5; 5; 2]%nat).
Proof.
  split; [done|]. split; [lia|].
  apply (C6_batch_partition sample_pending 5); [done | lia].
Defined.

(** ** The run driver *)

Lemma select_pending_spec its :
  select_pending its = List.filter (fun it => whitespace_only (tr it)) its.
Proof.
  unfold select_pending. induction its as [|it r IH]; simpl; [done|].
  by rewrite strip_empty, IH.
Qed.

Lemma select_pending_none its :
  Forall (fun it => whitespace_only (tr it) = false) its ->
  select_pending its = [].
Proof.
  rewrite select_pending_spec.
  induction 1 as [|it r H _ IH]; simpl; [done|]. by rewrite H.
Qed.

Lemma queue_app t1 t2 : queue (t1 ++ t2) = queue t1 ++ queue t2.
Proof. apply omap_app. Qed.

Lemma updates_app q1 q2 : updates (q1 ++ q2) = updates q1 ++ updates q2.
Proof. apply omap_app. Qed.

Lemma queue_submit bs : queue (map Submit bs) = [].
Proof. induction bs; simpl; done. Qed.

Lemma progress_action_open a : progress_action a -> open_action a.
Proof. by intros (ev & -> & H). Qed.

Lemma queue_open t :
  Forall open_action t -> Forall (fun ev => is_terminal ev = false) (queue t).
Proof.
  induction 1 as [|a t Ha _ IH]; simpl; [constructor|].
  destruct a; simpl; [done | by constructor].
Qed.

Lemma intro_actions_progress c its :
  Forall progress_action (intro_actions c its).
Proof.
  unfold intro_actions. apply Forall_app. split.
  - destruct (contains _ _); repeat constructor. by eexists.
  - repeat constructor; by eexists.
Qed.

Lemma updates_intro c its : updates (queue (intro_actions c its)) = [].
Proof. unfold intro_actions. by destruct (contains _ _). Qed.

(** The loop over the completed futures, for a fixed configuration,
    environment and number of batches. *)
Section Loop.
Context (c : config) (e : env) (tb : nat).

Lemma merged_actions_progress n res :
  Forall progress_action (merged_actions c tb n res).
Proof.
  unfold merged_actions. repeat (apply Forall_app; split).
  - repeat constructor; by eexists.
  - destruct (res_range res) as [[a b]|]; repeat constructor; by eexists.
  - repeat constructor; by eexists.
Qed.

Lemma updates_merged_actions n res :
  updates (queue (merged_actions c tb n res)) = [res_mapping res].
Proof. unfold merged_actions. by destruct (res_range res) as [[a b]|]. Qed.

Lemma seen_progress k :
  Forall progress_action
         (if stop_in_loop e k then [Put (Status msg_stopping)] else []).
Proof. destruct (stop_in_loop e k); repeat constructor. by eexists. Qed.

Lemma consume_cons k n fut rest :
  consume c e tb k n (fut :: rest)
  = let seen := if stop_in_loop e k then [Put (Status msg_stopping)] else [] in
    match fut with
    | inl exc => (seen, Some (lit "Lỗi batch: " ++ exc))
    | inr res =>
        if res_skipped res then
          (seen ++ fst (consume c e tb (S k) n rest),
           snd (consume c e tb (S k) n rest))
        else if bool_decide (res_mapping res = ∅) then
          (seen ++ [Put (Log (msg_bad_format (res_range res)));
                    Put (Log (default [] (res_raw res)))],
           Some msg_unparsable)
        else
          (seen ++ merged_actions c tb (S n) res
                ++ fst (consume c e tb (S k) (S n) rest),
           snd (consume c e tb (S k) (S n) rest))
    end.
Proof.
  cbn [consume]. destruct fut as [exc|res]; [done|].
  destruct (res_skipped res); [by destruct (consume c e tb (S k) n rest)|].
  case_bool_decide; [done|]. by destruct (consume c e tb (S k) (S n) rest).
Qed.

(** The loop puts progress events only. *)
Lemma consume_progress futs : forall k n,
  Forall progress_action (fst (consume c e tb k n futs)).
Proof.
  induction futs as [|fut rest IH]; intros k n; [constructor|].
  rewrite consume_cons. cbv zeta.
  pose proof (seen_progress k) as Hs.
  destruct fut as [exc|res]; [done|].
  destruct (res_skipped res); [by apply Forall_app|].
  case_bool_decide; cbn [fst].
  - apply Forall_app. split; [done|]. repeat constructor; by eexists.
  - apply Forall_app. split; [done|]. apply Forall_app. split; [|done].
    apply merged_actions_progress.
Qed.

(** Over futures that are all passed, the loop ends normally and puts
    one update per decoded batch, in completion order. *)
Lemma consume_ok futs : forall k n,
  Forall future_ok futs ->
  snd (consume c e tb k n futs) = None
  /\ updates (queue (fst (consume c e tb k n futs))) = merged_mappings futs.
Proof.
  induction futs as [|fut rest IH]; intros k n Hall; [done|].
  rewrite consume_cons. cbv zeta.
  inversion Hall as [|? ? Hf Hrest]; subst.
  destruct fut as [exc|res]; [done|]. simpl in Hf.
  assert (Hseen : updates (queue (if stop_in_loop e k
                                  then [Put (Status msg_stopping)]
                                  else [])) = [])
    by (by destruct (stop_in_loop e k)).
  unfold merged_mappings. cbn [omap list_omap]. fold merged_mappings.
  destruct (res_skipped res) eqn:Hsk; cbn [fst snd].
  - destruct (IH (S k) n Hrest) as [-> Hu].
    by rewrite queue_app, updates_app, Hseen, Hu.
  - destruct Hf as [?|Hne]; [done|]. rewrite bool_decide_false by done.
    cbn [fst snd]. destruct (IH (S k) (S n) Hrest) as [-> Hu].
    by rewrite !queue_app, !updates_app, Hseen, Hu, updates_merged_actions.
Qed.

(** The loop over [before ++ rest] when [before] is passed: it goes on
    with [rest] at some later iteration and counter. *)
Lemma consume_app before rest : forall k n,
  Forall future_ok before ->
  exists k' n',
    consume c e tb k n (before ++ rest)
    = (fst (consume c e tb k n before) ++ fst (consume c e tb k' n' rest),
       snd (consume c e tb k' n' rest)).
Proof.
  induction before as [|fut before IH]; intros k n Hall.
  - exists k, n. simpl. by destruct (consume c e tb k n rest).
  - rewrite <- app_comm_cons, !consume_cons. cbv zeta.
    inversion Hall as [|? ? Hf Hrest]; subst.
    destruct fut as [exc|res]; [done|]. simpl in Hf.
    destruct (res_skipped res) eqn:Hsk.
    + destruct (IH (S k) n Hrest) as (k' & n' & ->).
      exists k', n'. cbn [fst snd]. by rewrite <- app_assoc.
    + destruct Hf as [?|Hne]; [done|]. rewrite bool_decide_false by done.
      destruct (IH (S k) (S n) Hrest) as (k' & n' & ->).
      exists k', n'. cbn [fst snd]. by rewrite <- !app_assoc.
Qed.

End Loop.

Lemma omap_lookup_seq {A B} (g : A -> B) (l : list A) : forall pre,
  omap (fun i => g <$> (pre ++ l) !! i) (seq (length pre) (length l)) = map g l.
Proof.
  induction l as [|x l IH]; intros pre; [done|].
  cbn [Datatypes.length seq omap list_omap].
  rewrite list_lookup_middle by done. cbn [fmap option_fmap option_map map].
  f_equal. specialize (IH (pre ++ [x])).
  rewrite <- app_assoc, length_app in IH.
  cbn [Datatypes.app Datatypes.length] in IH.
  by rewrite Nat.add_1_r in IH.
Qed.

(** When [as_completed] yields every future once, the completed futures
    are the outcomes of all the batches, in some order. *)
Lemma completed_futures_perm c e batches :
  Permutation (completion e) (seq 0 (length batches)) ->
  Permutation (completed_futures c e batches)
              (map snd (run_batches c e batches)).
Proof.
  intros Hp. unfold completed_futures. rewrite Hp.
  pose proof (omap_lookup_seq snd (run_batches c e batches) []) as H.
  cbn [Datatypes.app Datatypes.length] in H.
  unfold run_batches in H at 2. rewrite length_imap in H. by rewrite H.
Qed.

(** The run once the batches are made: the start-of-run events, the
    submission of every batch, the loop, and the ending. *)
Lemma translate_worker_loop c e its batches :
  select_pending its <> [] ->
  make_batches (sort_by_index (select_pending its)) (batch_size c)
  = Some batches ->
  (0 < concurrency c)%Z ->
  let loop :=
    consume c e (length batches) 0 0 (completed_futures c e batches) in
  trace (_translate_worker c e its)
  = (intro_actions c its ++ [Put (Log (msg_total_batches (length batches)))]
     ++ map Submit batches)
    ++ fst loop
    ++ match snd loop with
       | Some msg => [Put (Error msg)]
       | None => closing_actions e
       end.
Proof.
  intros Hne Hb Hc loop. unfold _translate_worker.
  destruct (select_pending its) as [|it0 rest] eqn:E; [done|].
  rewrite Hb. replace (concurrency c <=? 0)%Z with false by lia.
  fold loop. destruct loop as [acts [msg|]]; unfold raise; simpl;
    by rewrite <- !app_assoc.
Qed.

Lemma closing_actions_end e :
  exists t, closing_actions e = t ++ [Put Done] /\ Forall progress_action t.
Proof.
  unfold closing_actions. eexists. split; [reflexivity|].
  destruct (stop_at_end e); repeat constructor; by eexists.
Qed.

Lemma terminal_last (t : list action) (ev : event) :
  Forall open_action t -> is_terminal ev = true ->
  exists q, queue (t ++ [Put ev]) = q ++ [ev]
            /\ Forall (fun ev' => is_terminal ev' = false) q.
Proof.
  intros Ht Hev. exists (queue t). rewrite queue_app. split; [done|].
  by apply queue_open.
Qed.

(** Every run ends with a terminal event and puts none before. *)
Lemma translate_worker_end c e its :
  exists t ev,
    trace (_translate_worker c e its) = t ++ [Put ev]
    /\ Forall open_action t /\ is_terminal ev = true.
Proof.
  pose proof (intro_actions_progress c its) as Hintro.
  assert (Hopen : Forall open_action (intro_actions c its))
    by (eapply Forall_impl; [exact Hintro | apply progress_action_open]).
  unfold _translate_worker.
  destruct (select_pending its) as [|it0 rest] eqn:E.
  { exists (intro_actions c its ++ [Put (Log msg_nothing)]), Done.
    split; [by rewrite <- app_assoc|]. split; [|done].
    apply Forall_app. split; [exact Hopen | by repeat constructor]. }
  destruct (make_batches _ _) as [batches|];
    [|by eexists _, _; split; [reflexivity|]].
  assert (Hopen' : Forall open_action
            (intro_actions c its
             ++ [Put (Log (msg_total_batches (length batches)))])).
  { apply Forall_app. split; [exact Hopen | by repeat constructor]. }
  destruct (concurrency c <=? 0)%Z;
    [by eexists _, _; split; [reflexivity|]|].
  pose proof (consume_progress c e (length batches)
                (completed_futures c e batches) 0 0) as Hloop.
  assert (Hloop' : Forall open_action
            (fst (consume c e (length batches) 0 0
                          (completed_futures c e batches))))
    by (eapply Forall_impl; [exact Hloop | apply progress_action_open]).
  assert (Hsub : Forall open_action (map Submit batches))
    by (by apply Forall_map, Forall_true).
  destruct (consume _ _ _ _ _ _) as [acts [msg|]]; cbn [fst] in *.
  - eexists _, _. split; [reflexivity|]. split; [|done].
    apply Forall_app. split; [exact Hopen'|].
    apply Forall_app. split; [exact Hsub | exact Hloop'].
  - destruct (closing_actions_end e) as (t & -> & Ht).
    exists ((intro_actions c its
             ++ [Put (Log (msg_total_batches (length batches)))])
            ++ map Submit batches ++ acts ++ t), Done.
    split; [by rewrite <- !app_assoc|]. split; [|done].
    apply Forall_app. split; [exact Hopen'|].
    apply Forall_app. split; [exact Hsub|].
    apply Forall_app. split; [exact Hloop'|].
    eapply Forall_impl; [exact Ht | apply progress_action_open].
Qed.

Lemma poll_queue_app q1 q2 a :
  _poll_queue (q1 ++ q2) a = _poll_queue q2 (_poll_queue q1 a).
Proof. apply fold_left_app. Qed.

(** Polling changes the items and the rows through the update events
    only. *)
Lemma poll_queue_merges q : forall a,
  items (_poll_queue q a) = items (merge_all (updates q) a)
  /\ tree (_poll_queue q a) = tree (merge_all (updates q) a).
Proof.
  assert (Hm : forall ms a b, items a = items b -> tree a = tree b ->
             items (merge_all ms a) = items (merge_all ms b)
             /\ tree (merge_all ms a) = tree (merge_all ms b)).
  { induction ms as [|m ms IH]; intros a b Hi Ht; [done|].
    apply IH; simpl; by rewrite ?Hi, ?Ht. }
  induction q as [|ev q IH]; intros a; [done|].
  change (_poll_queue (ev :: q) a) with (_poll_queue q (poll_event a ev)).
  destruct (IH (poll_event a ev)) as [-> ->].
  destruct ev; simpl; by apply Hm.
Qed.

(** C3, as the code has it: the pending units are exactly the units whose
    translation is empty or white space, in table order; on a table whose
    units all carry a translation the run submits no batch and makes no
    remote call, and after the start-of-run status and log lines it puts
    only the nothing-to-do log line and the done event. *)
Theorem C3_idle_run_on_translated_set :
  (forall its,
     select_pending its = List.filter (fun it => whitespace_only (tr it)) its)
  /\ (forall c e its,
        Forall (fun it => whitespace_only (tr it) = false) its ->
        let r := _translate_worker c e its in
        calls r = []
        /\ Forall (fun a => exists ev, a = Put ev) (trace r)
        /\ trace r = intro_actions c its ++ [Put (Log msg_nothing); Put Done]).
Proof.
  split; [exact select_pending_spec|].
  intros c e its Hall r. subst r. unfold _translate_worker.
  rewrite (select_pending_none its Hall). simpl.
  split; [done|]. split; [|done].
  apply Forall_app. split.
  - unfold intro_actions. destruct (contains _ _); repeat constructor; eauto.
  - repeat constructor; eauto.
Qed.

(** An instance of C3: a second run on a translated table. *)
Lemma C3_idle_run_witness :
  Forall (fun it => whitespace_only (tr it) = false) translated_items
  /\ calls (_translate_worker sample_config quiet_env translated_items) = []
  /\ queue (trace (_translate_worker sample_config quiet_env translated_items))
     = [Status (msg_start sample_config 2); Log (msg_model sample_config 2);
        Log msg_nothing; Done].
Proof.
  assert (H : Forall (fun it => whitespace_only (tr it) = false)
                     translated_items) by (repeat constructor).
  split; [exact H|].
  destruct C3_idle_run_on_translated_set as [_ Hrun].
  destruct (Hrun sample_config quiet_env translated_items H) as (Hc & _ & Ht).
  split; [exact Hc|]. rewrite Ht. reflexivity.
Defined.

(** C3 as stated fails: the run on a translated table also puts the
    start-of-run status and log lines, so the nothing-to-do line and the
    done event are not its only events. *)
Lemma C3_counterexample :
  Forall (fun it => whitespace_only (tr it) = false) translated_items
  /\ queue (trace (_translate_worker sample_config quiet_env translated_items))
     <> [Log msg_nothing; Done].
Proof. split; [repeat constructor | discriminate]. Qed.

Lemma good_result_ok : future_ok (inr good_result).
Proof.
  right. intros H. apply (f_equal (fun m : gmap N str => m !! 1)) in H.
  vm_compute in H. discriminate.
Defined.






(** * Further properties *)

(** ** Sanity checks of the handlers and of the export *)

Example int_of_str_demo :
  map (int_of_str 4300)
      [lit " 5 "; lit "+5"; lit "-5"; lit "- 5"; lit "1_0"; lit "_1";
       lit "1_"; lit "1__0"; lit "007"; []; lit "-0"; lit "5.0"; lit "1 0"]
  = [Some 5; Some 5; Some (-5); None; Some 10; None;
     None; None; Some 7; None; Some 0; None; None]%Z.
Proof. reflexivity. Qed.

(** [int] does not skip the separators U+001C..U+001F, [strip] does. *)
Example positive_field_demo :
  int_of_str 4300 ("028"%char :: lit "5") = None
  /\ positive_field 4300 ("028"%char :: lit "5") = Some 5%Z
  /\ positive_field 4300 (lit "0") = None
  /\ positive_field 4300 (lit "-3") = None.
Proof. repeat split; reflexivity. Qed.

Example get_model_id_demo :
  _get_model_id (lit " Claude 4.5 Sonnet ") = lit "claude-sonnet-4-5"
  /\ _get_model_id (lit "claude 4.5 sonnet") = lit "gemini-3-flash".
Proof. split; reflexivity. Qed.

(** Two rows carry the index 2: the lower one gives its translation to
    the last unit with that index, the other unit keeps its own. *)
Example sync_table_to_items_demo :
  map tr (items (_sync_table_to_items
                   (mk_app [mk_item 2 [] (lit "a") (lit "old");
                            mk_item 2 [] (lit "b") []]
                           None
                           [mk_row 2 (lit "a") (lit "first");
                            mk_row 2 (lit "b") (lit "second");
                            mk_row 9 (lit "c") (lit "other")]
                           [] [] [] false false)))
  = [lit "old"; lit "second"].
Proof. by_evaluation. Qed.

Example export_srt_content_demo :
  export_srt_content [mk_item 7 [] (lit " Hello ") (lit "  ")]
  = lit "7" ++ [LF] ++ DUMMY_TIME ++ [LF] ++ lit "Hello" ++ [LF].
Proof. by_evaluation. Qed.

(** ** Normalised text *)

Lemma starts_with_firstn old : forall s,
  starts_with old s = true -> firstn (length old) s = old.
Proof.
  induction old as [|a old IH]; intros [|b s] H; simpl in *; try done.
  apply andb_true_iff in H as [H1 H2]. apply ascii_eqb_eq in H1 as ->.
  by rewrite IH.
Qed.

Lemma forallb_firstn_skipn p (s : str) n :
  forallb p s = forallb p (firstn n s) && forallb p (skipn n s).
Proof. by rewrite <- forallb_app, firstn_skipn. Qed.

(** Replacing a run of characters of a class by characters of the same
    class does not change whether a string lies in the class. *)
Lemma forallb_replace_aux p a old new :
  forallb p (a :: old) = true -> forallb p new = true ->
  forall s k, forallb p (firstn k s) = true ->
  forallb p (replace_aux (a :: old) new k s) = forallb p (skipn k s).
Proof.
  intros Hold Hnew. induction s as [|c r IH]; intros k Hk.
  - by destruct k.
  - destruct k as [|k].
    + cbn [replace_aux skipn].
      destruct (starts_with (a :: old) (c :: r)) eqn:E.
      * apply starts_with_firstn in E. cbn [length firstn] in E.
        injection E as -> Er. cbn [Nat.pred length].
        cbn [forallb] in Hold. apply andb_true_iff in Hold as [Ha Ho].
        rewrite forallb_app, Hnew, IH by (by rewrite Er). cbn [forallb].
        rewrite Ha, (forallb_firstn_skipn p r (length old)), Er, Ho. done.
      * cbn [forallb]. by rewrite IH.
    + cbn [replace_aux skipn]. cbn [firstn forallb] in Hk.
      apply andb_true_iff in Hk as [_ Hk]. by apply IH.
Qed.

Lemma forallb_replace p a old new s :
  forallb p (a :: old) = true -> forallb p new = true ->
  forallb p (replace (a :: old) new s) = forallb p s.
Proof. intros Ho Hn. unfold replace. by rewrite forallb_replace_aux. Qed.

(** No occurrence of a character is left once it has been replaced by
    another one. *)
Lemma replace_char_gone a b s :
  ascii_eqb a b = false -> has_char a (replace [a] [b] s) = false.
Proof.
  intros Hab. unfold replace.
  induction s as [|c r IH]; [done|].
  cbn [replace_aux starts_with]. rewrite andb_true_r.
  destruct (ascii_eqb a c) eqn:E; cbn [Datatypes.app Nat.pred length];
    unfold has_char; cbn [existsb]; fold (has_char a (replace_aux [a] [b] 0 r));
    by rewrite ?Hab, ?E, IH.
Qed.

Lemma normalize_no_CR text : has_char CR (normalize text) = false.
Proof.
  unfold normalize. apply has_char_strip_false. by apply replace_char_gone.
Qed.

(** The normalised text is empty exactly when the text is blank. *)
Lemma normalize_empty text : is_empty (normalize text) = whitespace_only text.
Proof.
  unfold normalize. rewrite strip_empty. unfold whitespace_only.
  by rewrite !forallb_replace.
Qed.


(** ** Characters of the pieces of a text *)

Lemma has_char_cons_head c d l :
  Forall (fun ln => has_char c ln = false) l -> ascii_eqb c d = false ->
  Forall (fun ln => has_char c ln = false) (cons_head d l).
Proof.
  intros Hl Hd. destruct Hl as [|h t Hh Ht]; constructor; try done.
  - unfold has_char. simpl. by rewrite Hd.
  - unfold has_char in *. simpl. by rewrite Hd.
Qed.

(** The pieces of a split hold no separator, and no character that the
    text does not hold. *)
Lemma split_no_char c sep s :
  (ascii_eqb c sep = true \/ has_char c s = false) ->
  Forall (fun ln => has_char c ln = false) (split sep s).
Proof.
  induction s as [|d r IH]; intros H; [by repeat constructor|].
  cbn [split]. destruct (ascii_eqb d sep) eqn:E.
  - constructor; [done|]. apply IH. destruct H as [H|H]; [by left|right].
    unfold has_char in *. simpl in H. by apply orb_false_iff in H as [_ H].
  - destruct (ascii_eqb c d) eqn:Ecd.
    + apply ascii_eqb_eq in Ecd as ->. destruct H as [H|H]; [congruence|].
      unfold has_char in H. simpl in H.
      assert (ascii_eqb d d = true) as Hd by by apply ascii_eqb_eq.
      by rewrite Hd in H.
    + apply has_char_cons_head; [|done]. apply IH.
      destruct H as [H|H]; [by left|right].
      unfold has_char in *. simpl in H. by apply orb_false_iff in H as [_ H].
Qed.

Lemma has_char_dropwhile c p s :
  has_char c s = false -> has_char c (dropwhile p s) = false.
Proof.
  induction s as [|d r IH]; [done|]. intros H. simpl.
  destruct (p d); [|done]. apply IH.
  unfold has_char in *. simpl in H. by apply orb_false_iff in H as [_ H].
Qed.

Lemma has_char_rev c s : has_char c (rev s) = has_char c s.
Proof.
  unfold has_char. induction s as [|d r IH]; [done|]. simpl.
  rewrite existsb_app, IH. simpl. rewrite orb_false_r. apply orb_comm.
Qed.

Lemma has_char_strip_char c ch s :
  has_char c s = false -> has_char c (strip_char ch s) = false.
Proof.
  intros H. unfold strip_char. rewrite has_char_rev.
  apply has_char_dropwhile. rewrite has_char_rev. by apply has_char_dropwhile.
Qed.

Lemma re_split_blank_no_char c s : forall k,
  has_char c s = false ->
  Forall (fun b => has_char c b = false) (re_split_blank_aux k s).
Proof.
  induction s as [|d r IH]; intros k H; [by repeat constructor|].
  assert (Hr : has_char c r = false /\ ascii_eqb c d = false).
  { unfold has_char in *. simpl in H. apply orb_false_iff in H. tauto. }
  destruct Hr as [Hr Hd]. cbn [re_split_blank_aux].
  destruct k as [|k]; [|by apply IH].
  destruct (ascii_eqb d LF).
  - destruct (upto_last_LF _).
    + constructor; [done | by apply IH].
    + apply has_char_cons_head; [by apply IH | done].
  - apply has_char_cons_head; [by apply IH | done].
Qed.

Lemma Forall_List_filter {A} (P : A -> Prop) (f : A -> bool) (l : list A) :
  Forall P l -> Forall P (List.filter f l).
Proof.
  induction 1 as [|x l Hx Hl IH]; simpl; [constructor|].
  destruct (f x); [by constructor | done].
Qed.

(** The lines of a block hold neither a newline nor a character that the
    block does not hold. *)
Lemma srt_block_lines_no_char c b :
  (c = LF \/ has_char c b = false) ->
  Forall (fun ln => has_char c ln = false) (srt_block_lines b).
Proof.
  intros H. unfold srt_block_lines. apply Forall_map.
  eapply Forall_impl.
  - apply Forall_List_filter, (split_no_char c LF b).
    destruct H as [->|H]; [left; by apply ascii_eqb_eq | by right].
  - intros ln Hln. simpl. by apply has_char_strip_char.
Qed.

(** ** The arrow and white space *)

Lemma space_not_char c x :
  isspace c = true -> isspace x = false -> ascii_eqb x c = false.
Proof.
  intros Hc Hx. destruct (ascii_eqb x c) eqn:E; [|done].
  apply ascii_eqb_eq in E as ->. congruence.
Qed.

Lemma contains_arrow_space_cons c s :
  isspace c = true -> contains ARROW (c :: s) = contains ARROW s.
Proof.
  intros Hc. cbn [contains]. unfold ARROW at 1. cbn [lit list_ascii_of_string].
  cbn [starts_with]. by rewrite (space_not_char c "-"%char Hc).
Qed.

Lemma starts_with_arrow_space_snoc c s :
  isspace c = true -> starts_with ARROW (s ++ [c]) = starts_with ARROW s.
Proof.
  intros Hc. unfold ARROW. cbn [lit list_ascii_of_string].
  pose proof (space_not_char c "-"%char Hc eq_refl) as H1.
  pose proof (space_not_char c ">"%char Hc eq_refl) as H2.
  destruct s as [|x [|y [|z s]]]; cbn [Datatypes.app starts_with];
    rewrite ?H1, ?H2, ?andb_false_r; done.
Qed.

Lemma contains_arrow_space_snoc c s :
  isspace c = true -> contains ARROW (s ++ [c]) = contains ARROW s.
Proof.
  intros Hc. induction s as [|x s IH].
  - change ([] ++ [c]) with [c]. by rewrite contains_arrow_space_cons.
  - change ((x :: s) ++ [c]) with (x :: (s ++ [c])). cbn [contains].
    change (x :: s ++ [c]) with ((x :: s) ++ [c]).
    by rewrite starts_with_arrow_space_snoc, IH.
Qed.

Lemma contains_arrow_spaces_app s w :
  forallb isspace w = true -> contains ARROW (s ++ w) = contains ARROW s.
Proof.
  revert s. induction w as [|c w IH]; intros s Hw; [by rewrite app_nil_r|].
  simpl in Hw. apply andb_true_iff in Hw as [Hc Hw].
  change (s ++ c :: w) with (s ++ [c] ++ w).
  by rewrite app_assoc, IH, contains_arrow_space_snoc.
Qed.

(** Stripping a line neither removes nor brings in an arrow. *)
Lemma contains_arrow_strip s : contains ARROW (strip s) = contains ARROW s.
Proof.
  destruct (strip_decomp s) as (a & b & Hs & Ha & Hb).
  rewrite Hs at 2. clear Hs.
  induction a as [|c a IH].
  - simpl. by rewrite contains_arrow_spaces_app.
  - simpl in Ha. apply andb_true_iff in Ha as [Hc Ha].
    change ((c :: a) ++ strip s ++ b) with (c :: (a ++ strip s ++ b)).
    rewrite contains_arrow_space_cons by done. by apply IH.
Qed.

(** ** Units of the parsers *)

Lemma clean_strip s :
  has_char LF s = false -> has_char CR s = false -> clean (strip s).
Proof.
  intros H1 H2. split; [apply strip_strip|].
  split; by apply has_char_strip_false.
Qed.

Lemma srt_time_scan_line lines range t j :
  srt_time_scan lines range = Some (t, j) ->
  exists ln, ln ∈ lines /\ contains ARROW ln = true /\ t = strip ln.
Proof.
  induction range as [|i rest IH]; [done|]. cbn [srt_time_scan].
  destruct (contains ARROW (nth i lines [])) eqn:E; [|done].
  intros [= <- <-]. exists (nth i lines []). split; [|done].
  destruct (Nat.lt_ge_cases i (length lines)) as [Hi|Hi].
  - apply list_elem_of_In. by apply nth_In.
  - rewrite nth_overflow in E by done. done.
Qed.

Lemma srt_block_units (P : item -> Prop) its b :
  (forall idx ln src_lines,
     ln ∈ srt_block_lines b -> contains ARROW ln = true ->
     Forall (fun l => l ∈ srt_block_lines b) src_lines ->
     P (mk_item idx (strip ln) (strip (join [SP] (map strip src_lines))) [])) ->
  Forall P its -> Forall P (srt_block its b).
Proof.
  intros HP Hits. unfold srt_block.
  destruct (length (srt_block_lines b) <? 2)%nat; [done|].
  destruct (srt_index_line (srt_block_lines b)) as [idx start_at].
  destruct (srt_time_scan _ _) as [[t j]|] eqn:E; [|done].
  apply srt_time_scan_line in E as (ln & Hin & Harrow & ->).
  apply Forall_app. split; [done|]. constructor; [|constructor].
  apply HP; [done..|].
  apply Forall_drop, Forall_forall. auto.
Qed.

Lemma srt_loop_units (P : item -> Prop) bs : forall its,
  Forall (fun b => forall its, Forall P its -> Forall P (srt_block its b)) bs ->
  Forall P its -> Forall P (fold_left srt_block bs its).
Proof.
  induction bs as [|b bs IH]; intros its Hbs Hits; [done|].
  inversion Hbs as [|? ? Hb Hbs']; subst. simpl. apply IH; [done|]. by apply Hb.
Qed.

Lemma srt_units_clean (text : str) :
  Forall (fun u => tr u = [] /\ contains ARROW (time u) = true
                   /\ clean (time u) /\ clean (src u))
         (parse_srt text).
Proof.
  rewrite parse_srt_loop. apply srt_loop_units; [|constructor].
  unfold srt_blocks, re_split_blank.
  pose proof (re_split_blank_no_char CR (normalize text) 0
                (normalize_no_CR text)) as Hb.
  eapply Forall_impl; [exact Hb|]. intros b Hcr its Hits.
  apply srt_block_units; [|done].
  pose proof (srt_block_lines_no_char LF b (or_introl eq_refl)) as Hlf.
  pose proof (srt_block_lines_no_char CR b (or_intror Hcr)) as Hcr'.
  rewrite Forall_forall in Hlf, Hcr'.
  intros idx ln src_lines Hln Harrow Hsrc. cbn [tr time src].
  split; [done|]. split; [by rewrite contains_arrow_strip|].
  split; [apply clean_strip; auto|].
  apply clean_strip; apply has_char_join; try done;
    apply Forall_map; (eapply Forall_impl; [exact Hsrc|]);
    intros l Hl; simpl; apply has_char_strip_false; auto.
Qed.

Lemma parse_tsv_like_imap text :
  parse_tsv_like text
  = imap (fun k ln => tsv_unit (N.of_nat k + 1) ln) (tsv_lines (normalize text)).
Proof.
  unfold parse_tsv_like.
  destruct (normalize text) as [|c r] eqn:E; [done|].
  simpl is_empty. cbv iota.
  rewrite tsv_loop. simpl. apply imap_ext. intros i x _. simpl. f_equal. lia.
Qed.


Lemma tsv_unit_clean k ln :
  has_char LF ln = false -> has_char CR ln = false ->
  time (tsv_unit k ln) = [] /\ tr (tsv_unit k ln) = []
  /\ clean (src (tsv_unit k ln)).
Proof.
  intros Hlf Hcr. unfold tsv_unit, tsv_fields.
  assert (Hcut : forall sep, has_char sep ln = true ->
            clean (strip (snd (cut sep ln)))).
  { intros sep Hsep. destruct (cut_spec sep ln Hsep) as [Hln _].
    rewrite Hln, has_char_app in Hlf, Hcr.
    apply orb_false_iff in Hlf as [_ Hlf]. apply orb_false_iff in Hcr as [_ Hcr].
    unfold has_char in Hlf, Hcr. simpl in Hlf, Hcr.
    apply orb_false_iff in Hlf as [_ Hlf]. apply orb_false_iff in Hcr as [_ Hcr].
    by apply clean_strip. }
  destruct (has_char TAB ln) eqn:Ht.
  - specialize (Hcut TAB Ht). destruct (cut TAB ln) as [l r].
    destruct (purely_numeric (strip l)); cbn [time tr src];
      auto using clean_strip.
  - destruct (has_char COMMA ln) eqn:Hc.
    + specialize (Hcut COMMA Hc). destruct (cut COMMA ln) as [l r].
      destruct (purely_numeric (strip l)); cbn [time tr src];
        auto using clean_strip.
    + cbn [time tr src]. auto using clean_strip.
Qed.


Lemma tsv_units_clean text :
  Forall (fun u => time u = [] /\ tr u = [] /\ clean (src u))
         (parse_tsv_like text).
Proof.
  rewrite parse_tsv_like_imap. apply Forall_forall. intros u Hu.
  apply elem_of_lookup_imap in Hu as (k & ln & -> & Hk).
  assert (Hin : ln ∈ split LF (normalize text)).
  { apply list_elem_of_lookup_2 in Hk. unfold tsv_lines in Hk.
    apply list_elem_of_In in Hk. apply filter_In in Hk as [Hk _].
    by apply list_elem_of_In. }
  apply tsv_unit_clean.
  - pose proof (split_no_char LF LF (normalize text)
                  (or_introl (proj2 (ascii_eqb_eq LF LF) eq_refl))) as H.
    rewrite Forall_forall in H. auto.
  - pose proof (split_no_char CR LF (normalize text)
                  (or_intror (normalize_no_CR text))) as H.
    rewrite Forall_forall in H. auto.
Qed.

(** A blank text has no SRT unit. *)
Lemma parse_srt_blank text : whitespace_only text = true -> parse_srt text = [].
Proof.
  intros H. unfold parse_srt. by rewrite normalize_empty, H.
Qed.

Lemma srt_block_length its b :
  (length (srt_block its b) <= S (length its))%nat.
Proof.
  unfold srt_block. destruct (_ <? _)%nat; [lia|].
  destruct (srt_index_line _) as [idx st].
  destruct (srt_time_scan _ _) as [[t j]|]; [|lia].
  rewrite length_app. simpl. lia.
Qed.

Lemma srt_loop_length bs : forall its,
  (length (fold_left srt_block bs its) <= length bs + length its)%nat.
Proof.
  induction bs as [|b bs IH]; intros its; simpl; [lia|].
  pose proof (IH (srt_block its b)). pose proof (srt_block_length its b). lia.
Qed.

(** The units of the two parsers and of the format detection. *)

(** X1.  [parse_srt] returns at most one unit for each block and none for a
    blank text.  Every unit has an empty translation and a time range
    that holds the arrow; its time range and its source are on one line,
    without carriage return and without white space around them. *)
Theorem X1_parse_srt_units (text : str) :
  (length (parse_srt text) <= length (srt_blocks text))%nat
  /\ (whitespace_only text = true -> parse_srt text = [])
  /\ Forall (fun u => tr u = [] /\ contains ARROW (time u) = true
                      /\ clean (time u) /\ clean (src u))
            (parse_srt text).
Proof.
  split; [|split].
  - rewrite parse_srt_loop.
    pose proof (srt_loop_length (srt_blocks text) []) as H. simpl in H. lia.
  - apply parse_srt_blank.
  - apply srt_units_clean.
Qed.


(** What the format detection returns, on every text. *)
Lemma detect_cases text :
  (detect_and_parse_subtitles text = (parse_srt text, Fsrt)
   /\ contains ARROW text = true /\ parse_srt text <> [])
  \/ (detect_and_parse_subtitles text = (parse_tsv_like text, Ftsv)
      /\ (contains ARROW text = false \/ parse_srt text = [])).
Proof.
  unfold detect_and_parse_subtitles.
  destruct (contains ARROW text); [|right; auto].
  destruct (parse_srt text) eqn:E; [right; auto | left; auto].
Qed.

(** The units that the format detection returns are not yet translated
    and have a clean source. *)
Lemma detect_units_clean text :
  Forall (fun u => tr u = [] /\ clean (src u)
                   /\ has_char LF (time u) = false
                   /\ has_char CR (time u) = false
                   /\ strip (time u) = time u
                   /\ (time u = [] \/ contains ARROW (time u) = true))
         (fst (detect_and_parse_subtitles text)).
Proof.
  destruct (detect_cases text) as [(-> & _ & _)|(-> & _)]; cbn [fst].
  - eapply Forall_impl; [apply srt_units_clean|]. simpl.
    intros u (H1 & H2 & (H3 & H4 & H5) & H6). auto 10.
  - eapply Forall_impl; [apply tsv_units_clean|]. simpl.
    intros u (H1 & H2 & H3). rewrite H1. auto 10.
Qed.


(** ** Loading the table *)





(** ** Replies in the promised format *)

Lemma flatten_clean t : clean t -> flatten t = t.
Proof.
  intros (Hs & Hlf & _). unfold flatten. by rewrite replace_absent.
Qed.

Lemma reply_loop_echo units : forall m,
  fold_left reply_line (map echo_line units) m
  = fold_left (fun m u => <[index u := flatten (src u)]> m) units m.
Proof.
  induction units as [|u units IH]; intros m; [done|]. simpl.
  by rewrite reply_line_entry, echo_line_entry, IH.
Qed.

Lemma fold_insert_list_to_map (entries : list (N * str)) :
  fold_left (fun (m : gmap N str) e => <[fst e := snd e]> m) entries ∅
  = list_to_map (rev entries).
Proof.
  rewrite <- fold_left_rev_right. generalize (rev entries). intros l.
  induction l as [|[i t] l IH]; [done|]. simpl. by rewrite IH.
Qed.

Lemma echo_reply_decodes units :
  Forall (fun u => clean (src u)) units ->
  parse_model_output (echo_reply units)
  = list_to_map (rev (map (fun u => (index u, src u)) units)).
Proof.
  intros Hc. rewrite parse_echo_reply, reply_loop_echo.
  - rewrite <- fold_insert_list_to_map. generalize (∅ : gmap N str).
    induction Hc as [|u units Hu _ IH]; intros m; [done|]. simpl.
    by rewrite IH, (flatten_clean _ Hu).
  - eapply Forall_impl; [exact Hc|]. intros u Hu. apply Hu.
Qed.



(** X6.  The payload that [build_user_payload] makes from parsed units shows
    each source as it was parsed, and the echo of these units is decoded
    into their sources, unchanged. *)
Theorem X6_parsed_units_round_trip (text guide : str) (batch : list item) :
  batch ⊆ fst (detect_and_parse_subtitles text) ->
  (batch <> [] ->
   skipn 4 (split LF (build_user_payload batch guide))
   = map (fun u => str_of_N (index u) ++ [TAB] ++ src u) batch)
  /\ parse_model_output (echo_reply batch)
     = list_to_map (rev (map (fun u => (index u, src u)) batch)).
Proof.
  intros Hsub.
  assert (Hc : Forall (fun u => clean (src u)) batch).
  { apply Forall_forall. intros u Hu. apply Hsub in Hu.
    pose proof (detect_units_clean text) as H. rewrite Forall_forall in H.
    by apply H. }
  split; [|by apply echo_reply_decodes].
  intros Hne. unfold build_user_payload. rewrite split_payload_header.
  cbn [payload_header_lines Datatypes.app skipn].
  rewrite split_join.
  - apply map_ext_Forall. eapply Forall_impl; [exact Hc|].
    intros u Hu. unfold payload_line. by rewrite flatten_clean.
  - by destruct batch.
  - apply Forall_map, Forall_forall. intros u _. apply payload_line_no_LF.
Qed.

(** An instance of X6: the units parsed from [srt_sample]. *)
Lemma X6_parsed_units_round_trip_witness :
  fst (detect_and_parse_subtitles srt_sample)
  ⊆ fst (detect_and_parse_subtitles srt_sample)
  /\ skipn 4 (split LF (build_user_payload
                          (fst (detect_and_parse_subtitles srt_sample))
                          (lit "guide")))
     = [lit "1" ++ [TAB] ++ lit "Hello there"; lit "2" ++ [TAB] ++ lit "World"].
Proof.
  split; [done|].
  destruct (X6_parsed_units_round_trip srt_sample (lit "guide") _
              (reflexivity _)) as [H _].
  rewrite H; [by_evaluation | discriminate].
Defined.

(** ** Decoded translations *)

Lemma has_char_takewhile c p s :
  has_char c s = false -> has_char c (takewhile p s) = false.
Proof.
  induction s as [|d r IH]; [done|]. intros H. simpl.
  unfold has_char in *. simpl in H. apply orb_false_iff in H as [H1 H2].
  destruct (p d); [|done]. simpl. by rewrite H1, IH.
Qed.

Lemma has_char_tail c d s : has_char c (d :: s) = false -> has_char c s = false.
Proof. unfold has_char. simpl. intros H. by apply orb_false_iff in H as [_ H]. Qed.

Lemma takewhile_stops_at c s :
  has_char c (takewhile (fun d => negb (ascii_eqb d c)) s) = false.
Proof.
  induction s as [|d r IH]; [done|]. simpl.
  destruct (ascii_eqb d c) eqn:E; [done|]. simpl.
  unfold has_char in *. simpl. by rewrite ascii_eqb_sym, E, IH.
Qed.

(** The translation read from a reply line is on one line and has no
    white space around it. *)
Lemma reply_entry_clean ln i t :
  has_char CR ln = false -> reply_entry ln = Some (i, t) -> clean t.
Proof.
  intros Hcr. unfold reply_entry, re_reply_line.
  apply (has_char_strip_false CR) in Hcr.
  destruct (is_empty _); [done|].
  destruct (dropwhile isspace (dropwhile isdigit (strip ln))) as [|c rest] eqn:E;
    [done|].
  assert (Hrest : has_char CR rest = false).
  { apply (has_char_tail CR c). rewrite <- E.
    by do 2 apply has_char_dropwhile. }
  destruct (ascii_eqb c COLON); [|done].
  destruct (dollar _); [|done]. intros [= <- <-].
  apply clean_strip.
  - apply takewhile_stops_at.
  - by apply has_char_takewhile, has_char_dropwhile.
Qed.

Lemma reply_loop_clean lines : forall m : gmap N str,
  Forall (fun ln => has_char CR ln = false) lines ->
  map_Forall (fun _ t => clean t) m ->
  map_Forall (fun _ t => clean t) (fold_left reply_line lines m).
Proof.
  induction lines as [|ln lines IH]; intros m Hl Hm; [done|].
  inversion Hl as [|? ? Hln Hl']; subst. simpl. apply IH; [done|].
  rewrite reply_line_entry. destruct (reply_entry ln) as [[i t]|] eqn:E; [|done].
  apply map_Forall_insert_2; [|done]. by eapply reply_entry_clean.
Qed.

Lemma reply_loop_size lines : forall m : gmap N str,
  (size (fold_left reply_line lines m) <= size m + length lines)%nat.
Proof.
  induction lines as [|ln lines IH]; intros m; simpl; [lia|].
  etrans; [apply IH|]. rewrite reply_line_entry.
  destruct (reply_entry ln) as [[i t]|]; [|lia].
  rewrite map_size_insert. destruct (m !! i); unfold id; lia.
Qed.

Lemma parse_model_output_clean output :
  map_Forall (fun _ t => clean t) (parse_model_output output).
Proof.
  apply reply_loop_clean; [|apply map_Forall_empty].
  apply split_no_char. right. apply normalize_no_CR.
Qed.

(** X7.  Every translation that [parse_model_output] returns is on one line,
    without carriage return and without white space around it; there are
    no more translations than lines in the reply, and none for a blank
    reply. *)
Theorem X7_decoded_translations (output : str) :
  map_Forall (fun _ t => clean t) (parse_model_output output)
  /\ (size (parse_model_output output) <= length (reply_lines output))%nat
  /\ (whitespace_only output = true -> parse_model_output output = ∅).
Proof.
  split; [apply parse_model_output_clean|]. split.
  - unfold parse_model_output, reply_lines.
    etrans; [apply reply_loop_size|]. by rewrite map_size_empty.
  - intros H. unfold parse_model_output.
    pose proof (normalize_empty output) as He. rewrite H in He.
    by destruct (normalize output).
Qed.

(** ** Merging, once more *)

(** The position that [idx_to_item] holds for an index is the last one
    that carries it. *)
Lemma idx_to_item_last its : forall pos it,
  its !! pos = Some it ->
  (idx_to_item its !! index it = Some pos
   <-> forall pos' it', (pos < pos')%nat -> its !! pos' = Some it' ->
                        index it' <> index it).
Proof.
  induction its as [|x l IH] using rev_ind; intros pos it Hpos; [done|].
  rewrite idx_to_item_snoc.
  destruct (decide (pos = length l)) as [->|Hne].
  - rewrite list_lookup_middle in Hpos by done. injection Hpos as ->.
    rewrite lookup_insert_eq. split; [|done]. intros _ pos' it' Hlt Hpos'.
    apply lookup_lt_Some in Hpos'. rewrite length_app in Hpos'. simpl in *. lia.
  - assert (Hlt : (pos < length l)%nat).
    { apply lookup_lt_Some in Hpos. rewrite length_app in Hpos. simpl in *. lia. }
    rewrite lookup_app_l in Hpos by done.
    destruct (decide (index x = index it)) as [Heq|Hneq].
    + rewrite Heq, lookup_insert_eq. split; [intros [= ?]; lia|].
      intros H. exfalso. apply (H (length l) x Hlt); [|done].
      by rewrite list_lookup_middle.
    + rewrite lookup_insert_ne by done. rewrite (IH pos it Hpos). split.
      * intros H pos' it' Hlt' Hpos'.
        destruct (decide (pos' = length l)) as [->|Hne'].
        -- rewrite list_lookup_middle in Hpos' by done. by injection Hpos' as ->.
        -- apply (H pos' it' Hlt'). rewrite lookup_app_l in Hpos'; [done|].
           apply lookup_lt_Some in Hpos'. rewrite length_app in Hpos'.
           simpl in *. lia.
      * intros H pos' it' Hlt' Hpos'. apply (H pos' it' Hlt').
        rewrite lookup_app_l; [done|]. by apply lookup_lt_Some in Hpos'.
Qed.

Lemma idx_to_item_NoDup its pos it :
  NoDup (map index its) -> its !! pos = Some it ->
  idx_to_item its !! index it = Some pos.
Proof.
  intros Hnd Hpos. apply (idx_to_item_last its pos it Hpos).
  intros pos' it' Hlt Hpos' Heq.
  assert (pos = pos'); [|lia].
  eapply (NoDup_lookup (map index its)); [done| |].
  - change (map index its) with (index <$> its).
    by rewrite list_lookup_fmap, Hpos.
  - change (map index its) with (index <$> its).
    rewrite list_lookup_fmap, Hpos'. simpl. by rewrite Heq.
Qed.

Lemma apply_to_items_lookup m its pos :
  apply_to_items m its !! pos
  = merged_item (idx_to_item its) m pos <$> its !! pos.
Proof. by rewrite apply_to_items_spec, list_lookup_imap. Qed.

Lemma apply_to_rows_lookup (m : gmap N str) rows pos :
  apply_to_rows m rows !! pos
  = (fun r => match m !! row_index r with
              | Some t => mk_row (row_index r) (row_src r) t
              | None => r
              end) <$> rows !! pos.
Proof. unfold apply_to_rows. apply list_lookup_fmap. Qed.

Lemma merged_item_fields refs m pos it :
  index (merged_item refs m pos it) = index it
  /\ time (merged_item refs m pos it) = time it
  /\ src (merged_item refs m pos it) = src it.
Proof.
  unfold merged_item. destruct (m !! index it); [|done].
  by destruct (decide _).
Qed.

(** X8.  A merge changes translations only: the number and the order of the
    units and of the rows, their indices, time ranges and sources stay,
    and so does everything else in the application.  A unit or a row
    whose index is not a key of the mapping keeps its translation.  Of
    the units that carry a key, the last one in the list takes the new
    translation and an earlier one keeps its own, while every row that
    carries the key is updated. *)
Theorem X8_merge_changes_translations_only (m : gmap N str) (a : app) :
  let a' := _apply_translation_mapping m a in
  (map index (items a') = map index (items a)
   /\ map time (items a') = map time (items a)
   /\ map src (items a') = map src (items a)
   /\ map row_index (tree a') = map row_index (tree a)
   /\ map row_src (tree a') = map row_src (tree a))
  /\ (input_format a' = input_format a /\ status_var a' = status_var a
      /\ log_text a' = log_text a /\ dialogs a' = dialogs a
      /\ worker_thread a' = worker_thread a /\ stop_flag a' = stop_flag a)
  /\ (forall pos it, items a !! pos = Some it ->
        items a' !! pos
        = Some match m !! index it with
               | None => it
               | Some t =>
                   if decide (idx_to_item (items a) !! index it = Some pos)
                   then set_tr t it else it
               end)
  /\ (forall pos it, items a !! pos = Some it ->
        idx_to_item (items a) !! index it = Some pos
        <-> forall pos' it', (pos < pos')%nat -> items a !! pos' = Some it' ->
                             index it' <> index it)
  /\ (forall pos r, tree a !! pos = Some r ->
        tree a' !! pos
        = Some match m !! row_index r with
               | None => r
               | Some t => mk_row (row_index r) (row_src r) t
               end).
Proof.
  intros a'. subst a'. cbn [_apply_translation_mapping items tree input_format
    status_var log_text dialogs worker_thread stop_flag].
  split; [|split; [done|split; [|split]]].
  - rewrite apply_to_items_spec. repeat split.
    + change (map index ?l) with (index <$> l). rewrite fmap_imap.
      rewrite <- (imap_const index). apply imap_ext. intros i x _.
      apply merged_item_fields.
    + change (map time ?l) with (time <$> l). rewrite fmap_imap.
      rewrite <- (imap_const time). apply imap_ext. intros i x _.
      apply merged_item_fields.
    + change (map src ?l) with (src <$> l). rewrite fmap_imap.
      rewrite <- (imap_const src). apply imap_ext. intros i x _.
      apply merged_item_fields.
    + unfold apply_to_rows. rewrite map_map. apply map_ext. intros r.
      by destruct (m !! row_index r).
    + unfold apply_to_rows. rewrite map_map. apply map_ext. intros r.
      by destruct (m !! row_index r).
  - intros pos it Hpos. by rewrite apply_to_items_lookup, Hpos.
  - apply idx_to_item_last.
  - intros pos r Hpos. by rewrite apply_to_rows_lookup, Hpos.
Qed.

(** With pairwise distinct indices a merge treats every unit alike. *)
Lemma apply_to_items_NoDup m its :
  NoDup (map index its) -> apply_to_items m its = map (merge_unit m) its.
Proof.
  intros Hnd. apply list_eq. intros pos.
  rewrite apply_to_items_lookup. change (map ?f ?l) with (f <$> l).
  rewrite list_lookup_fmap. destruct (its !! pos) as [it|] eqn:E; [|done].
  simpl. f_equal. unfold merged_item, merge_unit.
  destruct (m !! index it); [|done].
  by rewrite decide_True by by apply idx_to_item_NoDup.
Qed.

Lemma merged_item_union refs (m1 m2 : gmap N str) pos it :
  merged_item refs m2 pos (merged_item refs m1 pos it)
  = merged_item refs (m2 ∪ m1) pos it.
Proof.
  unfold merged_item at 2 3. rewrite lookup_union.
  destruct (m1 !! index it) as [t1|] eqn:E1;
    destruct (m2 !! index it) as [t2|] eqn:E2; simpl.
  - destruct (decide _); unfold merged_item; simpl; rewrite E2;
      [by rewrite decide_True | by rewrite decide_False].
  - destruct (decide _); unfold merged_item; simpl; by rewrite E2.
  - unfold merged_item. rewrite E2. done.
  - unfold merged_item. by rewrite E2.
Qed.

(** X9.  Two merges in a row are one merge of the union of the mappings in
    which the later mapping has priority; in particular merging the same
    mapping again changes nothing. *)
Theorem X9_merge_then_merge (m1 m2 : gmap N str) (a : app) :
  _apply_translation_mapping m2 (_apply_translation_mapping m1 a)
  = _apply_translation_mapping (m2 ∪ m1) a
  /\ _apply_translation_mapping m1 (_apply_translation_mapping m1 a)
     = _apply_translation_mapping m1 a.
Proof.
  assert (H : forall m m' : gmap N str,
    _apply_translation_mapping m' (_apply_translation_mapping m a)
    = _apply_translation_mapping (m' ∪ m) a).
  { intros m m'. unfold _apply_translation_mapping. cbn [items tree
      input_format status_var log_text dialogs worker_thread stop_flag].
    f_equal.
    - apply list_eq. intros pos. rewrite !apply_to_items_lookup.
      rewrite (idx_to_item_indices (apply_to_items m (items a)) (items a))
        by apply apply_to_items_indices.
      destruct (items a !! pos) as [it|]; [|done]. simpl.
      by rewrite merged_item_union.
    - apply list_eq. intros pos. rewrite !apply_to_rows_lookup.
      destruct (tree a !! pos) as [r|]; [|done]. simpl. f_equal.
      rewrite lookup_union.
      destruct (m !! row_index r) as [t1|] eqn:E1; simpl;
        destruct (m' !! row_index r) as [t2|] eqn:E2; simpl;
        by rewrite ?E1, ?E2. }
  split; [apply H|]. rewrite H. f_equal. apply (idemp _).
Qed.

(** When the indices are pairwise distinct and the table shows the units,
    it still shows them after a merge. *)
Lemma merge_in_sync m a :
  NoDup (map index (items a)) -> in_sync a ->
  in_sync (_apply_translation_mapping m a).
Proof.
  unfold in_sync. intros Hnd Hs. cbn [_apply_translation_mapping items tree].
  rewrite Hs, (apply_to_items_NoDup _ _ Hnd). unfold apply_to_rows.
  rewrite !map_map. apply map_ext. intros it. unfold merge_unit. simpl.
  by destruct (m !! index it).
Qed.

(** ** Synchronising the units with the table *)

Lemma table_mapping_snoc rows r :
  table_mapping (rows ++ [r]) = <[row_index r := row_tr r]> (table_mapping rows).
Proof. unfold table_mapping. by rewrite fold_left_app. Qed.

Lemma set_tr_merged_item t refs m pos it :
  set_tr t (merged_item refs m pos it) = set_tr t it.
Proof.
  unfold merged_item. destruct (m !! index it); [|done].
  by destruct (decide _).
Qed.

(** Pulling the translations from the table is the merge of the mapping
    that the table shows. *)
Lemma sync_rows_merge its rows :
  fold_left (sync_row (idx_to_item its)) rows its
  = apply_to_items (table_mapping rows) its.
Proof.
  rewrite apply_to_items_spec. set (refs := idx_to_item its).
  induction rows as [|r rows IH] using rev_ind.
  - simpl. apply list_eq. intros pos. rewrite list_lookup_imap.
    destruct (its !! pos) as [it|]; [|done]. done.
  - rewrite fold_left_app, table_mapping_snoc. simpl. rewrite IH. clear IH.
    set (M := table_mapping rows). unfold sync_row.
    apply list_eq. intros pos. rewrite list_lookup_imap.
    destruct (refs !! row_index r) as [p|] eqn:Ep.
    + destruct (idx_to_item_some its _ _ Ep) as (itp & Hp & Hidx).
      destruct (decide (p = pos)) as [->|Hne].
      * rewrite list_lookup_alter_eq, list_lookup_imap, Hp. simpl. f_equal.
        rewrite set_tr_merged_item. unfold merged_item.
        by rewrite Hidx, lookup_insert_eq, decide_True.
      * rewrite list_lookup_alter_ne, list_lookup_imap by done.
        destruct (its !! pos) as [it|]; [|done]. simpl. f_equal.
        unfold merged_item.
        destruct (decide (index it = row_index r)) as [Heq|Hneq].
        -- rewrite Heq, lookup_insert_eq, Ep.
           rewrite decide_False by (intros [= ?]; done).
           destruct (M !! row_index r); [|done].
           by rewrite decide_False by (intros [= ?]; done).
        -- by rewrite lookup_insert_ne.
    + rewrite list_lookup_imap.
      destruct (its !! pos) as [it|] eqn:Eit; [|done]. simpl. f_equal.
      unfold merged_item. rewrite lookup_insert_ne; [done|].
      intros Heq. by apply (idx_to_item_none its _ Ep pos it Eit).
Qed.

(** The mapping shown by the rows of a list of units binds the index of
    the unit that [idx_to_item] refers to to the translation of that
    unit. *)
Lemma table_mapping_rows its : forall i p,
  idx_to_item its !! i = Some p ->
  exists it, its !! p = Some it
             /\ table_mapping (map row_of_item its) !! i = Some (tr it).
Proof.
  induction its as [|x l IH] using rev_ind; intros i p; [done|].
  rewrite idx_to_item_snoc, map_app. cbn [map].
  rewrite table_mapping_snoc. cbn [row_of_item row_index row_tr].
  destruct (decide (index x = i)) as [<-|Hne].
  - rewrite !lookup_insert_eq. intros [= <-]. exists x.
    by rewrite list_lookup_middle.
  - rewrite !lookup_insert_ne by done. intros H.
    destruct (IH i p H) as (it & Hp & Hm). exists it. split; [|done].
    rewrite lookup_app_l; [done|]. by apply lookup_lt_Some in Hp.
Qed.

Lemma set_tr_same it : set_tr (tr it) it = it.
Proof. by destruct it. Qed.

Lemma sync_in_sync a : in_sync a -> _sync_table_to_items a = a.
Proof.
  unfold in_sync. intros Hs. unfold _sync_table_to_items.
  rewrite sync_rows_merge, Hs.
  assert (apply_to_items (table_mapping (map row_of_item (items a))) (items a)
          = items a) as ->; [|rewrite <- Hs; by destruct a].
  generalize (items a). intros its.
  apply list_eq. intros pos. rewrite apply_to_items_lookup.
  destruct (its !! pos) as [it|] eqn:E; [|done]. simpl. f_equal.
  unfold merged_item.
  destruct (table_mapping _ !! index it) as [t|] eqn:Et; [|done].
  destruct (decide _) as [Hd|]; [|done].
  destruct (table_mapping_rows its _ _ Hd) as (it' & Hp & Hm).
  rewrite E in Hp. injection Hp as <-. rewrite Et in Hm. injection Hm as ->.
  apply set_tr_same.
Qed.

(** X10.  [_sync_table_to_items] is the merge of the mapping that the table
    shows, where a lower row with the same index has priority: it touches
    translations only, and only the units themselves.  When the table
    shows the units as they are, it changes nothing. *)
Theorem X10_sync_is_a_merge (a : app) :
  items (_sync_table_to_items a)
  = items (_apply_translation_mapping (table_mapping (tree a)) a)
  /\ tree (_sync_table_to_items a) = tree a
  /\ (forall i, i ∈ dom (table_mapping (tree a))
                <-> exists r, r ∈ tree a /\ row_index r = i)
  /\ (forall rows r rows',
        tree a = rows ++ r :: rows' ->
        Forall (fun r' => row_index r' <> row_index r) rows' ->
        table_mapping (tree a) !! row_index r = Some (row_tr r))
  /\ (in_sync a -> _sync_table_to_items a = a).
Proof.
  split; [apply sync_rows_merge|]. split; [done|].
  split; [|split; [|apply sync_in_sync]].
  - intros i. generalize (tree a). intros rows.
    induction rows as [|r rows IH] using rev_ind.
    + split; [by intros H%not_elem_of_empty | by intros (r & H%not_elem_of_nil & _)].
    + rewrite table_mapping_snoc, dom_insert, elem_of_union, elem_of_singleton, IH.
      split.
      * intros [->|(r' & Hr' & <-)].
        -- exists r. split; [|done]. apply elem_of_app. right. by left.
        -- exists r'. split; [|done]. apply elem_of_app. by left.
      * intros (r' & [Hr'|Hr']%elem_of_app & <-); [right; eauto|].
        apply list_elem_of_singleton in Hr' as ->. by left.
  - intros rows r rows' -> Hlater.
    replace (rows ++ r :: rows') with ((rows ++ [r]) ++ rows')
      by (by rewrite <- app_assoc).
    unfold table_mapping. rewrite fold_left_app.
    fold (table_mapping (rows ++ [r])).
    assert (H : table_mapping (rows ++ [r]) !! row_index r = Some (row_tr r))
      by (by rewrite table_mapping_snoc, lookup_insert_eq).
    revert H. generalize (table_mapping (rows ++ [r])).
    induction Hlater as [|r' rows' Hr' _ IH]; intros m Hm; [done|].
    simpl. apply IH. by rewrite lookup_insert_ne.
Qed.

(** ** Editing a cell *)

Lemma str_eqb_eq a : forall b, str_eqb a b = true <-> a = b.
Proof.
  induction a as [|x a IH]; intros [|y b]; simpl; try done.
  rewrite andb_true_iff, ascii_eqb_eq, IH. split; [by intros [-> ->]|].
  by intros [= -> ->].
Qed.

Ltac map_as_fmap :=
  repeat match goal with
         | |- context [map ?f ?l] => change (map f l) with (f <$> l)
         end.

Lemma alter_rows_of_items f g (its : list item) pos :
  (forall it, row_of_item (f it) = g (row_of_item it)) ->
  alter g pos (map row_of_item its) = map row_of_item (alter f pos its).
Proof.
  intros H. map_as_fmap. symmetry. apply list_fmap_alter.
  apply Forall_forall. auto.
Qed.

Lemma map_alter_same {A B} (f : A -> B) (g : A -> A) pos (l : list A) :
  (forall x, f (g x) = f x) -> map f (alter g pos l) = map f l.
Proof.
  intros H. map_as_fmap. apply list_eq. intros i.
  rewrite !list_lookup_fmap. destruct (decide (pos = i)) as [->|Hne].
  - rewrite list_lookup_alter_eq. destruct (l !! i); [|done]. simpl.
    by rewrite H.
  - by rewrite list_lookup_alter_ne.
Qed.

(** With pairwise distinct indices, pulling from a table that shows
    other translations of the same units gives these translations. *)
Lemma sync_from_rows_of (its its' : list item) :
  NoDup (map index its) ->
  map index its' = map index its -> map time its' = map time its ->
  map src its' = map src its ->
  fold_left (sync_row (idx_to_item its)) (map row_of_item its') its = its'.
Proof.
  intros Hnd Hi Ht Hs. rewrite sync_rows_merge.
  apply list_eq. intros pos. rewrite apply_to_items_lookup.
  assert (Hlen : length its' = length its).
  { by rewrite <- (length_map index its'), Hi, length_map. }
  destruct (its !! pos) as [it|] eqn:E.
  - destruct (its' !! pos) as [it'|] eqn:E'.
    2:{ apply lookup_ge_None in E'. apply lookup_lt_Some in E. lia. }
    assert (Hf : forall (f : item -> str), map f its' = map f its ->
                   f it' = f it).
    { intros f Hfm. apply (f_equal (fun l => l !! pos)) in Hfm.
      change (map ?h ?l) with (h <$> l) in Hfm.
      rewrite !list_lookup_fmap, E, E' in Hfm. by injection Hfm. }
    assert (Hidx : index it' = index it).
    { apply (f_equal (fun l => l !! pos)) in Hi.
      change (map ?h ?l) with (h <$> l) in Hi.
      rewrite !list_lookup_fmap, E, E' in Hi. by injection Hi. }
    simpl. f_equal. unfold merged_item.
    rewrite <- Hi in Hnd.
    pose proof (idx_to_item_NoDup its' pos it' Hnd E') as Hr'.
    destruct (table_mapping_rows its' _ _ Hr') as (x & Hx & Hm).
    rewrite E' in Hx. injection Hx as <-.
    rewrite <- Hidx, Hm. rewrite Hi in Hnd.
    rewrite decide_True
      by (rewrite Hidx; by apply idx_to_item_NoDup).
    pose proof (Hf time Ht). pose proof (Hf src Hs).
    destruct it, it'. cbn in *. by subst.
  - simpl. symmetry. apply lookup_ge_None. apply lookup_ge_None in E. lia.
Qed.

(** X11.  A double click opens an entry only on a cell of the third column,
    the translation, and the entry starts with the translation shown in
    that row.  When the table shows units with pairwise distinct indices
    and the entry is saved with a new text, the next synchronisation
    gives this text to the unit of the row, leaves the other units as
    they are, and the table shows the units again. *)
Theorem X11_edit_reaches_unit (ev : click) (en : entry) (typed : str) (a : app) :
  in_sync a -> NoDup (map index (items a)) ->
  _on_double_click ev (tree a) = Some en ->
  let a1 := with_tree (save_edit (mk_entry (entry_row en) typed) (tree a)) a in
  region ev = lit "cell" /\ col_id ev = lit "#3"
  /\ row_id ev = Some (entry_row en)
  /\ entry_text en = default [] (tr <$> items a !! entry_row en)
  /\ items (_sync_table_to_items a1)
     = alter (set_tr typed) (entry_row en) (items a)
  /\ in_sync (_sync_table_to_items a1).
Proof.
  intros Hs Hnd Hclick a1. unfold _on_double_click in Hclick.
  destruct (str_eqb (region ev) (lit "cell")) eqn:Hr; [|done].
  destruct (row_id ev) as [pos|]; [|done]. cbn [negb] in Hclick.
  destruct (is_empty (col_id ev)); [done|].
  destruct (str_eqb (col_id ev) (lit "#3")) eqn:Hc; [|done].
  destruct (bbox ev); [|done]. cbn [negb] in Hclick. injection Hclick as <-.
  apply str_eqb_eq in Hr, Hc. cbn [entry_row entry_text] in *.
  split; [done|]. split; [done|]. split; [done|].
  unfold in_sync in Hs. split.
  { rewrite Hs. change (map ?h ?l) with (h <$> l).
    rewrite list_lookup_fmap. by destruct (items a !! pos). }
  assert (Htree : tree a1
                  = map row_of_item (alter (set_tr typed) pos (items a))).
  { unfold a1, with_tree, save_edit, tree_set_translation. cbn [tree entry_row
      entry_text]. rewrite Hs. by apply alter_rows_of_items. }
  assert (Hitems : items (_sync_table_to_items a1)
                   = alter (set_tr typed) pos (items a)).
  { unfold _sync_table_to_items. cbn [items]. rewrite Htree.
    change (items a1) with (items a).
    apply sync_from_rows_of; [done|..]; by apply map_alter_same. }
  split; [exact Hitems|]. unfold in_sync. rewrite Hitems. exact Htree.
Qed.

(** [sample_app] shows its units, whose indices are pairwise distinct. *)
Lemma sample_app_in_sync : in_sync sample_app.
Proof. reflexivity. Defined.

Lemma sample_app_NoDup : NoDup (map index (items sample_app)).
Proof. by_decision. Defined.

(** An instance of X11: the translation of the second row of
    [sample_app] is edited. *)
Lemma X11_edit_reaches_unit_witness :
  in_sync sample_app /\ NoDup (map index (items sample_app))
  /\ _on_double_click sample_click (tree sample_app) = Some (mk_entry 1 [])
  /\ map tr (items (_sync_table_to_items
                      (with_tree (save_edit (mk_entry 1 (lit "Mot"))
                                            (tree sample_app))
                                 sample_app)))
     = [[]; lit "Mot"; lit "done"; []].
Proof.
  assert (Hc : _on_double_click sample_click (tree sample_app)
               = Some (mk_entry 1 [])) by by_evaluation.
  split; [exact sample_app_in_sync|]. split; [exact sample_app_NoDup|].
  split; [exact Hc|].
  destruct (X11_edit_reaches_unit sample_click (mk_entry 1 []) (lit "Mot")
              sample_app sample_app_in_sync sample_app_NoDup Hc)
    as (_ & _ & _ & _ & H & _).
  cbn [entry_row] in H. rewrite H. by_evaluation.
Defined.

(** ** The poller *)

Lemma same_frame_refl a : same_frame a a.
Proof. repeat split; try done; exists []; by rewrite app_nil_r. Qed.

Lemma same_frame_trans a b c :
  same_frame a b -> same_frame b c -> same_frame a c.
Proof.
  intros (H1 & H2 & H3 & H4 & H5 & H6 & [l Hl] & [d Hd])
         (K1 & K2 & K3 & K4 & K5 & K6 & [l' Hl'] & [d' Hd']).
  repeat split; try congruence.
  - exists (l ++ l'). by rewrite Hl', Hl, app_assoc.
  - exists (d ++ d'). by rewrite Hd', Hd, app_assoc.
Qed.

Lemma merge_same_frame m a : same_frame a (_apply_translation_mapping m a).
Proof.
  unfold same_frame. cbn [_apply_translation_mapping items tree input_format
    log_text dialogs].
  rewrite apply_to_items_spec. repeat split.
  - map_as_fmap. rewrite fmap_imap, <- (imap_const index).
    apply imap_ext. intros i x _. apply merged_item_fields.
  - map_as_fmap. rewrite fmap_imap, <- (imap_const time).
    apply imap_ext. intros i x _. apply merged_item_fields.
  - map_as_fmap. rewrite fmap_imap, <- (imap_const src).
    apply imap_ext. intros i x _. apply merged_item_fields.
  - unfold apply_to_rows. rewrite map_map. apply map_ext. intros r.
    by destruct (m !! row_index r).
  - unfold apply_to_rows. rewrite map_map. apply map_ext. intros r.
    by destruct (m !! row_index r).
  - exists []. by rewrite app_nil_r.
  - exists []. by rewrite app_nil_r.
Qed.

Lemma poll_event_same_frame a ev : same_frame a (poll_event a ev).
Proof.
  destruct ev as [msg|msg|m| |msg]; cbn [poll_event];
    try apply merge_same_frame;
    unfold same_frame; cbn; repeat split; eauto;
    try (exists []; by rewrite app_nil_r).
Qed.

Lemma poll_queue_same_frame q : forall a, same_frame a (_poll_queue q a).
Proof.
  induction q as [|ev q IH]; intros a; [apply same_frame_refl|].
  eapply same_frame_trans; [apply poll_event_same_frame|].
  apply (IH (poll_event a ev)).
Qed.

(** Events other than the terminal ones leave the worker, the stop flag
    and the error boxes alone. *)
Lemma poll_open_events q : forall a,
  Forall (fun ev => is_terminal ev = false) q ->
  worker_thread (_poll_queue q a) = worker_thread a
  /\ stop_flag (_poll_queue q a) = stop_flag a
  /\ dialogs (_poll_queue q a) = dialogs a.
Proof.
  induction q as [|ev q IH]; intros a Hq; [done|].
  inversion Hq as [|? ? Hev Hq']; subst.
  change (_poll_queue (ev :: q) a) with (_poll_queue q (poll_event a ev)).
  destruct (IH (poll_event a ev) Hq') as (-> & -> & ->).
  by destruct ev.
Qed.

(** X12.  Whatever is polled, in whatever portions, the units and the rows
    stay in place with their indices, time ranges and sources, the
    detected format stays, and the log and the error boxes only grow;
    until a terminal event comes the worker and the stop flag are left
    alone, and no error box is shown. *)
Theorem X12_poll_keeps_units (q q' : list event) (a : app) :
  same_frame a (_poll_queue q a)
  /\ _poll_queue (q ++ q') a = _poll_queue q' (_poll_queue q a)
  /\ (Forall (fun ev => is_terminal ev = false) q ->
      worker_thread (_poll_queue q a) = worker_thread a
      /\ stop_flag (_poll_queue q a) = stop_flag a
      /\ dialogs (_poll_queue q a) = dialogs a).
Proof.
  split; [apply poll_queue_same_frame|]. split; [apply poll_queue_app|].
  apply poll_open_events.
Qed.

(** X13.  When the events of a whole run have been polled, the worker is
    released and the stop flag is clear; the status reads Done or Error,
    and an error box is shown in the second case only, with the text of
    the error. *)
Theorem X13_run_releases_worker (c : config) (e : env) (its : list item)
    (a : app) :
  let a' := _poll_queue (queue (trace (_translate_worker c e its))) a in
  worker_thread a' = false /\ stop_flag a' = false
  /\ ((status_var a' = lit "Done." /\ dialogs a' = dialogs a
       /\ exists l, log_text a' = l ++ [lit "Hoàn tất dịch."])
      \/ (status_var a' = lit "Error."
          /\ exists msg l, dialogs a' = dialogs a ++ [msg]
                           /\ log_text a' = l ++ [lit "Lỗi: " ++ msg])).
Proof.
  intros a'. subst a'.
  destruct (translate_worker_end c e its) as (t & ev & -> & Hopen & Hev).
  destruct (terminal_last t ev Hopen Hev) as (q & -> & Hq).
  rewrite poll_queue_app.
  destruct (poll_open_events q a Hq) as (_ & _ & Hd).
  destruct ev as [| | | |msg]; try discriminate;
    cbn [_poll_queue fold_left poll_event release showerror log set_status
         worker_thread stop_flag status_var dialogs log_text];
    (split; [done|]); (split; [done|]).
  - left. rewrite Hd. eauto.
  - right. rewrite Hd. eauto.
Qed.

(** ** Runs, once more *)

(** X14.  When the loop reaches a future whose call has raised, every batch has
    been submitted before, the loop has put progress events only, and the
    run ends there with one error event that carries the text of the
    exception; done is never put; the updates put so far are those of the
    batches completed before, whose merges the table keeps, and the
    poller reports the error in the status, the log and an error box. *)
Theorem X14_batch_exception_aborts (c : config) (e : env) (its : list item)
    (batches : list (list item)) (before after : list (str + batch_result))
    (exc : str) :
  select_pending its <> [] ->
  make_batches (sort_by_index (select_pending its)) (batch_size c)
  = Some batches ->
  (0 < concurrency c)%Z ->
  completed_futures c e batches = before ++ inl exc :: after ->
  Forall future_ok before ->
  let r := _translate_worker c e its in
  let msg := lit "Lỗi batch: " ++ exc in
  exists acts,
    trace r
    = (intro_actions c its ++ [Put (Log (msg_total_batches (length batches)))]
       ++ map Submit batches)
      ++ acts ++ [Put (Error msg)]
    /\ Forall progress_action acts
    /\ Forall (fun ev => ev <> Done) (queue (trace r))
    /\ updates (queue (trace r)) = merged_mappings before
    /\ forall a,
         let a' := _poll_queue (queue (trace r)) a in
         items a' = items (merge_all (merged_mappings before) a)
         /\ tree a' = tree (merge_all (merged_mappings before) a)
         /\ status_var a' = lit "Error."
         /\ dialogs a' = dialogs a ++ [msg]
         /\ exists l, log_text a' = l ++ [lit "Lỗi: " ++ msg].
Proof.
  intros Hne Hb Hc Hf Hbefore r msg.
  pose proof (translate_worker_loop c e its batches Hne Hb Hc) as Ht.
  cbv zeta in Ht. fold r in Ht. rewrite Hf in Ht.
  destruct (consume_app c e (length batches) before (inl exc :: after) 0 0
                        Hbefore) as (k' & n' & Hloop).
  rewrite Hloop, consume_cons in Ht. cbv zeta in Ht. cbn [fst snd] in Ht.
  fold msg in Ht.
  set (seen := if stop_in_loop e k' then [Put (Status msg_stopping)]
               else []) in Ht.
  set (head := intro_actions c its
               ++ [Put (Log (msg_total_batches (length batches)))]
               ++ map Submit batches) in *.
  set (loop := fst (consume c e (length batches) 0 0 before)) in *.
  assert (Htrace : trace r = head ++ (loop ++ seen) ++ [Put (Error msg)]).
  { rewrite Ht. by rewrite <- !app_assoc. }
  assert (Hacts : Forall progress_action (loop ++ seen)).
  { apply Forall_app. split; [apply consume_progress | apply seen_progress]. }
  assert (Hhead : Forall open_action head).
  { unfold head. apply Forall_app. split.
    - eapply Forall_impl; [apply intro_actions_progress|].
      apply progress_action_open.
    - constructor; [done|]. by apply Forall_map, Forall_true. }
  assert (Hopen : Forall open_action (head ++ loop ++ seen)).
  { apply Forall_app. split; [done|].
    eapply Forall_impl; [exact Hacts | apply progress_action_open]. }
  assert (Hupd : updates (queue (trace r)) = merged_mappings before).
  { rewrite Htrace, !queue_app, !updates_app. unfold head, loop.
    rewrite !queue_app, !updates_app, updates_intro, queue_submit.
    destruct (consume_ok c e (length batches) before 0 0 Hbefore) as [_ ->].
    unfold seen. destruct (stop_in_loop e k'); simpl; by rewrite !app_nil_r. }
  exists (loop ++ seen). split; [exact Htrace|]. split; [exact Hacts|].
  split; [|split; [exact Hupd|]].
  - rewrite Htrace, app_assoc, queue_app. apply Forall_app. split.
    + eapply Forall_impl; [apply queue_open | by intros ev H ->]. done.
    + repeat constructor; discriminate.
  - intros a a'. destruct (poll_queue_merges (queue (trace r)) a) as [Hi Htree].
    fold a' in Hi, Htree. rewrite Hupd in Hi, Htree.
    split; [exact Hi|]. split; [exact Htree|].
    subst a'. rewrite Htrace, app_assoc, queue_app, poll_queue_app.
    destruct (poll_open_events _ a (queue_open _ Hopen)) as (_ & _ & Hd).
    cbn [queue omap list_omap _poll_queue fold_left poll_event].
    cbn [log_text status_var dialogs release showerror log set_status].
    rewrite Hd. split; [done|]. split; [done|]. eauto.
Qed.

(** An instance of X14: the call for the second of two batches raises. *)
Lemma X14_batch_exception_aborts_witness :
  select_pending sample_items <> []
  /\ make_batches (sort_by_index (select_pending sample_items))
                  (batch_size sample_config) = Some sample_batches
  /\ (0 < concurrency sample_config)%Z
  /\ completed_futures sample_config raising_env sample_batches
     = [inr good_result] ++ inl (lit "timeout") :: []
  /\ Forall future_ok [inr good_result : str + batch_result]
  /\ updates (queue (trace (_translate_worker sample_config raising_env
                                               sample_items)))
     = [res_mapping good_result]
  /\ dialogs (_poll_queue (queue (trace (_translate_worker sample_config
                raising_env sample_items))) sample_app)
     = [lit "Lỗi batch: timeout"].
Proof.
  assert (H1 : select_pending sample_items <> []) by discriminate.
  assert (H2 : make_batches (sort_by_index (select_pending sample_items))
                 (batch_size sample_config) = Some sample_batches)
    by by_evaluation.
  assert (H3 : (0 < concurrency sample_config)%Z) by reflexivity.
  assert (H4 : completed_futures sample_config raising_env sample_batches
               = [inr good_result] ++ inl (lit "timeout") :: [])
    by by_evaluation.
  assert (H5 : Forall future_ok [inr good_result : str + batch_result]).
  { constructor; [exact good_result_ok | constructor]. }
  destruct (X14_batch_exception_aborts sample_config raising_env sample_items
              sample_batches _ _ _ H1 H2 H3 H4 H5)
    as (acts & _ & _ & _ & Hu & Hpoll).
  repeat (split; [assumption|]).
  destruct (Hpoll sample_app) as (_ & _ & _ & Hd & _). exact Hd.
Defined.

Lemma slice_elem (l : list item) start size u :
  u ∈ slice l start size -> u ∈ l.
Proof.
  unfold slice. intros H.
  by apply (subseteq_drop start), (subseteq_take size).
Qed.

(** Every batch is a slice of the list it is cut from, is not empty and
    has at most [size] units; there are no more batches than units. *)
Lemma make_batches_slices (l : list item) (size : Z) batches :
  make_batches l size = Some batches ->
  Forall (fun b => b <> [] /\ (length b <= Z.to_nat size)%nat
                   /\ forall u, u ∈ b -> u ∈ l) batches
  /\ (length batches <= length l)%nat.
Proof.
  destruct size as [|p|p]; [done| |].
  - rewrite make_batches_pos. intros [= <-].
    set (st := Pos.to_nat p). set (n := length l).
    assert (Hst : (0 < st)%nat) by (unfold st; lia).
    split.
    + apply Forall_map, Forall_forall. intros k Hk.
      apply elem_of_seq in Hk as [_ Hk]. simpl in Hk.
      split; [|split].
      * intros H. apply (f_equal length) in H.
        rewrite slice_length in H. simpl in H.
        destruct (Nat.eq_dec n 0%nat) as [Hn|Hn].
        { fold n in Hk. rewrite Hn in Hk.
          rewrite Nat.div_small in Hk by lia. lia. }
        pose proof (ceil_div_bounds n st Hst ltac:(lia)) as Hb.
        cbv zeta in Hb. fold n in Hk, H.
        assert (k * st <= ((n + st - 1) / st - 1) * st)%nat
          by (apply Nat.mul_le_mono_r; lia).
        lia.
      * rewrite slice_length. rewrite Z2Nat.inj_pos. fold st. lia.
      * intros u. apply slice_elem.
    + rewrite length_map, length_seq. fold n st.
      destruct (Nat.eq_dec n 0%nat) as [->|Hn].
      { rewrite Nat.div_small by lia. lia. }
      apply Nat.Div0.div_le_upper_bound. nia.
  - unfold make_batches. simpl. intros [= <-]. split; [constructor | simpl; lia].
Qed.

(** The remote calls of a run. *)
Lemma translate_worker_calls c e its :
  calls (_translate_worker c e its) = []
  \/ exists batches,
       make_batches (sort_by_index (select_pending its)) (batch_size c)
       = Some batches
       /\ calls (_translate_worker c e its)
          = concat (map fst (run_batches c e batches)).
Proof.
  unfold _translate_worker.
  destruct (select_pending its) as [|u p] eqn:E; [by left|].
  destruct (make_batches _ _) as [batches|] eqn:Eb; [|by left].
  destruct (concurrency c <=? 0)%Z; [by left|]. right. exists batches.
  split; [done|]. by destruct (consume _ _ _ _ _ _) as [acts [msg|]].
Qed.

Lemma run_batches_calls c e batches cl :
  cl ∈ concat (map fst (run_batches c e batches)) ->
  exists i b, batches !! i = Some b /\ b <> [] /\ stop_at_pickup e i = false
              /\ cl = mk_call (guide_prompt c)
                              (build_user_payload b (guide_prompt c)).
Proof.
  intros H. apply list_elem_of_In, in_concat in H as (cs & Hcs & Hcl).
  apply in_map_iff in Hcs as ([cs' out] & <- & Hin). simpl in Hcl.
  apply list_elem_of_In in Hin. unfold run_batches in Hin.
  apply elem_of_lookup_imap in Hin as (i & b & Heq & Hb).
  exists i, b. split; [done|]. unfold translate_one_batch in Heq.
  destruct (stop_at_pickup e i);
    [injection Heq as -> _; by destruct Hcl|].
  destruct b as [|first rest]; [injection Heq as -> _; by destruct Hcl|].
  split; [done|]. split; [done|].
  destruct (service e i); injection Heq as -> _;
    by apply list_elem_of_In, list_elem_of_singleton in Hcl.
Qed.

Lemma concat_imap_length {A B C} (f : nat -> A -> list B * C) (l : list A) :
  forall k, (forall i x, length (fst (f i x)) <= k)%nat ->
  (length (concat (map fst (imap f l))) <= k * length l)%nat.
Proof.
  intros k. revert f. induction l as [|x l IH]; intros f Hf; [simpl; lia|].
  rewrite imap_cons. simpl. rewrite length_app.
  pose proof (Hf 0%nat x). pose proof (IH (f ∘ S) (fun i y => Hf (S i) y)).
  lia.
Qed.

Lemma translate_one_batch_calls g stop ans b :
  (length (fst (translate_one_batch g stop ans b)) <= 1)%nat
  /\ (stop = true -> fst (translate_one_batch g stop ans b) = []).
Proof.
  unfold translate_one_batch. destruct stop; [by split; [simpl; lia|]|].
  destruct b; [split; [simpl; lia | done]|].
  destruct ans; (split; [simpl; lia | done]).
Qed.

(** X15.  A run sends pending units only.  Each remote call has the guide
    prompt as its system message and, as its user message, the payload of
    a batch that is not empty, has at most [batch_size] units, and is made
    of units of the table whose translation is blank.  At most one call
    is made for each batch, so there are no more calls than pending
    units, and none at all when the stop flag is set before the first
    batch is picked up and stays set. *)
Theorem X15_calls_carry_pending_units (c : config) (e : env) (its : list item) :
  let r := _translate_worker c e its in
  Forall (fun cl =>
            call_system cl = guide_prompt c
            /\ exists b, b <> []
                 /\ (length b <= Z.to_nat (batch_size c))%nat
                 /\ Forall (fun u => u ∈ its /\ whitespace_only (tr u) = true) b
                 /\ call_user cl = build_user_payload b (guide_prompt c))
         (calls r)
  /\ (length (calls r) <= length (select_pending its))%nat
  /\ ((forall i, stop_at_pickup e i = true) -> calls r = []).
Proof.
  intros r. subst r.
  destruct (translate_worker_calls c e its) as [->|(batches & Hb & ->)].
  { split; [constructor|]. split; [simpl; lia | done]. }
  destruct (make_batches_slices _ _ _ Hb) as [Hslices Hlen].
  rewrite sort_by_index_length in Hlen.
  split; [|split].
  - apply Forall_forall. intros cl Hcl.
    apply run_batches_calls in Hcl as (i & b & Hi & Hne & _ & ->).
    split; [done|]. exists b. split; [done|].
    rewrite Forall_forall in Hslices.
    destruct (Hslices b (list_elem_of_lookup_2 _ _ _ Hi)) as (_ & Hsz & Hsub).
    split; [done|]. split; [|done].
    apply Forall_forall. intros u Hu. apply Hsub in Hu.
    rewrite (sort_by_index_perm (select_pending its)) in Hu.
    unfold select_pending in Hu. apply list_elem_of_In, filter_In in Hu.
    destruct Hu as [Hu Hblank]. rewrite strip_empty in Hblank.
    split; [by apply list_elem_of_In | done].
  - etrans; [|exact Hlen]. unfold run_batches.
    etrans; [apply (concat_imap_length _ _ 1%nat)|lia].
    intros i x. apply translate_one_batch_calls.
  - intros Hstop. unfold run_batches.
    assert (H : (length (concat (map fst (imap
                  (fun i b => translate_one_batch (guide_prompt c)
                     (stop_at_pickup e i) (service e i) b) batches)))
                 <= 0 * length batches)%nat).
    { apply concat_imap_length. intros i x.
      destruct (translate_one_batch_calls (guide_prompt c)
                  (stop_at_pickup e i) (service e i) x) as [_ H].
      rewrite H by apply Hstop. simpl. lia. }
    apply length_zero_iff_nil. lia.
Qed.

(** ** A run with a service that answers in the promised format *)

Lemma make_batches_concat (l : list item) (size : Z) batches :
  (0 < size)%Z -> make_batches l size = Some batches -> concat batches = l.
Proof.
  intros Hs. destruct size as [|p|p]; try lia.
  rewrite make_batches_pos. intros [= <-].
  rewrite <- (map_map (fun k => (k * Pos.to_nat p)%nat)
                      (fun start => slice l start (Pos.to_nat p))).
  rewrite chunks_concat. apply firstn_all2.
  destruct (Nat.eq_dec (length l) 0%nat) as [Hn|Hn]; [lia|].
  pose proof (ceil_div_bounds (length l) (Pos.to_nat p) ltac:(lia) ltac:(lia)).
  cbv zeta in *. lia.
Qed.

Lemma index_inj_NoDup (its : list item) u v :
  NoDup (map index its) -> u ∈ its -> v ∈ its -> index u = index v -> u = v.
Proof.
  intros Hnd Hu Hv Heq.
  apply list_elem_of_lookup in Hu as [i Hi]. apply list_elem_of_lookup in Hv as [j Hj].
  assert (i = j).
  { apply (NoDup_lookup (map index its) i j (index u) Hnd).
    - map_as_fmap. by rewrite list_lookup_fmap, Hi.
    - map_as_fmap. rewrite list_lookup_fmap, Hj. simpl. by rewrite Heq. }
  subst j. congruence.
Qed.

Lemma merge_unit_fields m it :
  index (merge_unit m it) = index it /\ time (merge_unit m it) = time it
  /\ src (merge_unit m it) = src it.
Proof. unfold merge_unit. by destruct (m !! index it). Qed.

Lemma merge_all_items_NoDup ms : forall a,
  NoDup (map index (items a)) ->
  items (merge_all ms a) = map (merge_units ms) (items a).
Proof.
  induction ms as [|m ms IH]; intros a Hnd.
  - simpl. by rewrite map_id.
  - change (merge_all (m :: ms) a)
      with (merge_all ms (_apply_translation_mapping m a)).
    rewrite IH.
    + cbn [_apply_translation_mapping items].
      rewrite (apply_to_items_NoDup _ _ Hnd), map_map. done.
    + cbn [_apply_translation_mapping items].
      by rewrite apply_to_items_indices.
Qed.

Lemma merge_units_spec ms : forall it,
  let it' := merge_units ms it in
  index it' = index it /\ time it' = time it /\ src it' = src it
  /\ ((forall m, m ∈ ms -> m !! index it = None) -> it' = it)
  /\ ((exists m, m ∈ ms /\ is_Some (m !! index it)) ->
      exists m, m ∈ ms /\ m !! index it = Some (tr it')).
Proof.
  induction ms as [|m ms IH] using rev_ind; intros it it'.
  - subst it'. simpl. repeat split; try done.
    intros (m & Hm & _). by apply not_elem_of_nil in Hm.
  - subst it'. unfold merge_units. rewrite fold_left_app. simpl.
    fold (merge_units ms it).
    destruct (IH it) as (Hi & Ht & Hs & Hnone & Hsome).
    destruct (merge_unit_fields m (merge_units ms it)) as (Hi' & Ht' & Hs').
    split; [congruence|]. split; [congruence|]. split; [congruence|].
    split.
    + intros Hno. unfold merge_unit. rewrite Hi.
      rewrite (Hno m) by (apply elem_of_app; right; by left).
      apply Hnone. intros m' Hm'. apply Hno, elem_of_app. by left.
    + intros (m0 & Hm0 & Hsome0). unfold merge_unit. rewrite Hi.
      destruct (m !! index it) as [t|] eqn:E.
      * exists m. split; [apply elem_of_app; right; by left|]. done.
      * apply elem_of_app in Hm0 as [Hm0|Hm0].
        -- destruct Hsome as (m1 & Hm1 & Hl1); [by exists m0|].
           exists m1. split; [apply elem_of_app; by left | done].
        -- apply list_elem_of_singleton in Hm0 as ->. rewrite E in Hsome0.
           by destruct Hsome0.
Qed.

Lemma translate_worker_calls_loop c e its batches :
  select_pending its <> [] ->
  make_batches (sort_by_index (select_pending its)) (batch_size c)
  = Some batches ->
  (0 < concurrency c)%Z ->
  calls (_translate_worker c e its) = concat (map fst (run_batches c e batches)).
Proof.
  intros Hne Hb Hc. unfold _translate_worker.
  destruct (select_pending its) as [|u p] eqn:E; [done|].
  rewrite Hb. destruct (Z.leb_spec (concurrency c) 0); [lia|].
  by destruct (consume _ _ _ _ _ _) as [acts [msg|]].
Qed.

Lemma pending_elem its u :
  u ∈ select_pending its <-> u ∈ its /\ whitespace_only (tr u) = true.
Proof.
  unfold select_pending. rewrite !list_elem_of_In, filter_In, strip_empty.
  done.
Qed.

(** With no stop request and a service that answers, the future of
    every batch holds the mapping decoded from its reply. *)
Lemma run_batches_answers c e batches i b :
  (forall i, stop_at_pickup e i = false) ->
  answers_in_format e batches -> b <> [] -> batches !! i = Some b ->
  exists out res,
    service e i = Content (Some out)
    /\ run_batches c e batches !! i
       = Some ([mk_call (guide_prompt c)
                  (build_user_payload b (guide_prompt c))], inr res)
    /\ res_skipped res = false /\ res_mapping res = parse_model_output out.
Proof.
  intros Hstop Hans Hne Hi. destruct (Hans i b Hi) as (out & Hs & _).
  unfold run_batches. rewrite list_lookup_imap, Hi. simpl.
  unfold translate_one_batch. rewrite Hstop, Hs.
  destruct b as [|first rest]; [done|]. eauto 10.
Qed.

Section GoodService.

Context (c : config) (e : env) (a : app) (batches : list (list item)).
Hypothesis Hnd : NoDup (map index (items a)).
Hypothesis Hne : select_pending (items a) <> [].
Hypothesis Hsize : (0 < batch_size c)%Z.
Hypothesis Hconc : (0 < concurrency c)%Z.
Hypothesis Hb :
  make_batches (sort_by_index (select_pending (items a))) (batch_size c)
  = Some batches.
Hypothesis Hstop : forall i, stop_at_pickup e i = false.
Hypothesis Hperm : Permutation (completion e) (seq 0 (length batches)).
Hypothesis Hans : answers_in_format e batches.

Lemma batch_units i b u :
  batches !! i = Some b -> u ∈ b ->
  b <> [] /\ u ∈ items a /\ whitespace_only (tr u) = true.
Proof.
  intros Hi Hu. destruct (make_batches_slices _ _ _ Hb) as [Hs _].
  rewrite Forall_forall in Hs.
  destruct (Hs b (list_elem_of_lookup_2 _ _ _ Hi)) as (Hbne & _ & Hsub).
  split; [done|]. apply pending_elem.
  rewrite <- (sort_by_index_perm (select_pending (items a))). by apply Hsub.
Qed.

Lemma batch_nonempty i b : batches !! i = Some b -> b <> [].
Proof.
  intros Hi. destruct (make_batches_slices _ _ _ Hb) as [Hs _].
  rewrite Forall_forall in Hs.
  by destruct (Hs b (list_elem_of_lookup_2 _ _ _ Hi)).
Qed.

Lemma pending_unit_batch u :
  u ∈ items a -> whitespace_only (tr u) = true ->
  exists i b, batches !! i = Some b /\ u ∈ b.
Proof.
  intros Hu Hblank.
  assert (H : u ∈ concat batches).
  { rewrite (make_batches_concat _ _ _ Hsize Hb).
    rewrite (sort_by_index_perm (select_pending (items a))).
    by apply pending_elem. }
  apply list_elem_of_In, in_concat in H as (b & Hbin & Hub).
  apply list_elem_of_In, list_elem_of_lookup in Hbin as [i Hi].
  exists i, b. split; [done | by apply list_elem_of_In].
Qed.

Lemma futures_answer :
  Forall (fun f => exists res, f = inr res /\ res_skipped res = false
                     /\ res_mapping res <> ∅
                     /\ reply_mapping e batches (res_mapping res))
         (completed_futures c e batches).
Proof.
  rewrite (completed_futures_perm c e batches Hperm).
  apply Forall_forall. intros f Hf.
  apply list_elem_of_fmap in Hf as ([cs f'] & -> & Hin).
  apply list_elem_of_lookup in Hin as [i Hi].
  assert (Hlt : (i < length batches)%nat).
  { apply lookup_lt_Some in Hi. unfold run_batches in Hi.
    by rewrite length_imap in Hi. }
  destruct (lookup_lt_is_Some_2 batches i Hlt) as [b Hbi].
  destruct (run_batches_answers c e batches i b Hstop Hans
              (batch_nonempty i b Hbi) Hbi) as (out & res & Hs & Hr & Hk & Hm).
  rewrite Hr in Hi. injection Hi as <- <-. simpl. exists res.
  split; [done|]. split; [done|]. split.
  - rewrite Hm. intros Hempty. destruct (Hans i b Hbi) as (out' & Hs' & Hd & _).
    rewrite Hs in Hs'. injection Hs' as <-. rewrite Hempty, dom_empty_L in Hd.
    destruct b as [|u b']; [by apply (batch_nonempty i [] Hbi)|].
    simpl in Hd. set_solver.
  - exists i, b, out. by rewrite Hm.
Qed.

Lemma futures_ok : Forall future_ok (completed_futures c e batches).
Proof.
  eapply Forall_impl; [apply futures_answer|].
  intros f (res & -> & _ & Hm & _). by right.
Qed.

Lemma merged_are_replies :
  Forall (reply_mapping e batches)
         (merged_mappings (completed_futures c e batches)).
Proof.
  unfold merged_mappings. apply Forall_forall. intros m Hm.
  apply list_elem_of_omap in Hm as (f & Hf & Hm).
  pose proof futures_answer as H. rewrite Forall_forall in H.
  destruct (H f Hf) as (res & -> & Hk & _ & Hr). rewrite Hk in Hm.
  by injection Hm as <-.
Qed.

Lemma batch_reply_merged i b :
  batches !! i = Some b ->
  exists out, service e i = Content (Some out)
    /\ parse_model_output out ∈ merged_mappings (completed_futures c e batches).
Proof.
  intros Hi.
  destruct (run_batches_answers c e batches i b Hstop Hans
              (batch_nonempty i b Hi) Hi) as (out & res & Hs & Hr & Hk & Hm).
  exists out. split; [done|]. unfold merged_mappings.
  apply list_elem_of_omap. exists (inr res). split; [|by rewrite Hk, Hm].
  rewrite (completed_futures_perm c e batches Hperm).
  apply list_elem_of_fmap. eexists. split; [|by eapply list_elem_of_lookup_2].
  done.
Qed.

(** X16.  A run without stop request, on units with pairwise distinct indices,
    against a service that answers every batch in the promised format,
    whatever the order in which the batches complete: one call is made
    for each batch, the run ends with done and puts no error, and once
    its events are polled no unit is pending.  A unit that had a
    translation keeps it; a unit that was pending has the translation
    that one of the replies gives for its index; indices, time ranges and
    sources stay. *)
Theorem X16_run_translates_every_pending_unit :
  let r := _translate_worker c e (items a) in
  let a' := _poll_queue (queue (trace r)) a in
  last (queue (trace r)) = Some Done
  /\ Forall (fun ev => forall msg, ev <> Error msg) (queue (trace r))
  /\ length (calls r) = length batches
  /\ select_pending (items a') = []
  /\ status_var a' = lit "Done."
  /\ forall pos it, items a !! pos = Some it ->
       exists it', items a' !! pos = Some it'
         /\ index it' = index it /\ time it' = time it /\ src it' = src it
         /\ if whitespace_only (tr it)
            then exists i out, service e i = Content (Some out)
                   /\ parse_model_output out !! index it = Some (tr it')
            else it' = it.
Proof.
  intros r a'.
  pose proof (translate_worker_loop c e (items a) batches Hne Hb Hconc) as Ht.
  cbv zeta in Ht. fold r in Ht.
  destruct (consume_ok c e (length batches) _ 0 0 futures_ok) as [Hnone Hupd].
  rewrite Hnone in Ht.
  destruct (closing_actions_end e) as (t & Hclose & Htp).
  set (head := intro_actions c (items a)
               ++ [Put (Log (msg_total_batches (length batches)))]
               ++ map Submit batches) in *.
  set (loop := fst (consume c e (length batches) 0 0
                            (completed_futures c e batches))) in *.
  assert (Hopen : Forall open_action (head ++ loop ++ t)).
  { apply Forall_app. split; [|apply Forall_app; split].
    - unfold head. apply Forall_app. split.
      + eapply Forall_impl; [apply intro_actions_progress|].
        apply progress_action_open.
      + constructor; [done|]. by apply Forall_map, Forall_true.
    - eapply Forall_impl; [apply consume_progress | apply progress_action_open].
    - eapply Forall_impl; [exact Htp | apply progress_action_open]. }
  assert (Htrace : trace r = (head ++ loop ++ t) ++ [Put Done]).
  { rewrite Ht, Hclose. by rewrite <- !app_assoc. }
  assert (Hq : queue (trace r) = queue (head ++ loop ++ t) ++ [Done]).
  { by rewrite Htrace, queue_app. }
  assert (Hu : updates (queue (trace r))
               = merged_mappings (completed_futures c e batches)).
  { rewrite Ht, !queue_app, !updates_app. unfold head.
    rewrite !queue_app, !updates_app, updates_intro, queue_submit.
    fold loop. rewrite Hupd. unfold closing_actions.
    destruct (stop_at_end e); simpl; by rewrite !app_nil_r. }
  set (ms := merged_mappings (completed_futures c e batches)) in *.
  assert (Hitems : items a' = map (merge_units ms) (items a)).
  { unfold a'. destruct (poll_queue_merges (queue (trace r)) a) as [-> _].
    rewrite Hu. by apply merge_all_items_NoDup. }
  assert (Hunit : forall it, it ∈ items a ->
            if whitespace_only (tr it)
            then exists i out, service e i = Content (Some out)
                   /\ parse_model_output out !! index it
                      = Some (tr (merge_units ms it))
                   /\ whitespace_only (tr (merge_units ms it)) = false
            else merge_units ms it = it).
  { intros it Hit.
    destruct (merge_units_spec ms it) as (_ & _ & _ & Hkeep & Hnew).
    destruct (whitespace_only (tr it)) eqn:Hblank.
    - destruct (pending_unit_batch it Hit Hblank) as (i & b & Hi & Hub).
      destruct (batch_reply_merged i b Hi) as (out & Hs & Hin).
      destruct (Hans i b Hi) as (out' & Hs' & Hdom & _).
      rewrite Hs in Hs'. injection Hs' as <-.
      destruct Hnew as (m & Hm & Hl).
      { exists (parse_model_output out). split; [done|].
        apply elem_of_dom. rewrite Hdom. apply elem_of_list_to_set.
        apply list_elem_of_fmap. by exists it. }
      pose proof merged_are_replies as Hr. rewrite Forall_forall in Hr.
      destruct (Hr m Hm) as (j & bj & outj & Hj & Hsj & ->).
      exists j, outj. split; [done|]. split; [done|].
      destruct (Hans j bj Hj) as (out' & Hs' & _ & Hval).
      rewrite Hsj in Hs'. injection Hs' as <-. by apply (Hval _ _ Hl).
    - apply Hkeep. intros m Hm.
      pose proof merged_are_replies as Hr. rewrite Forall_forall in Hr.
      destruct (Hr m Hm) as (j & bj & outj & Hj & Hsj & ->).
      destruct (Hans j bj Hj) as (out' & Hs' & Hdom & _).
      rewrite Hsj in Hs'. injection Hs' as <-.
      apply not_elem_of_dom. rewrite Hdom. intros Hin.
      apply elem_of_list_to_set, list_elem_of_fmap in Hin as (u & Hiu & Hu').
      destruct (batch_units j bj u Hj Hu') as (_ & Hua & Hublank).
      assert (u = it) by (by apply (index_inj_NoDup (items a))).
      subst u. congruence. }
  split; [by rewrite Hq, last_snoc|]. split.
  { rewrite Hq. apply Forall_app. split; [|by repeat constructor].
    eapply Forall_impl; [apply (queue_open _ Hopen)|].
    by intros ev Hev msg ->. }
  split.
  { unfold r. rewrite (translate_worker_calls_loop c e _ batches Hne Hb Hconc).
    assert (H : map fst (run_batches c e batches)
                = map (fun b => [mk_call (guide_prompt c)
                                   (build_user_payload b (guide_prompt c))])
                      batches).
    { apply list_eq. intros i. map_as_fmap. rewrite !list_lookup_fmap.
      destruct (batches !! i) as [b|] eqn:Hi.
      - destruct (run_batches_answers c e batches i b Hstop Hans
                    (batch_nonempty i b Hi) Hi) as (out & res & _ & -> & _).
        done.
      - unfold run_batches. by rewrite list_lookup_imap, Hi. }
    rewrite H. clear. induction batches as [|b bs IH]; [done|].
    simpl. by rewrite IH. }
  split.
  { rewrite Hitems. apply select_pending_none, Forall_map, Forall_forall.
    intros it Hit. simpl. specialize (Hunit it Hit).
    destruct (whitespace_only (tr it)) eqn:Hblank.
    - by destruct Hunit as (_ & _ & _ & _ & H).
    - by rewrite Hunit. }
  split.
  { unfold a'. rewrite Hq, poll_queue_app. reflexivity. }
  intros pos it Hpos. exists (merge_units ms it).
  destruct (merge_units_spec ms it) as (Hi & Hti & Hsi & _).
  split.
  { rewrite Hitems. map_as_fmap. by rewrite list_lookup_fmap, Hpos. }
  split; [done|]. split; [done|]. split; [done|].
  specialize (Hunit it (list_elem_of_lookup_2 _ _ _ Hpos)).
  destruct (whitespace_only (tr it)); [|done].
  destruct Hunit as (i & out & Hs & Hl & _). eauto.
Qed.

End GoodService.

(** [answering_env] answers both batches in the promised format. *)
Lemma answering_env_answers : answers_in_format answering_env sample_batches.
Proof.
  intros [|[|i]] b H; simpl in H; [| |discriminate]; injection H as <-;
    eexists; (split; [reflexivity|]); (split; [by_evaluation | by_decision]).
Defined.

(** An instance of X16: two batches, answered in the promised format,
    the second one first. *)
Lemma X16_run_translates_every_pending_unit_witness :
  NoDup (map index (items sample_app))
  /\ select_pending (items sample_app) <> []
  /\ answers_in_format answering_env sample_batches
  /\ Permutation (completion answering_env) (seq 0 (length sample_batches))
  /\ select_pending
       (items (_poll_queue (queue (trace (_translate_worker sample_config
                 answering_env (items sample_app)))) sample_app)) = []
  /\ length (calls (_translate_worker sample_config answering_env
                                      (items sample_app))) = 2%nat.
Proof.
  assert (H1 : select_pending (items sample_app) <> []) by discriminate.
  assert (H2 : make_batches (sort_by_index (select_pending (items sample_app)))
                 (batch_size sample_config) = Some sample_batches)
    by by_evaluation.
  assert (Hp : Permutation (completion answering_env)
                 (seq 0 (length sample_batches))) by apply perm_swap.
  split; [exact sample_app_NoDup|]. split; [exact H1|].
  split; [exact answering_env_answers|]. split; [exact Hp|].
  destruct (X16_run_translates_every_pending_unit sample_config answering_env
              sample_app sample_batches sample_app_NoDup H1 eq_refl eq_refl H2
              (fun _ => eq_refl) Hp answering_env_answers)
    as (_ & _ & Hc & Hs & _).
  split; [exact Hs | exact Hc].
Defined.

(** ** Starting a run *)

Lemma str_eqb_false a b : str_eqb a b = false -> a <> b.
Proof. intros H Heq. apply str_eqb_eq in Heq. congruence. Qed.

(** Looking a name up in a table of pairs. *)
Lemma find_name_spec (table : list (str * str)) name :
  match List.find (fun p => str_eqb (fst p) name) table with
  | Some p => fst p = name /\ p ∈ table
  | None => forall p, p ∈ table -> fst p <> name
  end.
Proof.
  induction table as [|q table IH]; simpl.
  - intros p Hp. by apply elem_of_nil in Hp.
  - destruct (str_eqb (fst q) name) eqn:E.
    + apply str_eqb_eq in E. split; [done | by left].
    + apply str_eqb_false in E.
      destruct (List.find _ table) as [p|].
      * destruct IH. split; [done | by right].
      * intros p [->|Hp]%elem_of_cons; auto.
Qed.

Lemma find_name_NoDup (table : list (str * str)) name mid :
  NoDup (map fst table) -> (name, mid) ∈ table ->
  List.find (fun p => str_eqb (fst p) name) table = Some (name, mid).
Proof.
  intros Hnd Hin. pose proof (find_name_spec table name) as H.
  destruct (List.find _ table) as [[n m]|].
  - destruct H as [Hn Hp]. simpl in Hn. subst n. f_equal. f_equal.
    apply list_elem_of_lookup in Hin as [i Hi].
    apply list_elem_of_lookup in Hp as [j Hj].
    assert (i = j).
    { apply (NoDup_lookup (map fst table) i j name Hnd); map_as_fmap;
        rewrite list_lookup_fmap; [by rewrite Hi | by rewrite Hj]. }
    subst j. congruence.
  - exfalso. by apply (H _ Hin).
Qed.

Lemma model_names_NoDup : NoDup (map fst MODEL_OPTIONS).
Proof. by_decision. Qed.

Lemma get_model_id_in model_var :
  _get_model_id model_var ∈ map snd MODEL_OPTIONS.
Proof.
  unfold _get_model_id.
  pose proof (find_name_spec MODEL_OPTIONS (strip model_var)) as Hfind.
  destruct (List.find _ MODEL_OPTIONS) as [[n mid]|].
  - destruct Hfind as [_ Hin]. apply list_elem_of_fmap. by exists (n, mid).
  - by left.
Qed.

(** X17.  [_get_model_id] always answers with an identifier of [MODEL_OPTIONS]:
    the one listed under the selected name, white space around the name
    apart, and the first one when the name is not listed.  The identifier
    holds the word image, which makes a run start with the image warning,
    exactly when the entry Gemini 3 Pro (Image) is selected. *)
Theorem X17_get_model_id_listed (model_var : str) :
  _get_model_id model_var ∈ map snd MODEL_OPTIONS
  /\ (forall name mid, (name, mid) ∈ MODEL_OPTIONS ->
        strip model_var = name -> _get_model_id model_var = mid)
  /\ ((forall name mid, (name, mid) ∈ MODEL_OPTIONS -> strip model_var <> name) ->
      _get_model_id model_var = lit "gemini-3-flash")
  /\ (contains (lit "image") (lower (_get_model_id model_var)) = true
      <-> strip model_var = lit "Gemini 3 Pro (Image)").
Proof.
  split; [apply get_model_id_in|]. unfold _get_model_id.
  pose proof (find_name_spec MODEL_OPTIONS (strip model_var)) as Hfind.
  split; [|split].
  - intros name mid Hin <-.
    by rewrite (find_name_NoDup _ _ _ model_names_NoDup Hin).
  - intros Hno. destruct (List.find _ MODEL_OPTIONS) as [[n mid]|]; [|done].
    destruct Hfind as [Hn Hin]. simpl in Hn. subst n.
    by destruct (Hno _ _ Hin).
  - destruct (List.find _ MODEL_OPTIONS) as [[n mid]|].
    + destruct Hfind as [Hn Hin]. simpl in Hn. rewrite <- Hn. clear Hn.
      unfold MODEL_OPTIONS in Hin.
      repeat (apply elem_of_cons in Hin as [Hin|Hin];
              [injection Hin as -> ->; vm_compute;
               split; intros H; first [discriminate H | reflexivity]|]).
      by apply elem_of_nil in Hin.
    + split; [intros H; vm_compute in H; discriminate|].
      intros H. exfalso.
      apply (Hfind (lit "Gemini 3 Pro (Image)", lit "gemini-3-pro-image"));
        [|by symmetry].
      unfold MODEL_OPTIONS. do 3 right. by left.
Qed.

Lemma digit_not_int_space c : isdigit c = true -> int_space c = false.
Proof.
  unfold isdigit, int_space. intros H. apply andb_true_iff in H as [H1 H2].
  apply N.leb_le in H1, H2.
  repeat match goal with
         | |- context [(?x <=? ?y)] => destruct (N.leb_spec x y)
         | |- context [(?x =? ?y)] => destruct (N.eqb_spec x y)
         end; try done; lia.
Qed.

Lemma space_is_int_space_or_sep c :
  int_space c = true -> isspace c = true.
Proof.
  unfold isspace, int_space.
  repeat match goal with
         | |- context [(?x <=? ?y)] => destruct (N.leb_spec x y)
         | |- context [(?x =? ?y)] => destruct (N.eqb_spec x y)
         end; try done; lia.
Qed.

(** [int] does not strip anything from a string that [strip] has
    produced. *)
Lemma int_space_strip s :
  rev (dropwhile int_space (rev (dropwhile int_space (strip s)))) = strip s.
Proof.
  assert (Hl : dropwhile int_space (strip s) = strip s).
  { destruct (strip s) as [|c r] eqn:E; [done|]. simpl.
    destruct (int_space c) eqn:Hc; [|done].
    apply space_is_int_space_or_sep in Hc.
    by rewrite (strip_first _ _ _ E) in Hc. }
  rewrite Hl.
  destruct (strip s) as [|c r] eqn:E; [done|].
  destruct (exists_last (l := c :: r) ltac:(done)) as (y & d & Hy).
  rewrite Hy, rev_unit. simpl.
  destruct (int_space d) eqn:Hd.
  - apply space_is_int_space_or_sep in Hd.
    rewrite <- E in Hy. by rewrite (strip_last _ _ _ Hy) in Hd.
  - change (d :: rev y) with ([d] ++ rev y).
    by rewrite rev_app_distr, rev_involutive.
Qed.

Lemma int_digits_decimal s : forall after_digit acc digits,
  forallb isdigit s = true -> s <> [] \/ after_digit = true ->
  int_digits s after_digit acc digits
  = Some (fold_left (fun a c => a * 10 + digit_val c) s acc,
          (digits + length s)%nat).
Proof.
  induction s as [|c r IH]; intros ad acc n Hd Hne.
  - destruct Hne as [H | ->]; [done|]. simpl. f_equal. f_equal. lia.
  - simpl in Hd. apply andb_true_iff in Hd as [Hc Hr]. simpl. rewrite Hc.
    rewrite IH by auto. f_equal. f_equal. lia.
Qed.

(** X18.  A numeric field that holds a positive number in decimal, possibly
    with white space around it, is read as that number; the limit on the
    number of digits plays no role up to 640 digits. *)
Theorem X18_numeric_field_accepts_decimal limit (n : N) (field : str) :
  0 < n -> (length (str_of_N n) <= 640)%nat -> strip field = str_of_N n ->
  positive_field limit field = Some (Z.of_N n).
Proof.
  intros Hn Hlen Hf. unfold positive_field, int_of_str.
  rewrite int_space_strip, Hf.
  destruct (str_of_N_digits n) as [Hd Hne].
  destruct (str_of_N n) as [|c r] eqn:E; [done|].
  assert (Hc : isdigit c = true).
  { simpl in Hd. by apply andb_true_iff in Hd as [? _]. }
  assert (Hminus : ascii_eqb c "-" = false).
  { destruct (ascii_eqb c "-") eqn:Em; [|done].
    apply ascii_eqb_eq in Em. by subst c. }
  assert (Hplus : ascii_eqb c "+" = false).
  { destruct (ascii_eqb c "+") eqn:Em; [|done].
    apply ascii_eqb_eq in Em. by subst c. }
  rewrite Hminus, Hplus.
  rewrite int_digits_decimal by auto.
  replace (640 <? 0 + length (c :: r))%nat with false
    by (symmetry; apply Nat.ltb_ge; simpl in *; lia).
  cbn [andb].
  fold (int_of_digits (c :: r)). rewrite <- E, int_of_digits_str_of_N.
  destruct (Z.leb_spec (Z.of_N n) 0); [lia | done].
Qed.

(** An instance of X18: the field holds 25 between blanks and a newline. *)
Lemma X18_numeric_field_accepts_decimal_witness :
  0 < 25 /\ (length (str_of_N 25) <= 640)%nat
  /\ strip (lit " 25 " ++ [LF]) = str_of_N 25
  /\ positive_field 4300 (lit " 25 " ++ [LF]) = Some 25%Z.
Proof.
  assert (H1 : 0 < 25) by reflexivity.
  assert (H2 : (length (str_of_N 25) <= 640)%nat)
    by (apply Nat.leb_le; reflexivity).
  assert (H3 : strip (lit " 25 " ++ [LF]) = str_of_N 25) by reflexivity.
  repeat (split; [assumption|]).
  exact (X18_numeric_field_accepts_decimal 4300 25 _ H1 H2 H3).
Defined.

Lemma positive_field_positive limit field z :
  positive_field limit field = Some z ->
  (0 < z)%Z /\ int_of_str limit (strip field) = Some z.
Proof.
  unfold positive_field. destruct (int_of_str _ _) as [z'|]; [|done].
  destruct (Z.leb_spec z' 0); [done|]. intros [= <-]. by split.
Qed.

Lemma make_batches_positive (l : list item) (size : Z) :
  (0 < size)%Z ->
  exists batches, make_batches l size = Some batches /\ concat batches = l.
Proof.
  intros Hs. destruct size as [|p|p]; try lia.
  eexists. split; [apply make_batches_pos|].
  eapply make_batches_concat; [|apply make_batches_pos]. lia.
Qed.

(** X19.  [on_translate] starts a worker only when there are units and no
    worker is alive; the batch size and the concurrency it passes on are
    the integers read from their fields and are positive, so that the
    pending units can always be cut into batches; base URL, API key and
    guide prompt are the stripped fields and are not empty; the model
    identifier comes from the list of models.  Before any field is
    checked the translations shown in the table are pulled into the
    units; the stop flag is cleared and the worker recorded. *)
Theorem X19_on_translate_starts_valid_runs (limit : nat) (f : form)
    (alive : bool) (a a' : app) (c : config) :
  on_translate limit f alive a = (a', Started c) ->
  (items a <> [] /\ worker_thread a && alive = false)
  /\ ((0 < batch_size c)%Z /\ (0 < concurrency c)%Z
      /\ int_of_str limit (strip (batch_size_var f)) = Some (batch_size c)
      /\ int_of_str limit (strip (concurrency_var f)) = Some (concurrency c))
  /\ (base_url c = strip (base_url_var f) /\ base_url c <> []
      /\ api_key c = strip (api_key_var f) /\ api_key c <> []
      /\ guide_prompt c = strip (guide_text f) /\ guide_prompt c <> []
      /\ model_id c = _get_model_id (model_var f)
      /\ model_id c ∈ map snd MODEL_OPTIONS)
  /\ (items a' = items (_sync_table_to_items a) /\ tree a' = tree a
      /\ worker_thread a' = true /\ stop_flag a' = false
      /\ status_var a' = status_var a /\ log_text a' = log_text a
      /\ dialogs a' = dialogs a /\ input_format a' = input_format a)
  /\ exists batches,
       make_batches (sort_by_index (select_pending (items a'))) (batch_size c)
       = Some batches
       /\ concat batches = sort_by_index (select_pending (items a')).
Proof.
  unfold on_translate. intros H.
  destruct (bool_decide (items a = [])) eqn:Hitems; [done|].
  apply bool_decide_eq_false in Hitems.
  destruct (worker_thread a && alive) eqn:Hw; [done|].
  destruct (positive_field limit (batch_size_var f)) as [bs|] eqn:Hbs; [|done].
  destruct (positive_field limit (concurrency_var f)) as [cc|] eqn:Hcc; [|done].
  destruct (is_empty (strip (base_url_var f)) || is_empty (strip (api_key_var f)))
    eqn:Hurl; [done|].
  destruct (is_empty (strip (guide_text f))) eqn:Hguide; [done|].
  injection H as <- <-. cbn [batch_size concurrency base_url api_key
    guide_prompt model_id items tree worker_thread stop_flag status_var
    log_text dialogs input_format].
  apply orb_false_iff in Hurl as [Hu Hk].
  apply positive_field_positive in Hbs as [Hbs1 Hbs2].
  apply positive_field_positive in Hcc as [Hcc1 Hcc2].
  split; [done|]. split; [done|]. split.
  { repeat split; try done.
    - by destruct (strip (base_url_var f)).
    - by destruct (strip (api_key_var f)).
    - by destruct (strip (guide_text f)).
    - apply get_model_id_in. }
  split; [done|]. by apply make_batches_positive.
Qed.

(** An instance of X19: a form with white space around some fields. *)
Lemma X19_on_translate_starts_valid_runs_witness :
  on_translate 4300 sample_form false sample_app
  = (mk_app (items sample_app) (input_format sample_app) (tree sample_app)
            (status_var sample_app) (log_text sample_app) (dialogs sample_app)
            true false,
     Started (mk_config (lit "http://localhost/v1") (lit "key")
                        (lit "gemini-2.5-pro") (lit "guide") 25 3))
  /\ exists batches,
       make_batches (sort_by_index (select_pending (items sample_app))) 25
       = Some batches.
Proof.
  assert (H : on_translate 4300 sample_form false sample_app
    = (mk_app (items sample_app) (input_format sample_app) (tree sample_app)
              (status_var sample_app) (log_text sample_app)
              (dialogs sample_app) true false,
       Started (mk_config (lit "http://localhost/v1") (lit "key")
                          (lit "gemini-2.5-pro") (lit "guide") 25 3)))
    by by_evaluation.
  split; [exact H|].
  destruct (X19_on_translate_starts_valid_runs _ _ _ _ _ _ H)
    as (_ & _ & _ & _ & batches & Hb & _).
  exists batches. exact Hb.
Defined.

(** ** Blocks of an exported text *)

Lemma cons_head_prepend c p l :
  l <> [] -> cons_head c (prepend p l) = prepend (c :: p) l.
Proof. by destruct l. Qed.

Lemma prepend_app p q l : l <> [] -> prepend p (prepend q l) = prepend (p ++ q) l.
Proof. destruct l; [done|]. intros _. simpl. by rewrite app_assoc. Qed.

Lemma prepend_nonempty p l : prepend p l <> [].
Proof. by destruct l. Qed.

(** A stretch without newline stays in the piece that it starts. *)
Lemma re_split_blank_line l : forall s,
  has_char LF l = false ->
  re_split_blank_aux 0 (l ++ s) = prepend l (re_split_blank_aux 0 s).
Proof.
  induction l as [|c l IH]; intros s Hl.
  - simpl. pose proof (re_split_blank_nonempty s 0).
    by destruct (re_split_blank_aux 0 s).
  - unfold has_char in Hl. simpl in Hl. apply orb_false_iff in Hl as [Hc Hl].
    change ((c :: l) ++ s) with (c :: (l ++ s)). cbn [re_split_blank_aux].
    rewrite ascii_eqb_sym, Hc, IH by done.
    apply cons_head_prepend, re_split_blank_nonempty.
Qed.

(** A single newline before a character other than white space does not
    separate. *)
Lemma re_split_blank_newline c s :
  isspace c = false ->
  re_split_blank_aux 0 (LF :: c :: s)
  = prepend [LF] (re_split_blank_aux 0 (c :: s)).
Proof.
  intros Hc. cbn [re_split_blank_aux].
  change (ascii_eqb LF LF) with true. cbv iota.
  cbn [takewhile]. rewrite Hc. cbn [upto_last_LF].
  pose proof (re_split_blank_nonempty (c :: s) 0).
  by destruct (re_split_blank_aux 0 (c :: s)).
Qed.

(** Two or three newlines in a row before a character other than white
    space separate two pieces. *)
Lemma re_split_blank_gap c s :
  isspace c = false ->
  re_split_blank_aux 0 (LF :: LF :: c :: s) = [] :: re_split_blank_aux 0 (c :: s)
  /\ re_split_blank_aux 0 (LF :: LF :: LF :: c :: s)
     = [] :: re_split_blank_aux 0 (c :: s).
Proof.
  intros Hc. split; cbn [re_split_blank_aux];
    change (ascii_eqb LF LF) with true; cbv iota;
    cbn [takewhile]; rewrite isspace_LF, ?Hc; cbn [takewhile];
    rewrite ?isspace_LF, ?Hc; cbn [upto_last_LF];
    change (ascii_eqb LF LF) with true; cbv iota; reflexivity.
Qed.

(** The lines of a block stay together. *)
Lemma re_split_blank_block ls : forall s,
  ls <> [] -> Forall block_line ls ->
  re_split_blank_aux 0 (join [LF] ls ++ s)
  = prepend (join [LF] ls) (re_split_blank_aux 0 s).
Proof.
  induction ls as [|l ls IH]; intros s Hne Hls; [done|].
  inversion Hls as [|? ? [Hl _] Hls']; subst.
  destruct ls as [|l2 ls].
  - simpl. by apply re_split_blank_line.
  - change (join [LF] (l :: l2 :: ls)) with (l ++ [LF] ++ join [LF] (l2 :: ls)).
    rewrite <- !app_assoc. rewrite re_split_blank_line by done.
    inversion Hls' as [|? ? (_ & c & r & -> & Hc) _]; subst.
    assert (Hj : exists r', join [LF] ((c :: r) :: ls) = c :: r').
    { destruct ls; simpl; eauto. }
    destruct Hj as [r' Hj].
    change ([LF] ++ join [LF] ((c :: r) :: ls) ++ s)
      with (LF :: (join [LF] ((c :: r) :: ls) ++ s)).
    rewrite Hj. change ((c :: r') ++ s) with (c :: (r' ++ s)).
    rewrite re_split_blank_newline by done.
    change (c :: (r' ++ s)) with ((c :: r') ++ s). rewrite <- Hj.
    rewrite IH by done.
    rewrite !prepend_app
      by first [apply re_split_blank_nonempty | apply prepend_nonempty].
    by rewrite <- !app_assoc.
Qed.

Lemma tight_stripped s : s <> [] -> strip s = s -> tight s.
Proof.
  intros Hne Hs. split.
  - destruct s as [|c r]; [done|]. exists c, r. split; [done|].
    by apply (strip_first (c :: r) c r).
  - destruct (exists_last Hne) as (y & d & Hy). exists y, d. split; [done|].
    apply (strip_last s y d). by rewrite Hs.
Qed.

Lemma tight_app x m y : tight x -> tight y -> tight (x ++ m ++ y).
Proof.
  intros [(c & r & -> & Hc) _] [_ (z & d & -> & Hd)]. split.
  - exists c, (r ++ m ++ z ++ [d]). by split.
  - exists ((c :: r) ++ m ++ z), d. split; [by rewrite <- !app_assoc | done].
Qed.

Lemma strip_tight x w : tight x -> forallb isspace w = true -> strip (x ++ w) = x.
Proof.
  intros Hx. induction w as [|c w IH] using rev_ind; intros Hw.
  - rewrite app_nil_r. destruct Hx as [(c & r & -> & Hc) (y & d & Hy & Hd)].
    unfold strip. rewrite lstrip_fixed by done. rewrite Hy.
    by apply rstrip_fixed.
  - rewrite forallb_app in Hw. apply andb_true_iff in Hw as [Hw Hc].
    simpl in Hc. rewrite andb_true_r in Hc.
    rewrite app_assoc, strip_space_snoc by done. by apply IH.
Qed.

Lemma tight_digits n : tight (str_of_N n).
Proof.
  destruct (str_of_N_digits n) as [Hd Hne].
  apply tight_stripped; [done | by apply strip_digits].
Qed.

Lemma arrow_nonempty s : contains ARROW s = true -> s <> [].
Proof. by destruct s. Qed.

Lemma block_of_tight u : block_unit u -> tight (block_of u).
Proof.
  intros (Ha & (Ht & _) & (Hs & _) & _). unfold block_of, block_lines_of.
  pose proof (tight_stripped _ (arrow_nonempty _ Ha) Ht) as Htime.
  destruct (src u) as [|c r] eqn:E; cbn [is_empty join].
  - replace (str_of_N (index u) ++ [LF] ++ time u)
      with (str_of_N (index u) ++ [LF] ++ time u) by done.
    apply tight_app; [apply tight_digits | done].
  - replace (str_of_N (index u) ++ [LF] ++ time u ++ [LF] ++ c :: r)
      with (str_of_N (index u) ++ ([LF] ++ time u ++ [LF]) ++ c :: r)
      by (by rewrite <- !app_assoc).
    apply tight_app; [apply tight_digits|]. by apply tight_stripped.
Qed.

Lemma blocks_text_tight us :
  us <> [] -> Forall block_unit us -> tight (blocks_text us).
Proof.
  induction us as [|u us IH]; intros Hne Hus; [done|].
  inversion Hus as [|? ? Hu Hus']; subst.
  destruct us as [|u2 us]; [by apply block_of_tight|].
  change (blocks_text (u :: u2 :: us))
    with (block_of u ++ gap_after u ++ blocks_text (u2 :: us)).
  apply tight_app; [by apply block_of_tight | by apply IH].
Qed.

Lemma block_lines_ok u : block_unit u -> Forall block_line (block_lines_of u).
Proof.
  intros (Ha & (Ht & Htlf & _) & (Hs & Hslf & _) & _).
  assert (Hline : forall s, s <> [] -> strip s = s -> has_char LF s = false ->
                    block_line s).
  { intros s Hne Hst Hlf. split; [done|].
    destruct (tight_stripped s Hne Hst) as [(c & r & -> & Hc) _]. eauto. }
  unfold block_lines_of. constructor; [|constructor].
  - destruct (str_of_N_digits (index u)) as [Hd Hne].
    apply Hline; [done | by apply strip_digits|].
    by apply (has_char_digits LF).
  - apply Hline; [by apply arrow_nonempty | done | done].
  - destruct (src u) as [|c r] eqn:E; constructor; [|constructor].
    by apply Hline.
Qed.

(** The text of several blocks is split into these blocks. *)
Lemma re_split_blank_blocks us :
  us <> [] -> Forall block_unit us ->
  re_split_blank (blocks_text us) = map block_of us.
Proof.
  unfold re_split_blank. induction us as [|u us IH]; intros Hne Hus; [done|].
  inversion Hus as [|? ? Hu Hus']; subst.
  destruct us as [|u2 us].
  - change (blocks_text [u]) with (block_of u).
    rewrite <- (app_nil_r (block_of u)) at 1. unfold block_of.
    rewrite re_split_blank_block; [|done | by apply block_lines_ok].
    cbn [re_split_blank_aux prepend map]. by rewrite app_nil_r.
  - change (blocks_text (u :: u2 :: us))
      with (block_of u ++ gap_after u ++ blocks_text (u2 :: us)).
    unfold block_of at 1.
    rewrite re_split_blank_block; [|done | by apply block_lines_ok].
    destruct (blocks_text_tight (u2 :: us) ltac:(done) Hus')
      as [(c & r & Hcr & Hc) _].
    rewrite Hcr. unfold gap_after.
    destruct (re_split_blank_gap c r Hc) as [H2 H3].
    destruct (is_empty (src u)); cbn [Datatypes.app]; rewrite ?H2, ?H3;
      rewrite <- Hcr, IH by done; simpl; by rewrite app_nil_r.
Qed.

Lemma dropwhile_absent ch s :
  has_char ch s = false -> dropwhile (ascii_eqb ch) s = s.
Proof.
  destruct s as [|c r]; [done|]. unfold has_char. simpl.
  intros H. apply orb_false_iff in H as [-> _]. done.
Qed.

Lemma strip_char_absent ch s : has_char ch s = false -> strip_char ch s = s.
Proof.
  intros H. unfold strip_char. rewrite (dropwhile_absent _ _ H).
  rewrite dropwhile_absent by (by rewrite has_char_rev).
  apply rev_involutive.
Qed.

Lemma srt_block_lines_of_block ls :
  ls <> [] -> Forall block_line ls -> srt_block_lines (join [LF] ls) = ls.
Proof.
  intros Hne Hls. unfold srt_block_lines.
  rewrite split_join; [|done|].
  2:{ eapply Forall_impl; [exact Hls|]. by intros l [Hl _]. }
  clear Hne. induction Hls as [|l ls (Hl & c & r & -> & Hc) _ IH]; [done|].
  cbn [List.filter]. rewrite (strip_char_absent _ _ Hl).
  cbn [is_empty negb map]. rewrite (strip_char_absent _ _ Hl). by rewrite IH.
Qed.

(** [parse_srt] reads the block of a unit as that unit. *)
Lemma srt_block_of acc u :
  block_unit u -> srt_block acc (block_of u) = acc ++ [u].
Proof.
  intros Hu. pose proof (block_lines_ok u Hu) as Hls.
  destruct Hu as (Ha & (Ht & _) & (Hs & _) & Htr).
  unfold srt_block, block_of.
  rewrite srt_block_lines_of_block by done.
  destruct (str_of_N_digits (index u)) as [Hd Hne].
  assert (Hnum : re_numeric (strip (str_of_N (index u))) = true).
  { rewrite re_numeric_strip, (strip_digits _ Hd). unfold purely_numeric.
    rewrite Hd. by destruct (str_of_N (index u)). }
  assert (Hint : py_int (strip (str_of_N (index u))) = index u).
  { by rewrite (strip_digits _ Hd), py_int_str_of_N. }
  unfold block_lines_of, srt_index_line.
  destruct u as [i t s x]. cbn [index time src tr] in *. subst x.
  destruct s as [|c r]; cbn [is_empty length Nat.ltb Nat.leb nth].
  - rewrite Hnum, Hint. cbn [py_range Nat.add Nat.min Nat.sub length seq
      srt_time_scan nth]. rewrite Ha, Ht. by cbn.
  - rewrite Hnum, Hint. cbn [py_range Nat.add Nat.min Nat.sub length seq
      srt_time_scan nth]. rewrite Ha, Ht.
    cbn [skipn map join]. by rewrite strip_strip, Hs.
Qed.

Lemma srt_blocks_of us : forall acc,
  Forall block_unit us -> fold_left srt_block (map block_of us) acc = acc ++ us.
Proof.
  induction us as [|u us IH]; intros acc Hus; [by rewrite app_nil_r|].
  inversion Hus as [|? ? Hu Hus']; subst. simpl.
  rewrite srt_block_of, IH by done. by rewrite <- app_assoc.
Qed.

(** ** Export and parsing *)

Lemma starts_with_app sub : forall s q,
  starts_with sub s = true -> starts_with sub (s ++ q) = true.
Proof.
  induction sub as [|a sub IH]; intros [|b s] q H; simpl in *; try done.
  apply andb_true_iff in H as [-> H]. by apply IH.
Qed.

Lemma contains_app_l sub s q :
  contains sub s = true -> contains sub (s ++ q) = true.
Proof.
  induction s as [|c s IH]; intros H.
  - simpl in H. rewrite orb_false_r in H.
    destruct sub; [by destruct q | done].
  - change ((c :: s) ++ q) with (c :: (s ++ q)). cbn [contains] in *.
    apply orb_true_iff in H as [H|H].
    + change (c :: (s ++ q)) with ((c :: s) ++ q).
      by rewrite (starts_with_app _ _ _ H).
    + rewrite (IH H). apply orb_true_r.
Qed.

Lemma contains_app_r sub p s :
  contains sub s = true -> contains sub (p ++ s) = true.
Proof.
  intros H. induction p as [|c p IH]; [done|].
  change ((c :: p) ++ s) with (c :: (p ++ s)). cbn [contains].
  rewrite IH. apply orb_true_r.
Qed.

Lemma export_text_stripped it : strip (export_text it) = export_text it.
Proof.
  unfold export_text. destruct (is_empty (strip (tr it))); apply strip_strip.
Qed.

Lemma exported_block_unit it : exportable it -> block_unit (exported_unit it).
Proof.
  intros (Ht & Hlf & Hcr). unfold block_unit, exported_unit.
  cbn [time src tr]. unfold export_time.
  assert (Hx : clean (export_text it)).
  { split; [apply export_text_stripped | done]. }
  destruct (time it) as [|c r] eqn:E; cbn [is_empty].
  - split; [by_evaluation|]. split; [|done]. repeat split; by_evaluation.
  - destruct Ht as [Ht|[Ha Hc]]; [done|]. done.
Qed.

Lemma export_srt_lines_units its :
  export_srt_lines its
  = concat (map four_lines (map exported_unit (sort_by_index its))).
Proof. unfold export_srt_lines. by rewrite map_map. Qed.

Lemma join_four_lines u rest :
  join [LF] (four_lines u ++ rest)
  = block_of u ++ tail_after u
    ++ (if bool_decide (rest = []) then [] else [LF] ++ join [LF] rest).
Proof.
  unfold four_lines, block_of, block_lines_of, tail_after.
  destruct (src u) as [|c r]; destruct rest as [|l rest];
    cbn [is_empty join Datatypes.app]; rewrite ?bool_decide_true by done;
    rewrite ?bool_decide_false by done;
    rewrite <- ?app_assoc; cbn [Datatypes.app]; rewrite ?app_nil_r; try done;
    rewrite <- ?app_assoc; cbn [Datatypes.app]; done.
Qed.

Lemma join_export_lines us :
  us <> [] ->
  exists u, last us = Some u
    /\ join [LF] (concat (map four_lines us)) = blocks_text us ++ tail_after u.
Proof.
  induction us as [|u us IH]; intros Hne; [done|].
  destruct us as [|u2 us].
  - exists u. split; [done|]. cbn [map concat].
    rewrite join_four_lines. rewrite bool_decide_true by done.
    by rewrite app_nil_r.
  - destruct (IH ltac:(done)) as (v & Hv & Hj). exists v. split; [done|].
    change (concat (map four_lines (u :: u2 :: us)))
      with (four_lines u ++ concat (map four_lines (u2 :: us))).
    rewrite join_four_lines, Hj.
    rewrite bool_decide_false by done.
    change (blocks_text (u :: u2 :: us))
      with (block_of u ++ gap_after u ++ blocks_text (u2 :: us)).
    unfold tail_after at 1, gap_after.
    destruct (is_empty (src u)); by rewrite <- !app_assoc.
Qed.

Lemma tail_after_space u : forallb isspace (tail_after u) = true.
Proof. unfold tail_after. by destruct (is_empty (src u)). Qed.

Lemma block_of_no_CR u : block_unit u -> has_char CR (block_of u) = false.
Proof.
  intros (_ & (_ & _ & Ht) & (_ & _ & Hs) & _). unfold block_of.
  apply has_char_join; [done|]. unfold block_lines_of.
  constructor; [|constructor; [done|]].
  - apply has_char_digits; [done | apply str_of_N_digits].
  - destruct (is_empty (src u)); by repeat constructor.
Qed.

Lemma blocks_text_no_CR us :
  Forall block_unit us -> has_char CR (blocks_text us) = false.
Proof.
  induction 1 as [|u us Hu Hus IH]; [done|].
  destruct us as [|u2 us]; [by apply block_of_no_CR|].
  change (blocks_text (u :: u2 :: us))
    with (block_of u ++ gap_after u ++ blocks_text (u2 :: us)).
  rewrite !has_char_app, IH, block_of_no_CR by done.
  unfold gap_after. by destruct (is_empty (src u)).
Qed.

Lemma blocks_text_arrow us :
  us <> [] -> Forall block_unit us -> contains ARROW (blocks_text us) = true.
Proof.
  intros Hne Hus. destruct Hus as [|u us Hu Hus]; [done|].
  assert (Hb : contains ARROW (block_of u) = true).
  { destruct Hu as (Ha & _). unfold block_of, block_lines_of.
    destruct (is_empty (src u)).
    - cbn [join]. by apply contains_app_r, contains_app_r.
    - cbn [join]. apply contains_app_r, contains_app_r.
      by apply contains_app_l. }
  destruct us as [|u2 us]; [done|].
  change (blocks_text (u :: u2 :: us))
    with (block_of u ++ gap_after u ++ blocks_text (u2 :: us)).
  by apply contains_app_l.
Qed.

(** The text written by an export, as [parse_srt] normalises it. *)
Lemma normalize_export its :
  its <> [] -> Forall exportable its ->
  let us := map exported_unit (sort_by_index its) in
  us <> [] /\ Forall block_unit us
  /\ export_srt_content its = blocks_text us ++ [LF]
  /\ normalize (export_srt_content its) = blocks_text us.
Proof.
  intros Hne Hex us.
  assert (Hus : us <> []).
  { unfold us. intros H. apply (f_equal length) in H.
    rewrite length_map, sort_by_index_length in H. by destruct its. }
  assert (Hbu : Forall block_unit us).
  { unfold us. apply Forall_map.
    rewrite (sort_by_index_perm its).
    eapply Forall_impl; [exact Hex|]. apply exported_block_unit. }
  split; [done|]. split; [done|].
  pose proof (blocks_text_tight us Hus Hbu) as Htight.
  assert (Hc : export_srt_content its = blocks_text us ++ [LF]).
  { unfold export_srt_content. rewrite export_srt_lines_units. fold us.
    destruct (join_export_lines us Hus) as (u & _ & ->).
    by rewrite (strip_tight _ _ Htight (tail_after_space u)). }
  split; [done|]. rewrite Hc. unfold normalize.
  assert (Hcr : has_char CR (blocks_text us ++ [LF]) = false).
  { by rewrite has_char_app, blocks_text_no_CR. }
  rewrite (replace_absent CR [LF] [LF] _ Hcr), (replace_absent CR [] [LF] _ Hcr).
  by apply strip_tight.
Qed.

Lemma parse_srt_export its :
  its <> [] -> Forall exportable its ->
  parse_srt (export_srt_content its) = map exported_unit (sort_by_index its).
Proof.
  intros Hne Hex.
  destruct (normalize_export its Hne Hex) as (Hus & Hbu & Hc & Hn).
  set (us := map exported_unit (sort_by_index its)) in *.
  unfold parse_srt. rewrite Hn.
  destruct (blocks_text_tight us Hus Hbu) as [(c & r & Hcr & _) _].
  rewrite Hcr. cbn [is_empty]. rewrite <- Hcr.
  rewrite (re_split_blank_blocks us Hus Hbu). by rewrite srt_blocks_of.
Qed.

(** X20.  Parsing the text that [on_export_srt] writes gives back the exported
    units, in ascending order of their indices: each with its index, its
    time range, or the dummy one when it has none, and as its source the
    stripped translation, or the stripped source when the translation is
    blank.  The format detection reads the text as SRT.  This holds for
    units whose time range, when there is one, holds the arrow and is on
    one line without white space around it, and whose exported text is on
    one line. *)
Theorem X20_export_srt_parses_back (its : list item) :
  its <> [] -> Forall exportable its ->
  parse_srt (export_srt_content its) = map exported_unit (sort_by_index its)
  /\ detect_and_parse_subtitles (export_srt_content its)
     = (map exported_unit (sort_by_index its), Fsrt).
Proof.
  intros Hne Hex. pose proof (parse_srt_export its Hne Hex) as Hp.
  destruct (normalize_export its Hne Hex) as (Hus & Hbu & Hc & Hn).
  set (us := map exported_unit (sort_by_index its)) in *.
  split; [done|]. unfold detect_and_parse_subtitles.
  rewrite Hc at 1.
  rewrite (contains_app_l _ _ _ (blocks_text_arrow us Hus Hbu)), Hp.
  by destruct us.
Qed.

(** The units of [export_items] can be exported. *)
Lemma export_items_exportable : Forall exportable export_items.
Proof.
  constructor; [|constructor; [|constructor]].
  - split; [right; split; [by_evaluation | repeat split; by_evaluation]|].
    split; by_evaluation.
  - split; [by left|]. split; by_evaluation.
Defined.

(** An instance of X20: two units in descending order, one of them
    without time range and translation. *)
Lemma X20_export_srt_parses_back_witness :
  export_items <> [] /\ Forall exportable export_items
  /\ export_srt_content export_items
     = lit "1" ++ [LF] ++ DUMMY_TIME ++ [LF] ++ lit "Hello" ++ [LF; LF]
       ++ lit "2" ++ [LF] ++ lit "00:00:03,000 --> 00:00:04,000" ++ [LF]
       ++ lit "The gioi" ++ [LF]
  /\ parse_srt (export_srt_content export_items)
     = [mk_item 1 DUMMY_TIME (lit "Hello") [];
        mk_item 2 (lit "00:00:03,000 --> 00:00:04,000") (lit "The gioi") []].
Proof.
  assert (H1 : export_items <> []) by discriminate.
  split; [exact H1|]. split; [exact export_items_exportable|].
  split; [by_evaluation|].
  destruct (X20_export_srt_parses_back export_items H1 export_items_exportable)
    as [H _].
  rewrite H. by_evaluation.
Defined.

(** ** From the input text to the exported file *)












(** ** Invariants of the table *)

Lemma poll_event_in_sync ev a :
  NoDup (map index (items a)) -> in_sync a ->
  NoDup (map index (items (poll_event a ev))) /\ in_sync (poll_event a ev).
Proof.
  intros Hnd Hs. destruct ev as [msg|msg|m| |msg]; try done.
  cbn [poll_event]. split; [|by apply merge_in_sync].
  cbn [_apply_translation_mapping items]. by rewrite apply_to_items_indices.
Qed.

(** X22.  When the indices are pairwise distinct and the table shows the units
    as they are, this is still so after any events have been polled, and
    a synchronisation then changes nothing: the translations that the
    merges put into the units are the ones shown. *)
Theorem X22_table_stays_in_sync (q : list event) (a : app) :
  NoDup (map index (items a)) -> in_sync a ->
  in_sync (_poll_queue q a)
  /\ NoDup (map index (items (_poll_queue q a)))
  /\ _sync_table_to_items (_poll_queue q a) = _poll_queue q a.
Proof.
  revert a. induction q as [|ev q IH]; intros a Hnd Hs.
  - split; [done|]. split; [done|]. by apply sync_in_sync.
  - change (_poll_queue (ev :: q) a) with (_poll_queue q (poll_event a ev)).
    destruct (poll_event_in_sync ev a Hnd Hs). by apply IH.
Qed.

(** An instance of X22: an update, a log line and done are polled. *)
Lemma X22_table_stays_in_sync_witness :
  NoDup (map index (items sample_app)) /\ in_sync sample_app
  /\ in_sync (_poll_queue [UpdateTranslations (parse_model_output good_reply);
                           Log (lit "ok"); Done] sample_app).
Proof.
  split; [exact sample_app_NoDup|]. split; [exact sample_app_in_sync|].
  exact (proj1 (X22_table_stays_in_sync _ sample_app sample_app_NoDup
                  sample_app_in_sync)).
Defined.

(** ** Stop requests *)

(** X23.  A stop request made while the worker is alive sets the stop flag and
    touches neither the units nor the table.  The poller leaves the flag
    set as long as events of the run are still to come, and clears it,
    and releases the worker, with the last event of the run. *)
Theorem X23_stop_request_lasts_until_the_run_ends (c : config) (e : env)
    (its : list item) (a : app) :
  worker_thread a = true ->
  let a1 := on_stop true a in
  let q := queue (trace (_translate_worker c e its)) in
  (stop_flag a1 = true /\ worker_thread a1 = true
   /\ status_var a1 = lit "Đang dừng..."
   /\ items a1 = items a /\ tree a1 = tree a)
  /\ (forall q1 q2, q = q1 ++ q2 -> q2 <> [] ->
        stop_flag (_poll_queue q1 a1) = true
        /\ worker_thread (_poll_queue q1 a1) = true)
  /\ stop_flag (_poll_queue q a1) = false
  /\ worker_thread (_poll_queue q a1) = false.
Proof.
  intros Hw a1 q.
  assert (H1 : stop_flag a1 = true /\ worker_thread a1 = true).
  { unfold a1, on_stop. by rewrite Hw. }
  split.
  { unfold a1, on_stop. rewrite Hw. by cbn. }
  destruct (translate_worker_end c e its) as (t & ev & Ht & Hopen & Hev).
  destruct (terminal_last t ev Hopen Hev) as (q' & Hq & Hq').
  assert (Hqq : q = q' ++ [ev]) by (unfold q; by rewrite Ht).
  split.
  - intros q1 q2 Hsplit Hne.
    destruct (exists_last Hne) as (y & d & ->).
    rewrite Hqq, app_assoc in Hsplit. apply app_inj_tail in Hsplit as [-> _].
    apply Forall_app in Hq' as [Hq1 _].
    destruct (poll_open_events q1 a1 Hq1) as (-> & -> & _).
    by destruct H1.
  - rewrite Hqq, poll_queue_app.
    destruct ev; try discriminate; by cbn.
Qed.

(** An instance of X23: a stop request during the run of [cancel_env]. *)
Lemma X23_stop_request_lasts_until_the_run_ends_witness :
  worker_thread sample_app = true
  /\ stop_flag (on_stop true sample_app) = true
  /\ stop_flag (_poll_queue (queue (trace (_translate_worker sample_config
                   cancel_env sample_items))) (on_stop true sample_app))
     = false.
Proof.
  split; [reflexivity|].
  destruct (X23_stop_request_lasts_until_the_run_ends sample_config cancel_env
              sample_items sample_app eq_refl) as ((H1 & _) & _ & H2 & _).
  split; [exact H1 | exact H2].
Defined.

(** ** The two export formats *)

(** X24.  The sheet written by [on_export_xlsx] has a header row and one row
    for each unit, in ascending order of the indices; the SRT export
    lists the units in the same order, that is, parsing it gives the
    indices of the rows of the sheet. *)
Theorem X24_export_formats_agree (its : list item) :
  its <> [] -> Forall exportable its ->
  length (export_xlsx_rows its) = S (length its)
  /\ map (fun r => nth 0 r (CStr [])) (tail (export_xlsx_rows its))
     = map (fun i => CInt i) (map index (parse_srt (export_srt_content its)))
  /\ StronglySorted N.le (map index (parse_srt (export_srt_content its)))
  /\ Permutation (map index (parse_srt (export_srt_content its)))
                 (map index its).
Proof.
  intros Hne Hex. rewrite (parse_srt_export its Hne Hex).
  unfold export_xlsx_rows. cbn [tail length]. rewrite !map_map. cbn [index nth].
  split; [by rewrite length_map, sort_by_index_length|]. split; [done|].
  split.
  - pose proof (sort_by_index_sorted its) as Hs.
    induction Hs as [|x l Hs IH Hx]; [constructor|]. simpl.
    constructor; [done|]. apply Forall_map. exact Hx.
  - apply Permutation_map, sort_by_index_perm.
Qed.

(** An instance of X24: the two units of [export_items]. *)
Lemma X24_export_formats_agree_witness :
  export_items <> [] /\ Forall exportable export_items
  /\ length (export_xlsx_rows export_items) = 3%nat
  /\ map (fun r => nth 0 r (CStr [])) (tail (export_xlsx_rows export_items))
     = map (fun i => CInt i)
           (map index (parse_srt (export_srt_content export_items)))
  /\ map index (parse_srt (export_srt_content export_items)) = [1; 2].
Proof.
  assert (H1 : export_items <> []) by discriminate.
  split; [exact H1|]. split; [exact export_items_exportable|].
  destruct (X24_export_formats_agree export_items H1 export_items_exportable)
    as (Hl & H & _).
  split; [exact Hl|]. split; [exact H | by_evaluation].
Defined.
